(** * Koper_Game: the tournament engine, its equity estimator and pot allocation

    A shallow embedding of [engine_core.py], of [play_match] in [main.py] and
    of the example strategies of [dummy_strategies.py].

    Conventions of the embedding.
    - Money (stacks, bets, pot, equities) is a Python float in the program.
      It is modelled by exact rationals [Q]: every comparison, [min] and [max]
      of the program is the same on rationals, and rounding is left out.
      Equalities between amounts are therefore stated with [==].
    - Python's [min(a, b)] returns [a] unless [b < a] and [max(a, b)] returns
      [a] unless [b > a]; [Qmin] and [Qmax] compute the same value.
    - Cards are the two-character strings of the program.
    - What the program takes from outside is an explicit argument: the draws of
      the random generator, the [treys] evaluator, the answers of the five
      strategy objects. *)

From Stdlib Require Import QArith Qminmax Lqa Lia ZArith List String Bool Arith
  Permutation.
Import ListNotations.

Open Scope string_scope.
Open Scope list_scope.
Open Scope Z_scope.
Open Scope Q_scope.

(** ** Python helpers *)

Definition card := string.

Definition card_eq_dec : forall a b : card, {a = b} + {a <> b} := string_dec.

(** [c in l] on a list (or a set) of card strings. *)
Definition mem (c : card) (l : list card) : bool :=
  if in_dec card_eq_dec c l then true else false.

(** A slice bound: negative bounds count from the end, and the result is
    clipped to the list. *)
Definition slice_bound (len i : Z) : Z :=
  let j := if (i <? 0)%Z then (i + len)%Z else i in
  Z.max 0 (Z.min len j).

(** [l[a:b]]. *)
Definition py_slice {A : Type} (l : list A) (a b : Z) : list A :=
  let len := Z.of_nat (List.length l) in
  let a' := slice_bound len a in
  let b' := slice_bound len b in
  firstn (Z.to_nat (b' - a')) (skipn (Z.to_nat a') l).

(** [itertools.combinations(l, k)], in the order Python yields them. *)
Fixpoint combinations {A : Type} (l : list A) (k : nat) : list (list A) :=
  match k with
  | O => [[]]
  | S k' =>
      match l with
      | [] => []
      | x :: xs => map (cons x) (combinations xs k') ++ combinations xs k
      end
  end.

(** [min(l)] on a non-empty list of integers ([d] stands for the empty case,
    which the program guards). *)
Definition list_min (d : Z) (l : list Z) : Z :=
  match l with
  | [] => d
  | x :: xs => fold_left (fun m y => if (y <? m)%Z then y else m) xs x
  end.

(** Removal of the element at position [j]. *)
Fixpoint remove_at {A : Type} (j : nat) (l : list A) : list A :=
  match l with
  | [] => []
  | x :: xs => match j with O => xs | S j' => x :: remove_at j' xs end
  end.

(** [random.shuffle(l)] rearranges [l] into a permutation chosen by the
    generator.  The draws of the generator are an explicit argument: draw
    number [i] selects, among the elements not yet placed, the one that comes
    at position [i] of the result. *)
Fixpoint shuffle_pick {A : Type} (fuel : nat) (draws : list nat) (l : list A)
  : list A :=
  match fuel with
  | O => []
  | S fuel' =>
      match l with
      | [] => []
      | x :: _ =>
          let j := (hd O draws mod List.length l)%nat in
          nth j l x :: shuffle_pick fuel' (tl draws) (remove_at j l)
      end
  end.

Definition shuffle {A : Type} (draws : list nat) (l : list A) : list A :=
  shuffle_pick (List.length l) draws l.

(** No card twice. *)
Fixpoint distinct (l : list card) : bool :=
  match l with
  | [] => true
  | c :: r => negb (mem c r) && distinct r
  end.

Definition sumQ (l : list Q) : Q := fold_right Qplus 0 l.

(** [x < y] on amounts. *)
Definition Qltb (x y : Q) : bool :=
  match x ?= y with Lt => true | _ => false end.

Definition Qnat (n : nat) : Q := inject_Z (Z.of_nat n).

(** ** engine_core.py *)

Module EngineCore.

Definition NUM_GAMES : nat := 50.
Definition STARTING_STACK : Q := 10000.
Definition BUY_IN : Q := 100.

Definition PLAYER_NAMES : list string :=
  ["Player A"; "Player B"; "Player C"; "Player D"; "Player E"].

Definition SUITS : list string := ["h"; "d"; "s"; "c"].
Definition RANKS : list string :=
  ["2"; "3"; "4"; "5"; "6"; "7"; "8"; "9"; "T"; "J"; "Q"; "K"; "A"].

(** The score no hand has: one more than the worst score of [treys]. *)
Definition SENTINEL : Z := 7463.

Record PlayerState := mkPlayerState {
  name : string;
  index : nat;
  stack : Q;
  is_lost_match : bool;
  hole_cards : list card;
  current_bet_r1 : Q;
  current_bet_r2 : Q;
  final_round_bet : Q;
  has_folded : bool;
  hand_score : Z;
  round_equities : list Q
}.

(** [PlayerState.__init__] *)
Definition new_player (nm : string) (i : nat) : PlayerState :=
  mkPlayerState nm i STARTING_STACK false [] 0 0 0 false 0%Z [].

(** [PlayerState.reset_round] *)
Definition reset_round (p : PlayerState) : PlayerState :=
  mkPlayerState (name p) (index p) (stack p) (is_lost_match p)
    [] 0 0 0 false 0%Z [].

(** [create_deck]: suits outside, ranks inside. *)
Definition create_deck : list card :=
  flat_map (fun s => map (fun r => String.append r s) RANKS) SUITS.

(** [get_clean_deck]: ranks outside, suits inside. *)
Definition get_clean_deck : list card :=
  flat_map (fun r => map (fun s => String.append r s) SUITS) RANKS.

Section Evaluator.

(** [evaluator.evaluate([Card.new(c) for c in combo], [])] of the [treys]
    package: [None] stands for a raised exception. *)
Variable treys_evaluate : list card -> option Z.

(** One turn of the loop of [evaluate_best_hand]. *)
Definition best_step (best_score : Z) (combo : list card) : Z :=
  match treys_evaluate combo with
  | Some score => if (score <? best_score)%Z then score else best_score
  | None => best_score
  end.

Definition evaluate_best_hand (seven_cards : list card) : Z :=
  fold_left best_step (combinations seven_cards 5) SENTINEL.

Definition evaluate_hand (hole community : list card) : Z :=
  evaluate_best_hand (hole ++ community).

(** The [num_opponents] hole-card pairs dealt from [deck_idx] on. *)
Fixpoint deal_opponents (remaining_deck : list card) (deck_idx : Z)
  (num_opponents : nat) : list (list card) :=
  match num_opponents with
  | O => []
  | S n =>
      py_slice remaining_deck deck_idx (deck_idx + 2)
        :: deal_opponents remaining_deck (deck_idx + 2) n
  end.

(** The body of one iteration of [calculate_multiplayer_equity] after the
    shuffle: the new value of [wins]. *)
Definition equity_trial (hero_hand current_board remaining_deck : list card)
  (num_opponents : Z) (wins : Q) : Q :=
  let cards_needed_on_board := (5 - Z.of_nat (List.length current_board))%Z in
  if (cards_needed_on_board + num_opponents * 2
        >? Z.of_nat (List.length remaining_deck))%Z
  then wins
  else
    let runout := py_slice remaining_deck 0 cards_needed_on_board in
    let final_board := current_board ++ runout in
    let opponent_hands :=
      deal_opponents remaining_deck cards_needed_on_board
        (Z.to_nat num_opponents) in
    let hero_score := evaluate_best_hand (hero_hand ++ final_board) in
    let opp_scores :=
      map (fun opp_hole => evaluate_best_hand (opp_hole ++ final_board))
        opponent_hands in
    let best_opponent_score :=
      match opp_scores with
      | [] => SENTINEL
      | _ => list_min SENTINEL opp_scores
      end in
    if (hero_score <? best_opponent_score)%Z then wins + 1
    else if (hero_score =? best_opponent_score)%Z then wins + (1 # 2)
    else wins.

(** The loop [for _ in range(iterations)]: [draws i] are the generator's
    draws of the shuffle of iteration [i]; the deck is shuffled in place and
    carried from one iteration to the next. *)
Fixpoint equity_loop (draws : nat -> list nat)
  (hero_hand current_board : list card) (num_opponents : Z)
  (todo i : nat) (remaining_deck : list card) (wins : Q) : Q :=
  match todo with
  | O => wins
  | S todo' =>
      let remaining_deck := shuffle (draws i) remaining_deck in
      equity_loop draws hero_hand current_board num_opponents todo' (S i)
        remaining_deck
        (equity_trial hero_hand current_board remaining_deck num_opponents wins)
  end.

Definition calculate_multiplayer_equity (draws : nat -> list nat)
  (hero_hand current_board : list card) (num_players iterations : Z) : Q :=
  let full_deck := get_clean_deck in
  let known_cards := hero_hand ++ current_board in
  let remaining_deck := filter (fun c => negb (mem c known_cards)) full_deck in
  let num_opponents := (num_players - 1)%Z in
  let wins :=
    equity_loop draws hero_hand current_board num_opponents
      (Z.to_nat iterations) O remaining_deck 0 in
  let win_pct :=
    if (iterations =? 0)%Z then 0
    else (wins / inject_Z iterations) * 100 in
  win_pct / 100.

End Evaluator.

(** What the program relies on from [treys]: five different cards of the
    deck get a score from 1 (best) to 7462 (worst). *)
Definition treys_contract (evaluate : list card -> option Z) : Prop :=
  forall combo : list card,
    List.length combo = 5%nat ->
    NoDup combo ->
    incl combo get_clean_deck ->
    exists score : Z,
      evaluate combo = Some score /\ (1 <= score < SENTINEL)%Z.

End EngineCore.

(** ** main.py

    [play_match], one turn of its game loop at a time.  Left out: the
    [print] calls, and the calls of [initialize_game], which hand the history
    to the strategy objects and change nothing the engine reads.  The
    strategies are taken not to mutate the lists they are passed.  The second
    test [if num_r3_players == 0: continue] repeats the test made before
    round 2 on the same list and is never taken. *)

Module Main.

Import EngineCore.

(** *** The heap of the match: players, wins, history *)

Definition with_stack (p : PlayerState) (s : Q) : PlayerState :=
  mkPlayerState (name p) (index p) s (is_lost_match p) (hole_cards p)
    (current_bet_r1 p) (current_bet_r2 p) (final_round_bet p) (has_folded p)
    (hand_score p) (round_equities p).

(** [pot += p.stack; p.stack = 0; p.is_lost_match = True] (the player's part). *)
Definition eliminate (p : PlayerState) : PlayerState :=
  mkPlayerState (name p) (index p) 0 true (hole_cards p)
    (current_bet_r1 p) (current_bet_r2 p) (final_round_bet p) (has_folded p)
    (hand_score p) (round_equities p).

Definition with_hole_cards (p : PlayerState) (h : list card) : PlayerState :=
  mkPlayerState (name p) (index p) (stack p) (is_lost_match p) h
    (current_bet_r1 p) (current_bet_r2 p) (final_round_bet p) (has_folded p)
    (hand_score p) (round_equities p).

Definition with_bet_r1 (p : PlayerState) (b : Q) : PlayerState :=
  mkPlayerState (name p) (index p) (stack p) (is_lost_match p) (hole_cards p)
    b (current_bet_r2 p) (final_round_bet p) (has_folded p)
    (hand_score p) (round_equities p).

Definition with_bet_r2 (p : PlayerState) (b : Q) : PlayerState :=
  mkPlayerState (name p) (index p) (stack p) (is_lost_match p) (hole_cards p)
    (current_bet_r1 p) b (final_round_bet p) (has_folded p)
    (hand_score p) (round_equities p).

Definition with_final_bet (p : PlayerState) (b : Q) : PlayerState :=
  mkPlayerState (name p) (index p) (stack p) (is_lost_match p) (hole_cards p)
    (current_bet_r1 p) (current_bet_r2 p) b (has_folded p)
    (hand_score p) (round_equities p).

Definition with_folded (p : PlayerState) : PlayerState :=
  mkPlayerState (name p) (index p) (stack p) (is_lost_match p) (hole_cards p)
    (current_bet_r1 p) (current_bet_r2 p) (final_round_bet p) true
    (hand_score p) (round_equities p).

Definition with_hand_score (p : PlayerState) (s : Z) : PlayerState :=
  mkPlayerState (name p) (index p) (stack p) (is_lost_match p) (hole_cards p)
    (current_bet_r1 p) (current_bet_r2 p) (final_round_bet p) (has_folded p)
    s (round_equities p).

(** [p.round_equities.append(win_prob)] *)
Definition log_equity (p : PlayerState) (win_prob : Q) : PlayerState :=
  mkPlayerState (name p) (index p) (stack p) (is_lost_match p) (hole_cards p)
    (current_bet_r1 p) (current_bet_r2 p) (final_round_bet p) (has_folded p)
    (hand_score p) (round_equities p ++ [win_prob]).

(** [l[i] = f(l[i])].  Python raises on an index out of range; the indices
    of [play_match] are seats of the table (lemma [play_hand_wf] below). *)
Fixpoint list_update {A : Type} (l : list A) (i : nat) (f : A -> A) : list A :=
  match l with
  | [] => []
  | x :: xs =>
      match i with
      | O => f x :: xs
      | S i' => x :: list_update xs i' f
      end
  end.

(** [players[idx]] *)
Definition player_at (players : list PlayerState) (idx : nat) : PlayerState :=
  nth idx players (new_player "" O).

(** The object [players[idx]] takes the new field values [p]. *)
Definition set_player (players : list PlayerState) (idx : nat)
  (p : PlayerState) : list PlayerState :=
  list_update players idx (fun _ => p).

(** One value of a history entry's per-player dictionary. *)
Record PlayerLog := mkPlayerLog {
  log_hole_cards : list card;
  log_final_score : Z;
  log_folded : bool;
  log_final_bet : Q;
  log_equities : list Q;
  log_stack : Q
}.

(** [round_history]: the integer keys, then ["community_cards"] and
    ["pot_final"]. *)
Record RoundHistory := mkRoundHistory {
  rh_players : list (nat * PlayerLog);
  rh_community_cards : list card;
  rh_pot_final : Q
}.

(** [d[k] = v] on the integer keys of a dictionary, in insertion order. *)
Fixpoint dict_set (d : list (nat * PlayerLog)) (k : nat) (v : PlayerLog)
  : list (nat * PlayerLog) :=
  match d with
  | [] => [(k, v)]
  | (k', v') :: d' =>
      if Nat.eqb k' k then (k, v) :: d' else (k', v') :: dict_set d' k v
  end.

Record MatchState := mkMatchState {
  players : list PlayerState;
  match_history : list RoundHistory;
  no_of_wins : list Q
}.

(** *** What the match takes from outside

    The first two arguments of every field are the game number and the seat
    (or the round): a strategy is an object with a state of its own, so its
    answers are not a function of the arguments of the call alone. *)
Record Env := mkEnv {
  (** the draws of [random.shuffle(deck)] in a game *)
  deck_draws : nat -> list nat;
  (** the draws of the shuffles inside the call of
      [calculate_multiplayer_equity] made in a game and round for a seat *)
  equity_draws : nat -> nat -> nat -> nat -> list nat;
  (** [p.strategy.round1(hole, visible, stacks, pot, win_prob)] *)
  round1 : nat -> nat -> list card -> list card -> list Q -> Q -> Q
           -> string * Q;
  (** [p.strategy.round2(hole, visible, r1_bets, stacks, pot, win_prob)] *)
  round2 : nat -> nat -> list card -> list card -> list Q -> list Q -> Q -> Q
           -> Q;
  (** [p.strategy.round3(hole, visible, r1_bets, r2_bets, stacks, pot,
      win_prob)] *)
  round3 : nat -> nat -> list card -> list card -> list Q -> list Q -> list Q
           -> Q -> Q -> Q
}.

(** [deck.pop()]: the last card; [None] is Python's [IndexError]. *)
Definition pop (deck : list card) : option (card * list card) :=
  match rev deck with
  | [] => None
  | c :: r => Some (c, rev r)
  end.

(** [[deck.pop() for _ in range(n)]] *)
Fixpoint pop_n (n : nat) (deck : list card) : option (list card * list card) :=
  match n with
  | O => Some ([], deck)
  | S n' =>
      match pop deck with
      | None => None
      | Some (c, deck') =>
          match pop_n n' deck' with
          | None => None
          | Some (cs, deck'') => Some (c :: cs, deck'')
          end
      end
  end.

Section Hand.

Variable treys_evaluate : list card -> option Z.
Variable env : Env.
Variable game_num : nat.

(** The default of the parameter [iterations]. *)
Definition ITERATIONS : Z := 500.

Definition equity (round idx : nat) (hole visible : list card)
  (num_players : nat) : Q :=
  calculate_multiplayer_equity treys_evaluate
    (equity_draws env game_num round idx) hole visible
    (Z.of_nat num_players) ITERATIONS.

(** **** Round 0: buy-ins and dealing *)

Record Round0 := mkRound0 {
  r0_players : list PlayerState;
  r0_pot : Q;
  r0_deck : list card;
  r0_active_players_indices : list nat
}.

(** [for p in players:] of round 0, from the player [todo] starts with. *)
Fixpoint buy_in_loop (todo : list PlayerState) (pot : Q) (deck : list card)
  : option Round0 :=
  match todo with
  | [] => Some (mkRound0 [] pot deck [])
  | p :: rest =>
      let p := reset_round p in
      if is_lost_match p then
        match buy_in_loop rest pot deck with
        | None => None
        | Some r =>
            Some (mkRound0 (p :: r0_players r) (r0_pot r) (r0_deck r)
                    (r0_active_players_indices r))
        end
      else if Qltb (stack p) BUY_IN then
        match buy_in_loop rest (pot + stack p) deck with
        | None => None
        | Some r =>
            Some (mkRound0 (eliminate p :: r0_players r) (r0_pot r) (r0_deck r)
                    (r0_active_players_indices r))
        end
      else
        match pop deck with
        | None => None
        | Some (c1, deck1) =>
            match pop deck1 with
            | None => None
            | Some (c2, deck2) =>
                let p := with_stack p (stack p - BUY_IN) in
                let p := with_hole_cards p [c1; c2] in
                match buy_in_loop rest (pot + BUY_IN) deck2 with
                | None => None
                | Some r =>
                    Some (mkRound0 (p :: r0_players r) (r0_pot r) (r0_deck r)
                            (index p :: r0_active_players_indices r))
                end
            end
        end
  end.

(** **** Round 1: flop betting *)

(** The state of the loop that finds who can afford round 1. *)
Record Afford := mkAfford {
  af_players : list PlayerState;
  af_pot : Q;
  af_round1_active_indices : list nat
}.

Definition afford_step (st : Afford) (idx : nat) : Afford :=
  let p := player_at (af_players st) idx in
  if Qltb (stack p) 100 then
    mkAfford (set_player (af_players st) idx (eliminate p))
      (af_pot st + stack p) (af_round1_active_indices st)
  else
    mkAfford (af_players st) (af_pot st)
      (af_round1_active_indices st ++ [idx]).

(** The state of a betting loop: the players, the pot and the dictionary of
    the round's bets ([r1_bets], [r2_bets]). *)
Record Betting := mkBetting {
  b_players : list PlayerState;
  b_pot : Q;
  b_bets : list Q
}.

Definition round1_step (visible_community : list card)
  (current_stacks : list Q) (num_players : nat) (st : Betting) (idx : nat)
  : Betting :=
  let p := player_at (b_players st) idx in
  let win_prob := equity 1 idx (hole_cards p) visible_community num_players in
  let '(action, val) :=
    round1 env game_num idx (hole_cards p) visible_community current_stacks
      (b_pot st) win_prob in
  if String.eqb action "fold" then
    let p := with_folded p in
    mkBetting (set_player (b_players st) idx (log_equity p win_prob))
      (b_pot st) (b_bets st)
  else
    let price := Qmax 100 (Qmin 300 val) in
    let price := Qmin price (stack p) in
    let p := with_bet_r1 p price in
    let p := with_stack p (stack p - price) in
    mkBetting (set_player (b_players st) idx (log_equity p win_prob))
      (b_pot st + price) (list_update (b_bets st) idx (fun _ => price)).

(** **** Round 2: turn betting *)

Definition round2_step (visible_community : list card) (r1_bets : list Q)
  (current_stacks : list Q) (num_r2_players : nat) (st : Betting) (idx : nat)
  : Betting :=
  let p := player_at (b_players st) idx in
  let win_prob :=
    equity 2 idx (hole_cards p) visible_community num_r2_players in
  let val :=
    round2 env game_num idx (hole_cards p) visible_community r1_bets
      current_stacks (b_pot st) win_prob in
  let min_p := current_bet_r1 p * (1 # 2) in
  let max_p := current_bet_r1 p * (3 # 2) in
  let price := Qmax min_p (Qmin max_p val) in
  let price := Qmin price (stack p) in
  let p := with_bet_r2 p price in
  let p := with_stack p (stack p - price) in
  mkBetting (set_player (b_players st) idx (log_equity p win_prob))
    (b_pot st + price) (list_update (b_bets st) idx (fun _ => price)).

(** **** Round 3: river betting (it keeps no dictionary of its bets) *)

Definition round3_step (visible_community : list card) (r1_bets r2_bets : list Q)
  (current_stacks : list Q) (num_r3_players : nat) (st : Betting) (idx : nat)
  : Betting :=
  let p := player_at (b_players st) idx in
  let win_prob :=
    equity 3 idx (hole_cards p) visible_community num_r3_players in
  let val :=
    round3 env game_num idx (hole_cards p) visible_community r1_bets r2_bets
      current_stacks (b_pot st) win_prob in
  let min_p := current_bet_r2 p * (3 # 4) in
  let max_p := current_bet_r2 p * (5 # 4) in
  let price := Qmax min_p (Qmin max_p val) in
  let price := Qmin price (stack p) in
  let p := with_final_bet p price in
  let p := with_stack p (stack p - price) in
  mkBetting (set_player (b_players st) idx (log_equity p win_prob))
    (b_pot st + price) (b_bets st).

(** **** Showdown and pot allocation *)

Record Showdown := mkShowdown {
  sd_players : list PlayerState;
  sd_best_score : Z;
  sd_winners : list nat;          (* the seats of the objects in [winners] *)
  sd_round_history : list (nat * PlayerLog)
}.

Definition showdown_step (community_cards : list card) (st : Showdown)
  (idx : nat) : Showdown :=
  let p := player_at (sd_players st) idx in
  let is_folded := has_folded p in
  if negb is_folded then
    let score := evaluate_hand treys_evaluate (hole_cards p) community_cards in
    let p := with_hand_score p score in
    let log :=
      mkPlayerLog (hole_cards p) score is_folded (final_round_bet p)
        (round_equities p) (stack p) in
    let history := dict_set (sd_round_history st) (index p) log in
    let players := set_player (sd_players st) idx p in
    if (score <? sd_best_score st)%Z then
      mkShowdown players score [idx] history
    else if (score =? sd_best_score st)%Z then
      mkShowdown players (sd_best_score st) (sd_winners st ++ [idx]) history
    else
      mkShowdown players (sd_best_score st) (sd_winners st) history
  else
    let log :=
      mkPlayerLog (hole_cards p) 0 is_folded (final_round_bet p)
        (round_equities p) (stack p) in
    mkShowdown (sd_players st) (sd_best_score st) (sd_winners st)
      (dict_set (sd_round_history st) (index p) log).

(** The state of the loop [for winner in winners]. *)
Record Payout := mkPayout {
  pay_players : list PlayerState;
  pay_no_of_wins : list Q;
  pay_total_win : Q;
  pay_paid : list (nat * Q)       (* seat and [actual_win_for_winner], in order *)
}.

Definition payout_step (num_winners : nat) (winning_pot_share_max : Q)
  (st : Payout) (w : nat) : Payout :=
  let winner := player_at (pay_players st) w in
  let wins :=
    list_update (pay_no_of_wins st) (index winner)
      (fun x => x + 1 / Qnat num_winners) in
  let winning_cap :=
    4 * (BUY_IN + current_bet_r1 winner + current_bet_r2 winner
         + final_round_bet winner) in
  let actual_win_for_winner := Qmin winning_cap winning_pot_share_max in
  mkPayout
    (set_player (pay_players st) w
       (with_stack winner (stack winner + actual_win_for_winner)))
    wins
    (pay_total_win st + actual_win_for_winner)
    (pay_paid st ++ [(w, actual_win_for_winner)]).

(** [for p in recipients: p.stack += share] *)
Definition share_step (share : Q) (players : list PlayerState) (idx : nat)
  : list PlayerState :=
  let p := player_at players idx in
  set_player players idx (with_stack p (stack p + share)).

(** The entry of [match_history] written when a hand ends before round 2. *)
Definition truncated_history (players : list PlayerState)
  (community_cards : list card) (pot : Q) : RoundHistory :=
  mkRoundHistory
    (fold_left
       (fun d p =>
          dict_set d (index p)
            (mkPlayerLog (hole_cards p) 7463 (has_folded p) 0
               (round_equities p) (stack p)))
       players [])
    (py_slice community_cards 0 3)
    pot.

(** **** One turn of the game loop *)

(** How the turn of the game loop ends. *)
Inductive Outcome :=
| Halt        (* [break]: fewer than two players bought in *)
| EarlyWin    (* one player left after round 1 *)
| NoRound2    (* nobody left after round 1 *)
| NoWinner    (* [if not winners: continue] *)
| ShowdownPaid.

(** The values the local variables of one turn take, next to the state of
    the match before and after it.  A field of a stage the turn did not reach
    holds the value of the last stage reached (players), or is empty. *)
Record HandTrace := mkHandTrace {
  tr_outcome : Outcome;
  tr_before : MatchState;
  tr_after : MatchState;
  tr_community_cards : list card;
  tr_active_players_indices : list nat;
  tr_round1_active_indices : list nat;
  tr_round2_active_indices : list nat;   (* [round1_post_fold_indices] *)
  tr_pot : Q;                            (* [pot] when the turn ends *)
  tr_players_round0 : list PlayerState;  (* after the buy-ins *)
  tr_players_afford : list PlayerState;  (* after the round-1 eliminations *)
  tr_players_round1 : list PlayerState;  (* after the bets of round 1 *)
  tr_players_round2 : list PlayerState;  (* after the bets of round 2 *)
  tr_players_round3 : list PlayerState;  (* after the bets of round 3 *)
  tr_players_showdown : list PlayerState; (* after the hands are scored *)
  tr_players_paid : list PlayerState;    (* after the payouts *)
  tr_winners : list nat;
  tr_paid : list (nat * Q);              (* seat, payout *)
  tr_total_win : Q;
  tr_remaining_pot : Q;
  tr_shares : list (nat * Q)             (* seat, redistributed share *)
}.

Definition stacks_of (players : list PlayerState) : list Q := map stack players.

Definition zeros (players : list PlayerState) : list Q :=
  map (fun _ => 0) players.

(** The loops of one turn, each from the state the one before left. *)

Definition afford_loop (r0 : Round0) : Afford :=
  fold_left afford_step (r0_active_players_indices r0)
    (mkAfford (r0_players r0) (r0_pot r0) []).

Definition round1_loop (ms : MatchState) (community_cards : list card)
  (r0 : Round0) (af : Afford) : Betting :=
  let visible_community := py_slice community_cards 0 3 in
  let current_stacks := stacks_of (r0_players r0) in
  let round1_active_indices := af_round1_active_indices af in
  fold_left
    (round1_step visible_community current_stacks
       (List.length round1_active_indices))
    round1_active_indices
    (mkBetting (af_players af) (af_pot af) (zeros (players ms))).

(** [round1_post_fold_indices] *)
Definition post_fold (af : Afford) (b1 : Betting) : list nat :=
  filter (fun i => negb (has_folded (player_at (b_players b1) i)))
    (af_round1_active_indices af).

Definition round2_loop (ms : MatchState) (community_cards : list card)
  (r0 : Round0) (b1 : Betting) (round2_active_indices : list nat) : Betting :=
  let visible_community := py_slice community_cards 0 4 in
  let current_stacks := stacks_of (r0_players r0) in
  let r1_bets := b_bets b1 in
  let num_r2_players := List.length round2_active_indices in
  fold_left
    (round2_step visible_community r1_bets current_stacks num_r2_players)
    round2_active_indices
    (mkBetting (b_players b1) (b_pot b1) (zeros (players ms))).

Definition round3_loop (community_cards : list card) (r0 : Round0)
  (b1 b2 : Betting) (round2_active_indices : list nat) : Betting :=
  let visible_community := community_cards in
  let current_stacks := stacks_of (r0_players r0) in
  let r1_bets := b_bets b1 in
  let r2_bets := b_bets b2 in
  let num_r3_players := List.length round2_active_indices in
  fold_left
    (round3_step visible_community r1_bets r2_bets current_stacks
       num_r3_players)
    round2_active_indices b2.

Definition showdown_loop (community_cards : list card) (r0 : Round0)
  (b3 : Betting) : Showdown :=
  fold_left (showdown_step community_cards) (r0_active_players_indices r0)
    (mkShowdown (b_players b3) 7463 [] []).

Definition payout_loop (ms : MatchState) (pot : Q) (sd : Showdown) : Payout :=
  let winners := sd_winners sd in
  let num_winners := List.length winners in
  let winning_pot_share_max := pot / Qnat num_winners in
  fold_left (payout_step num_winners winning_pot_share_max) winners
    (mkPayout (sd_players sd) (no_of_wins ms) 0 []).

(** The ways a turn ends. *)

(** [break] *)
Definition halt (ms : MatchState) (community_cards : list card) (r0 : Round0)
  : MatchState * HandTrace :=
  let after :=
    mkMatchState (r0_players r0) (match_history ms) (no_of_wins ms) in
  (after,
   mkHandTrace Halt ms after community_cards
     (r0_active_players_indices r0) [] []
     (r0_pot r0) (r0_players r0) (r0_players r0) (r0_players r0)
     (r0_players r0) (r0_players r0) (r0_players r0) (r0_players r0)
     [] [] 0 0 []).

(** [if len(round1_post_fold_indices) == 1:] *)
Definition early_win (ms : MatchState) (community_cards : list card)
  (r0 : Round0) (af : Afford) (b1 : Betting)
  (round1_post_fold_indices : list nat) : MatchState * HandTrace :=
  let winner_idx := nth 0 round1_post_fold_indices O in
  let winner := player_at (b_players b1) winner_idx in
  let winner_bet := current_bet_r1 winner in
  let winning_cap := 4 * (BUY_IN + winner_bet) in
  let actual_win := Qmin winning_cap (b_pot b1) in
  let players1 :=
    set_player (b_players b1) winner_idx
      (with_stack winner (stack winner + actual_win)) in
  let wins := list_update (no_of_wins ms) (index winner) (fun x => x + 1) in
  let round_history :=
    truncated_history players1 community_cards (b_pot b1) in
  let after :=
    mkMatchState players1 (match_history ms ++ [round_history]) wins in
  (after,
   mkHandTrace EarlyWin ms after community_cards
     (r0_active_players_indices r0) (af_round1_active_indices af)
     round1_post_fold_indices (b_pot b1)
     (r0_players r0) (af_players af) (b_players b1) (b_players b1)
     (b_players b1) (b_players b1) players1 [winner_idx]
     [(winner_idx, actual_win)] actual_win (b_pot b1 - actual_win) []).

(** [if num_r2_players == 0:] *)
Definition no_round2 (ms : MatchState) (community_cards : list card)
  (r0 : Round0) (af : Afford) (b1 : Betting)
  (round2_active_indices : list nat) : MatchState * HandTrace :=
  let round_history :=
    truncated_history (b_players b1) community_cards (b_pot b1) in
  let after :=
    mkMatchState (b_players b1) (match_history ms ++ [round_history])
      (no_of_wins ms) in
  (after,
   mkHandTrace NoRound2 ms after community_cards
     (r0_active_players_indices r0) (af_round1_active_indices af)
     round2_active_indices (b_pot b1)
     (r0_players r0) (af_players af) (b_players b1) (b_players b1)
     (b_players b1) (b_players b1) (b_players b1) [] [] 0 (b_pot b1) []).

(** Steps 2 and 3 of the showdown: the payouts and the redistribution. *)
Definition allocate (ms : MatchState) (community_cards : list card)
  (r0 : Round0) (af : Afford) (b1 b2 b3 : Betting) (sd : Showdown)
  (round2_active_indices : list nat) : MatchState * HandTrace :=
  let pot := b_pot b3 in
  let winners := sd_winners sd in
  let pay := payout_loop ms pot sd in
  let total_win := pay_total_win pay in
  let remaining_pot := pot - total_win in
  let trace after shares :=
    mkHandTrace ShowdownPaid ms after community_cards
      (r0_active_players_indices r0) (af_round1_active_indices af)
      round2_active_indices pot
      (r0_players r0) (af_players af) (b_players b1) (b_players b2)
      (b_players b3) (sd_players sd) (pay_players pay) winners
      (pay_paid pay) total_win remaining_pot shares in
  let round_history :=
    mkRoundHistory (sd_round_history sd) community_cards pot in
  let history := match_history ms ++ [round_history] in
  if Qltb 0 remaining_pot then
    let recipients := round2_active_indices in
    match recipients with
    | [] =>
        let after :=
          mkMatchState (pay_players pay) history (pay_no_of_wins pay) in
        (after, trace after [])
    | _ :: _ =>
        let share := remaining_pot / Qnat (List.length recipients) in
        let players2 :=
          fold_left (share_step share) recipients (pay_players pay) in
        let after := mkMatchState players2 history (pay_no_of_wins pay) in
        (after, trace after (map (fun i => (i, share)) recipients))
    end
  else
    let after := mkMatchState (pay_players pay) history (pay_no_of_wins pay) in
    (after, trace after []).

(** [if not winners: continue] *)
Definition no_winner (ms : MatchState) (community_cards : list card)
  (r0 : Round0) (af : Afford) (b1 b2 b3 : Betting) (sd : Showdown)
  (round2_active_indices : list nat) : MatchState * HandTrace :=
  let after :=
    mkMatchState (sd_players sd) (match_history ms) (no_of_wins ms) in
  (after,
   mkHandTrace NoWinner ms after community_cards
     (r0_active_players_indices r0) (af_round1_active_indices af)
     round2_active_indices (b_pot b3)
     (r0_players r0) (af_players af) (b_players b1) (b_players b2)
     (b_players b3) (sd_players sd) (sd_players sd) [] [] 0 (b_pot b3) []).

(** The body of the game loop. *)
Definition play_hand (ms : MatchState) : option (MatchState * HandTrace) :=
  (* ROUND 0 *)
  let deck := shuffle (deck_draws env game_num) create_deck in
  match buy_in_loop (players ms) 0 deck with
  | None => None
  | Some r0 =>
  match pop_n 5 (r0_deck r0) with
  | None => None
  | Some (community_cards, _) =>
  if (List.length (r0_active_players_indices r0) <? 2)%nat then
    Some (halt ms community_cards r0)
  else
  (* ROUND 1 *)
  let af := afford_loop r0 in
  let b1 := round1_loop ms community_cards r0 af in
  let round1_post_fold_indices := post_fold af b1 in
  if (List.length round1_post_fold_indices =? 1)%nat then
    Some (early_win ms community_cards r0 af b1 round1_post_fold_indices)
  else
  (* ROUND 2 *)
  let round2_active_indices := round1_post_fold_indices in
  if (List.length round2_active_indices =? 0)%nat then
    Some (no_round2 ms community_cards r0 af b1 round2_active_indices)
  else
  let b2 := round2_loop ms community_cards r0 b1 round2_active_indices in
  (* ROUND 3 *)
  let b3 := round3_loop community_cards r0 b1 b2 round2_active_indices in
  (* SHOWDOWN *)
  let sd := showdown_loop community_cards r0 b3 in
  match sd_winners sd with
  | [] =>
      Some (no_winner ms community_cards r0 af b1 b2 b3 sd
              round2_active_indices)
  | _ :: _ =>
      Some (allocate ms community_cards r0 af b1 b2 b3 sd
              round2_active_indices)
  end
  end
  end.

End Hand.

(** *** The match *)

Section Match.

Variable treys_evaluate : list card -> option Z.
Variable env : Env.

(** [players = [PlayerState(name, strat, i) for i, (name, strat) in ...]] *)
Definition initial_players : list PlayerState :=
  map (fun '(i, nm) => new_player nm i)
    (combine (seq 0 (List.length PLAYER_NAMES)) PLAYER_NAMES).

Definition initial_match : MatchState :=
  mkMatchState initial_players [] (map (fun _ => 0) initial_players).

(** [for game_num in ...]: the state of the match after the turns for
    [games], and the traces of the turns that ran ([break] ends the loop). *)
Fixpoint game_loop (games : list nat) (ms : MatchState)
  : option (MatchState * list HandTrace) :=
  match games with
  | [] => Some (ms, [])
  | game_num :: rest =>
      match play_hand treys_evaluate env game_num ms with
      | None => None
      | Some (ms', tr) =>
          match tr_outcome tr with
          | Halt => Some (ms', [tr])
          | _ =>
              match game_loop rest ms' with
              | None => None
              | Some (ms'', trs) => Some (ms'', tr :: trs)
              end
          end
      end
  end.

Definition play_match : option (MatchState * list HandTrace) :=
  game_loop (seq 1 NUM_GAMES) initial_match.

End Match.

End Main.

(** ** A concrete evaluator, to run the program on concrete inputs

    [treys] is not part of the repository.  To run the program,
    [category_evaluate] stands in for it: it finds the category of a
    five-card hand as poker defines it and returns the worst score [treys]
    gives in that category, so it orders two hands of different categories as
    [treys] does (lower is better) and stays within 1..7462.  Fewer or more
    than five cards, or a string that is not a card, raise in [treys]:
    [None].  The runs below deal straight flushes against flushes, so the
    winner is the same under [treys]. *)

Module Category.

Definition rank_of (c : card) : option nat :=
  match c with
  | String r (String _ EmptyString) =>
      if String.eqb (String r EmptyString) "2" then Some 2%nat
      else if String.eqb (String r EmptyString) "3" then Some 3%nat
      else if String.eqb (String r EmptyString) "4" then Some 4%nat
      else if String.eqb (String r EmptyString) "5" then Some 5%nat
      else if String.eqb (String r EmptyString) "6" then Some 6%nat
      else if String.eqb (String r EmptyString) "7" then Some 7%nat
      else if String.eqb (String r EmptyString) "8" then Some 8%nat
      else if String.eqb (String r EmptyString) "9" then Some 9%nat
      else if String.eqb (String r EmptyString) "T" then Some 10%nat
      else if String.eqb (String r EmptyString) "J" then Some 11%nat
      else if String.eqb (String r EmptyString) "Q" then Some 12%nat
      else if String.eqb (String r EmptyString) "K" then Some 13%nat
      else if String.eqb (String r EmptyString) "A" then Some 14%nat
      else None
  | _ => None
  end.

Definition suit_of (c : card) : option string :=
  match c with
  | String _ (String s EmptyString) =>
      if mem (String s EmptyString) EngineCore.SUITS
      then Some (String s EmptyString) else None
  | _ => None
  end.

Fixpoint all_some {A : Type} (l : list (option A)) : option (list A) :=
  match l with
  | [] => Some []
  | None :: _ => None
  | Some x :: r =>
      match all_some r with None => None | Some xs => Some (x :: xs) end
  end.

(** The sum over the cards of the number of cards of the same rank: 5 when
    the ranks differ, 7 for a pair, 9 for two pairs, 11 for three of a kind,
    13 for a full house, 17 for four of a kind. *)
Definition rank_pattern (ranks : list nat) : nat :=
  list_sum (map (fun r => count_occ Nat.eq_dec ranks r) ranks).

Definition is_flush (suits : list string) : bool :=
  match suits with
  | [] => false
  | s :: r => forallb (String.eqb s) r
  end.

(** Five different ranks in a row; the ace also counts below the 2. *)
Definition is_straight (ranks : list nat) : bool :=
  let hi := list_max ranks in
  let lo := fold_right Nat.min 14%nat ranks in
  (Nat.eqb (rank_pattern ranks) 5)
  && (Nat.eqb (hi - lo) 4
      || forallb (fun r => existsb (Nat.eqb r) ranks) [14; 2; 3; 4; 5]%nat).

Definition category_evaluate (combo : list card) : option Z :=
  if negb (Nat.eqb (List.length combo) 5) then None else
  match all_some (map rank_of combo), all_some (map suit_of combo) with
  | Some ranks, Some suits =>
      let pat := rank_pattern ranks in
      Some
        (if Nat.eqb pat 17 then 166
         else if Nat.eqb pat 13 then 322
         else if Nat.eqb pat 11 then 2467
         else if Nat.eqb pat 9 then 3325
         else if Nat.eqb pat 7 then 6185
         else if is_flush suits && is_straight ranks then 10
         else if is_flush suits then 1599
         else if is_straight ranks then 1609
         else 7462)%Z
  | _, _ => None
  end.

End Category.

(** ** The loop of the estimator, trial by trial

    The body of [calculate_multiplayer_equity], cut at the places where the
    program cuts it: the test that skips a trial, the board and the opponents
    of a trial, the trials that ran.  The definitions call the functions of
    the program; they serve the proofs about the estimator. *)

Module EquityLoop.

Import EngineCore.

Section Estimator.

Variable treys_evaluate : list card -> option Z.

(** What one trial contributes: 1 when the hero's score is strictly lower
    than the best opponent score, 0.5 when the two are equal, 0 otherwise. *)
Definition contribution (hero_score best_opponent_score : Z) : Q :=
  if (hero_score <? best_opponent_score)%Z then 1
  else if (hero_score =? best_opponent_score)%Z then 1 # 2
  else 0.

(** The pool can supply the missing board cards and two cards for every
    opponent. *)
Definition can_deal (current_board pool : list card) (num_opponents : Z)
  : bool :=
  (5 - Z.of_nat (List.length current_board) + num_opponents * 2
     <=? Z.of_nat (List.length pool))%Z.

(** The board of a trial: the known cards, then the first cards of the pool. *)
Definition trial_board (current_board pool : list card) : list card :=
  current_board
    ++ py_slice pool 0 (5 - Z.of_nat (List.length current_board)).

(** The best opponent score of a trial; the sentinel when nobody opposes. *)
Definition best_opponent (current_board pool : list card)
  (num_opponents : Z) : Z :=
  match
    map (fun h => evaluate_best_hand treys_evaluate
                    (h ++ trial_board current_board pool))
      (deal_opponents pool (5 - Z.of_nat (List.length current_board))
         (Z.to_nat num_opponents))
  with
  | [] => SENTINEL
  | s :: r => list_min SENTINEL (s :: r)
  end.

(** A requested trial: skipped ([None]) when it cannot be dealt, otherwise
    its contribution. *)
Definition trial (hero_hand current_board pool : list card)
  (num_opponents : Z) : option Q :=
  if can_deal current_board pool num_opponents then
    Some (contribution
            (evaluate_best_hand treys_evaluate
               (hero_hand ++ trial_board current_board pool))
            (best_opponent current_board pool num_opponents))
  else None.

(** The pools of the requested trials, each a reshuffle of the one before. *)
Fixpoint pools (draws : nat -> list nat) (requested i : nat)
  (pool : list card) : list (list card) :=
  match requested with
  | O => []
  | S n =>
      let pool' := shuffle (draws i) pool in
      pool' :: pools draws n (S i) pool'
  end.

(** The contributions of the trials that ran. *)
Fixpoint ran (outcomes : list (option Q)) : list Q :=
  match outcomes with
  | [] => []
  | Some c :: r => c :: ran r
  | None :: r => ran r
  end.

Definition trial_value (o : option Q) : Q :=
  match o with Some c => c | None => 0 end.

(** The estimate: the sum of the contributions over the number of trials
    that ran, and 0 when none ran. *)
Definition estimate (draws : nat -> list nat)
  (hero_hand current_board : list card) (num_players iterations : Z) : Q :=
  let pool :=
    filter (fun c => negb (mem c (hero_hand ++ current_board)))
      get_clean_deck in
  let outcomes :=
    map (fun p => trial hero_hand current_board p (num_players - 1))
      (pools draws (Z.to_nat iterations) O pool) in
  let contributions := ran outcomes in
  if Nat.eqb (List.length contributions) 0 then 0
  else sumQ contributions / Qnat (List.length contributions).

End Estimator.

End EquityLoop.

(** ** The equity estimator as the specification words it

    Nothing here calls the program: the deck is written out card by card, a
    card's place in the pool is found with [firstn] and [skipn], the best
    five cards of seven are the lowest score over every sublist of five
    cards.  Only the shuffle of the random generator is shared with the
    program, as the source of the random trials. *)

Module EquitySpec.

Section Estimator.

(** The external hand-ranking oracle: the score of five cards, lower is
    better; [None] when it ranks nothing. *)
Variable oracle : list card -> option Z.

(** The sentinel for "no hand", worse than every score of the oracle. *)
Definition NO_HAND : Z := 7463.

(** The 52 cards. *)
Definition deck52 : list card :=
  ["2h"; "2d"; "2s"; "2c"; "3h"; "3d"; "3s"; "3c"; "4h"; "4d"; "4s"; "4c";
   "5h"; "5d"; "5s"; "5c"; "6h"; "6d"; "6s"; "6c"; "7h"; "7d"; "7s"; "7c";
   "8h"; "8d"; "8s"; "8c"; "9h"; "9d"; "9s"; "9c"; "Th"; "Td"; "Ts"; "Tc";
   "Jh"; "Jd"; "Js"; "Jc"; "Qh"; "Qd"; "Qs"; "Qc"; "Kh"; "Kd"; "Ks"; "Kc";
   "Ah"; "Ad"; "As"; "Ac"].

(** The pool of the cards not already known. *)
Definition unknown_pool (hero_hand current_board : list card) : list card :=
  filter
    (fun c => negb (existsb (String.eqb c) (hero_hand ++ current_board)))
    deck52.

(** Every way to keep some of the cards, in their order. *)
Fixpoint sublists {A : Type} (l : list A) : list (list A) :=
  match l with
  | [] => [[]]
  | x :: xs => map (cons x) (sublists xs) ++ sublists xs
  end.

(** The hands of five cards among the given ones. *)
Definition five_of (cards : list card) : list (list card) :=
  filter (fun c => Nat.eqb (List.length c) 5) (sublists cards).

(** The scores of the hands the oracle ranks. *)
Fixpoint scores (hands : list (list card)) : list Z :=
  match hands with
  | [] => []
  | h :: r =>
      match oracle h with Some s => s :: scores r | None => scores r end
  end.

(** The lowest of some scores; the sentinel when there is none. *)
Definition lowest (l : list Z) : Z := fold_right Z.min NO_HAND l.

(** The score of the best five cards among the given ones. *)
Definition best_score (cards : list card) : Z := lowest (scores (five_of cards)).

(** The community cards still to draw to reach five. *)
Definition missing (current_board : list card) : nat :=
  (5 - List.length current_board)%nat.

(** The board of a trial: the known cards, then the cards drawn from the
    front of the pool. *)
Definition trial_board (current_board pool : list card) : list card :=
  current_board ++ firstn (missing current_board) pool.

(** The two private cards of opponent number [j]: the next two cards of the
    pool after the board cards and the cards of the opponents before, so that
    no card is dealt twice. *)
Definition opponent_hand (current_board pool : list card) (j : nat)
  : list card :=
  firstn 2 (skipn (missing current_board + 2 * j) pool).

Definition opponent_hands (current_board pool : list card)
  (num_opponents : nat) : list (list card) :=
  map (opponent_hand current_board pool) (seq 0 num_opponents).

(** The pool can supply the missing board cards and two cards for every
    opponent. *)
Definition can_deal (current_board pool : list card) (num_opponents : nat)
  : bool :=
  (missing current_board + 2 * num_opponents <=? List.length pool)%nat.

(** The best opponent score: the lowest of the opponents' best scores. *)
Definition best_opponent_score (current_board pool : list card)
  (num_opponents : nat) : Z :=
  lowest
    (map (fun h => best_score (h ++ trial_board current_board pool))
       (opponent_hands current_board pool num_opponents)).

(** What one trial contributes: 1 when the hero's score is strictly lower
    than the best opponent score, 0.5 when tied with it, 0 otherwise. *)
Definition contribution (hero_score opponent_score : Z) : Q :=
  if (hero_score <? opponent_score)%Z then 1
  else if (hero_score =? opponent_score)%Z then 1 # 2
  else 0.

(** A requested trial: skipped ([None]) when it cannot be dealt from the
    pool, otherwise its contribution. *)
Definition trial (hero_hand current_board pool : list card)
  (num_opponents : nat) : option Q :=
  if can_deal current_board pool num_opponents then
    Some (contribution
            (best_score (hero_hand ++ trial_board current_board pool))
            (best_opponent_score current_board pool num_opponents))
  else None.

(** The pools of the requested trials: trial [i] shuffles the pool with the
    draws [draws i] of the generator. *)
Fixpoint pools (draws : nat -> list nat) (requested i : nat)
  (pool : list card) : list (list card) :=
  match requested with
  | O => []
  | S n =>
      let shuffled := shuffle (draws i) pool in
      shuffled :: pools draws n (S i) shuffled
  end.

(** The contributions of the trials actually run. *)
Fixpoint trials_run (outcomes : list (option Q)) : list Q :=
  match outcomes with
  | [] => []
  | Some c :: r => c :: trials_run r
  | None :: r => trials_run r
  end.

(** The estimate for a hero against [num_opponents] opponents over
    [requested] trials: the sum of the trial contributions over the number of
    trials actually run; 0 when no trial ran, and so when none was
    requested. *)
Definition estimate (draws : nat -> list nat)
  (hero_hand current_board : list card) (num_opponents requested : nat) : Q :=
  let contributions :=
    trials_run
      (map (fun pool => trial hero_hand current_board pool num_opponents)
         (pools draws requested O (unknown_pool hero_hand current_board))) in
  match contributions with
  | [] => 0
  | _ :: _ => sumQ contributions / Qnat (List.length contributions)
  end.

End Estimator.

End EquitySpec.

(** ** Concrete runs of the match *)

Module Scenario.

Import EngineCore Main.

(** The draws that leave the deck of [create_deck] as it is. *)
Definition draws_identity : list nat := [].

(** The draws that exchange "5c", "6c" with "Kc", "Ac": seat 0 is then dealt
    "6c", "5c" and makes a straight flush with the flop "4c", "3c", "2c". *)
Definition draws_seat0 : list nat :=
  repeat O 42 ++ [8; 8; 2; 2; 2; 2; 2; 2; 0; 0]%nat.

Definition play (v : Q) : string * Q := ("play", v).
Definition fold : string * Q := ("fold", 0).

(** Seats 0 and 4 bet the maximum and seat 0 holds the best hand for six
    games, the other seats fold; in game 7 seat 4 bets 375 on the river and
    is left with 300; in game 8 seat 4 can bet only 200 in round 1, and
    nothing after. *)
Definition short_stack_env : Env :=
  mkEnv
    (fun g => draws_seat0)
    (fun _ _ _ _ => [])
    (fun g i _ _ _ _ _ =>
       if (g <=? 8)%nat then
         if (Nat.eqb i 0 || Nat.eqb i 4) then play 300 else fold
       else fold)
    (fun g i _ _ _ _ _ _ => 450)
    (fun g i _ _ _ _ _ _ _ =>
       if (Nat.eqb g 7 && Nat.eqb i 4) then 375 else (1125 # 2)).

(** Seats 0 and 4 bet the maximum and seat 0 holds the best hand for seven
    games, the other seats fold: seat 4 is left with 112.5.  In game 8 the
    deck is the one of [create_deck]: every seat buys in, seat 4 cannot afford
    round 1, the other four bet, and seat 4 holds the best hand.  From game 9
    on everybody folds. *)
Definition eliminated_winner_env : Env :=
  mkEnv
    (fun g => if (g <=? 7)%nat then draws_seat0 else draws_identity)
    (fun _ _ _ _ => [])
    (fun g i _ _ _ _ _ =>
       if (g <=? 7)%nat then
         if (Nat.eqb i 0 || Nat.eqb i 4) then play 300 else fold
       else if (Nat.eqb g 8) then play 300
       else fold)
    (fun g i _ _ _ _ _ _ => 450)
    (fun g i _ _ _ _ _ _ _ => (1125 # 2)).

(** Every seat bets the maximum for eight games and seat 4 holds the best
    hand; in game 9 seats 0 to 3 bet 300, 220 and 165 and are left with 175
    each; in game 10 they cannot afford round 1 and seat 4 alone bets 100. *)
Definition capped_early_win_env : Env :=
  mkEnv
    (fun g => draws_identity)
    (fun _ _ _ _ => [])
    (fun g i _ _ _ _ _ => if (g <=? 9)%nat then play 300 else play 100)
    (fun g i _ _ _ _ _ _ =>
       if (Nat.eqb g 9 && negb (Nat.eqb i 4)) then 220 else 450)
    (fun g i _ _ _ _ _ _ _ =>
       if (Nat.eqb g 9 && negb (Nat.eqb i 4)) then 165 else (1125 # 2)).

(** Everybody folds in every game. *)
Definition all_fold_env : Env :=
  mkEnv (fun g => draws_identity) (fun _ _ _ _ => [])
    (fun g i _ _ _ _ _ => fold)
    (fun g i _ _ _ _ _ _ => 0)
    (fun g i _ _ _ _ _ _ _ => 0).

(** The trace of the [n]-th turn of the game loop (from 1). *)
Definition hand (n : nat) (r : option (MatchState * list HandTrace))
  : option HandTrace :=
  match r with
  | Some (_, trs) => nth_error trs (n - 1)
  | None => None
  end.

Definition final_players (r : option (MatchState * list HandTrace))
  : list PlayerState :=
  match r with
  | Some (ms, _) => players ms
  | None => []
  end.

End Scenario.

(** ** Invariants of the match, and readings of a trace *)

Module Invariant.

Import EngineCore Main.

(** Stack and bets are not negative. *)
Definition player_ok (p : PlayerState) : Prop :=
  0 <= stack p /\ 0 <= current_bet_r1 p /\ 0 <= current_bet_r2 p
  /\ 0 <= final_round_bet p.

(** [players[i].index == i] *)
Definition well_indexed (ps : list PlayerState) : Prop :=
  map index ps = seq 0 (List.length ps).

(** Every index of the list is a seat of a table of [n] players. *)
Definition seats (n : nat) (l : list nat) : Prop :=
  NoDup l /\ Forall (fun i => (i < n)%nat) l.

Definition wf_match (ms : MatchState) : Prop :=
  well_indexed (players ms)
  /\ Forall player_ok (players ms)
  /\ List.length (no_of_wins ms) = List.length (players ms)
  /\ (2 * List.length (players ms) + 5 <= 52)%nat.

Definition stacks_nonneg (ps : list PlayerState) : Prop :=
  Forall (fun p => 0 <= stack p) ps.

(** The states of the players a turn of the game loop goes through. *)
Definition snapshots (tr : HandTrace) : list (list PlayerState) :=
  [ players (tr_before tr); tr_players_round0 tr; tr_players_afford tr;
    tr_players_round1 tr; tr_players_round2 tr; tr_players_round3 tr;
    tr_players_showdown tr; tr_players_paid tr; players (tr_after tr) ].

(** The amounts a log of credits (payouts, shares) gives to a seat. *)
Definition credited (i : nat) (log : list (nat * Q)) : Q :=
  sumQ (map snd (filter (fun x => Nat.eqb (fst x) i) log)).

Definition amounts (log : list (nat * Q)) : list Q := map snd log.

(** [winning_cap] of the showdown. *)
Definition winning_cap (p : PlayerState) : Q :=
  4 * (BUY_IN + current_bet_r1 p + current_bet_r2 p + final_round_bet p).

(** The bets the program applies, from the value a strategy returns. *)
Definition r1_price (val : Q) (p : PlayerState) : Q :=
  Qmin (Qmax 100 (Qmin 300 val)) (stack p).

Definition r2_price (val : Q) (p : PlayerState) : Q :=
  Qmin (Qmax (current_bet_r1 p * (1 # 2))
          (Qmin (current_bet_r1 p * (3 # 2)) val)) (stack p).

Definition r3_price (val : Q) (p : PlayerState) : Q :=
  Qmin (Qmax (current_bet_r2 p * (3 # 4))
          (Qmin (current_bet_r2 p * (5 # 4)) val)) (stack p).

(** How one turn of each loop changes the player it handles. *)
Definition funded (p : PlayerState) : bool :=
  negb (is_lost_match p) && negb (Qltb (stack p) BUY_IN).

Definition bought_in (p p' : PlayerState) : Prop :=
  index p' = index p
  /\ current_bet_r1 p' = 0 /\ current_bet_r2 p' = 0 /\ final_round_bet p' = 0
  /\ if is_lost_match p then stack p' = stack p /\ is_lost_match p' = true
     else if Qltb (stack p) BUY_IN then stack p' = 0 /\ is_lost_match p' = true
     else stack p' = stack p - BUY_IN /\ is_lost_match p' = false.

Definition afforded (p p' : PlayerState) : Prop :=
  p' = p \/ p' = eliminate p.

Definition acted_r1 (p p' : PlayerState) : Prop :=
  (exists wp, p' = log_equity (with_folded p) wp)
  \/ (exists val wp,
        p' = log_equity
               (with_stack (with_bet_r1 p (r1_price val p))
                  (stack p - r1_price val p)) wp).

Definition acted_r2 (p p' : PlayerState) : Prop :=
  exists val wp,
    p' = log_equity
           (with_stack (with_bet_r2 p (r2_price val p))
              (stack p - r2_price val p)) wp.

Definition acted_r3 (p p' : PlayerState) : Prop :=
  exists val wp,
    p' = log_equity
           (with_stack (with_final_bet p (r3_price val p))
              (stack p - r3_price val p)) wp.

Definition scored (p p' : PlayerState) : Prop :=
  p' = p \/ exists s, p' = with_hand_score p s.

Definition paid (share_max : Q) (p p' : PlayerState) : Prop :=
  p' = with_stack p (stack p + Qmin (winning_cap p) share_max).

Definition shared (share : Q) (p p' : PlayerState) : Prop :=
  p' = with_stack p (stack p + share).

(** The seats of [l] went from [ps] to [ps'] by [R], the others did not
    change. *)
Definition moved (R : PlayerState -> PlayerState -> Prop) (l : list nat)
  (ps ps' : list PlayerState) : Prop :=
  (forall i, In i l -> R (player_at ps i) (player_at ps' i))
  /\ (forall i, ~ In i l -> player_at ps' i = player_at ps i).

(** A state of the table during a turn that started from [ms]. *)
Definition table_ok (ms : MatchState) (ps : list PlayerState) : Prop :=
  map index ps = map index (players ms) /\ Forall player_ok ps.

Section Description.

Variables (ms ms' : MatchState) (tr : HandTrace).

Let n := List.length (players ms).
Let active := tr_active_players_indices tr.
Let round1_active := tr_round1_active_indices tr.
Let round2_active := tr_round2_active_indices tr.
Let pot := tr_pot tr.

Definition halt_ok : Prop :=
  (List.length active < 2)%nat
  /\ round1_active = [] /\ round2_active = []
  /\ tr_paid tr = [] /\ tr_shares tr = []
  /\ ms' = mkMatchState (tr_players_round0 tr) (match_history ms)
             (no_of_wins ms).

Definition round1_ok : Prop :=
  (2 <= List.length active)%nat
  /\ moved afforded active (tr_players_round0 tr) (tr_players_afford tr)
  /\ seats n round1_active
  /\ incl round1_active active
  /\ moved acted_r1 round1_active (tr_players_afford tr)
       (tr_players_round1 tr)
  /\ round2_active
     = filter
         (fun i => negb (has_folded (player_at (tr_players_round1 tr) i)))
         round1_active.

Definition early_win_ok : Prop :=
  exists w,
    round2_active = [w]
    /\ tr_winners tr = [w]
    /\ tr_paid tr
       = [(w, Qmin (4 * (BUY_IN
                         + current_bet_r1 (player_at (tr_players_round1 tr) w)))
                pot)]
    /\ tr_shares tr = []
    /\ tr_players_paid tr = players ms'
    /\ moved (shared (Qmin (4 * (BUY_IN
                         + current_bet_r1 (player_at (tr_players_round1 tr) w)))
                pot))
         [w] (tr_players_round1 tr) (players ms')
    /\ no_of_wins ms'
       = list_update (no_of_wins ms)
           (index (player_at (tr_players_round1 tr) w)) (fun x => x + 1)
    /\ match_history ms'
       = match_history ms
         ++ [truncated_history (players ms') (tr_community_cards tr) pot].

Definition no_round2_ok : Prop :=
  round2_active = []
  /\ tr_paid tr = [] /\ tr_shares tr = []
  /\ players ms' = tr_players_round1 tr
  /\ no_of_wins ms' = no_of_wins ms
  /\ match_history ms'
     = match_history ms
       ++ [truncated_history (players ms') (tr_community_cards tr) pot].

Definition betting_ok : Prop :=
  (2 <= List.length round2_active)%nat
  /\ seats n round2_active
  /\ moved acted_r2 round2_active (tr_players_round1 tr)
       (tr_players_round2 tr)
  /\ moved acted_r3 round2_active (tr_players_round2 tr)
       (tr_players_round3 tr)
  /\ moved scored active (tr_players_round3 tr) (tr_players_showdown tr).

Definition no_winner_ok : Prop :=
  tr_winners tr = []
  /\ tr_paid tr = [] /\ tr_shares tr = []
  /\ ms' = mkMatchState (tr_players_showdown tr) (match_history ms)
             (no_of_wins ms).

Definition showdown_ok : Prop :=
  tr_winners tr <> []
  /\ seats n (tr_winners tr)
  /\ incl (tr_winners tr) active
  /\ (let share_max := pot / Qnat (List.length (tr_winners tr)) in
      tr_paid tr
      = map (fun w =>
               (w, Qmin (winning_cap (player_at (tr_players_showdown tr) w))
                     share_max))
          (tr_winners tr)
      /\ moved (paid share_max) (tr_winners tr) (tr_players_showdown tr)
           (tr_players_paid tr))
  /\ tr_total_win tr == sumQ (amounts (tr_paid tr))
  /\ tr_remaining_pot tr = pot - tr_total_win tr
  /\ (let share :=
        tr_remaining_pot tr / Qnat (List.length round2_active) in
      if Qltb 0 (tr_remaining_pot tr) then
        tr_shares tr = map (fun i => (i, share)) round2_active
        /\ moved (shared share) round2_active (tr_players_paid tr)
             (players ms')
      else tr_shares tr = [] /\ players ms' = tr_players_paid tr)
  /\ exists h,
       match_history ms' = match_history ms ++ [h]
       /\ rh_community_cards h = tr_community_cards tr
       /\ rh_pot_final h = pot.

Definition outcome_ok : Prop :=
  match tr_outcome tr with
  | Halt => halt_ok
  | EarlyWin => round1_ok /\ early_win_ok
  | NoRound2 => round1_ok /\ no_round2_ok
  | NoWinner => round1_ok /\ betting_ok /\ no_winner_ok
  | ShowdownPaid => round1_ok /\ betting_ok /\ showdown_ok
  end.

(** What a turn of the game loop that starts from [ms] and ends in [ms']
    with the trace [tr] went through. *)
Record hand_ok : Prop := mk_hand_ok {
  ok_before : tr_before tr = ms;
  ok_after : tr_after tr = ms';
  ok_wf : wf_match ms';
  ok_tables : Forall (table_ok ms) (snapshots tr);
  ok_pot : 0 <= pot;
  ok_community : List.length (tr_community_cards tr) = 5%nat;
  ok_buy_in : Forall2 bought_in (players ms) (tr_players_round0 tr);
  ok_active : active = map index (filter funded (players ms));
  ok_seats : seats n active;
  ok_outcome : outcome_ok
}.

End Description.

(** The traces [trs] are those of consecutive turns of the game loop, from
    the state [ms] to the state [ms']; a turn that halts is the last one. *)
Fixpoint chained (ms : MatchState) (trs : list HandTrace) (ms' : MatchState)
  : Prop :=
  match trs with
  | [] => ms' = ms
  | tr :: rest =>
      tr_before tr = ms
      /\ match tr_outcome tr with
         | Halt => rest = [] /\ ms' = tr_after tr
         | _ => chained (tr_after tr) rest ms'
         end
  end.

(** A turn of the game loop, as the program runs it from a well-formed
    state. *)
Definition played (tr : HandTrace) : Prop :=
  wf_match (tr_before tr) /\ hand_ok (tr_before tr) (tr_after tr) tr.

End Invariant.

(** ** The claims on one turn of the game loop, as the specification states
    them *)

Module Stated.

Import EngineCore Main Invariant.

(** The payouts sum to at most the pot, and with the redistributed shares to
    the pot. *)
Definition pot_fully_allocated (tr : HandTrace) : Prop :=
  sumQ (amounts (tr_paid tr)) <= tr_pot tr
  /\ sumQ (amounts (tr_paid tr)) + sumQ (amounts (tr_shares tr)) == tr_pot tr.

(** The turn wrote a history entry: the hand is completed. *)
Definition completed (tr : HandTrace) : Prop :=
  List.length (match_history (tr_after tr))
  = S (List.length (match_history (tr_before tr))).

(** The bet seat [i] made in round 2 lies within 0.5 and 1.5 times its
    round-1 bet and within its stack before the round. *)
Definition round2_bet_in_bounds (tr : HandTrace) (i : nat) : Prop :=
  let bet1 := current_bet_r1 (player_at (tr_players_round1 tr) i) in
  let bet2 := current_bet_r2 (player_at (tr_players_round2 tr) i) in
  bet1 * (1 # 2) <= bet2 /\ bet2 <= bet1 * (3 # 2)
  /\ bet2 <= stack (player_at (tr_players_round1 tr) i).

(** Every winner of the showdown was active entering round 2. *)
Definition winners_reached_river (tr : HandTrace) : Prop :=
  incl (tr_winners tr) (tr_round2_active_indices tr).

(** An eliminated player holds no stack. *)
Definition eliminated_have_nothing (ps : list PlayerState) : Prop :=
  Forall (fun p => is_lost_match p = true -> stack p == 0) ps.

End Stated.

(** ** Further readings of a turn of the game loop *)

Module Turn.

Import EngineCore Main Invariant.

(** The chips on the table. *)
Definition chips (ps : list PlayerState) : Q := sumQ (stacks_of ps).

(** The part of its pot a turn gives to nobody. *)
Definition unallocated (tr : HandTrace) : Q :=
  tr_pot tr - sumQ (amounts (tr_paid tr)) - sumQ (amounts (tr_shares tr)).

(** What a turn adds to the entries of [no_of_wins], all seats together. *)
Definition win_credit (tr : HandTrace) : Q :=
  match tr_outcome tr with
  | EarlyWin | ShowdownPaid => 1
  | _ => 0
  end.

(** The cards a turn deals: the hole cards, then the community cards. *)
Definition cards_dealt (tr : HandTrace) : list card :=
  flat_map hole_cards (tr_players_round0 tr) ++ tr_community_cards tr.

(** What round 0 makes of a player: an eliminated player is reset, a player
    who cannot pay the buy-in is reset and eliminated, the others are reset,
    pay the buy-in and get two cards. *)
Definition settled (p p' : PlayerState) : Prop :=
  if is_lost_match p then p' = reset_round p
  else if Qltb (stack p) BUY_IN then p' = eliminate (reset_round p)
  else exists c1 c2,
         p' = with_hole_cards
                (with_stack (reset_round p) (stack p - BUY_IN)) [c1; c2].

Section Stages.

Variable treys_evaluate : list card -> option Z.
Variable env : Env.
Variable game_num : nat.

(** The trace of a turn holds the states its loops went through, as far as
    the turn went. *)
Definition stages (ms ms' : MatchState) (tr : HandTrace) (r0 : Round0)
  : Prop :=
  let community_cards := tr_community_cards tr in
  let af := afford_loop r0 in
  let b1 := round1_loop treys_evaluate env game_num ms community_cards r0 af in
  let post := post_fold af b1 in
  let b2 :=
    round2_loop treys_evaluate env game_num ms community_cards r0 b1 post in
  let b3 :=
    round3_loop treys_evaluate env game_num community_cards r0 b1 b2 post in
  let sd := showdown_loop treys_evaluate community_cards r0 b3 in
  let pay := payout_loop ms (b_pot b3) sd in
  let round1 :=
    tr_players_afford tr = af_players af
    /\ tr_round1_active_indices tr = af_round1_active_indices af
    /\ tr_players_round1 tr = b_players b1
    /\ tr_round2_active_indices tr = post in
  let showdown :=
    tr_players_round2 tr = b_players b2
    /\ tr_players_round3 tr = b_players b3
    /\ tr_pot tr = b_pot b3
    /\ tr_players_showdown tr = sd_players sd
    /\ tr_winners tr = sd_winners sd
    /\ tr_players_paid tr = pay_players pay
    /\ no_of_wins ms' = pay_no_of_wins pay in
  tr_before tr = ms /\ tr_after tr = ms'
  /\ tr_players_round0 tr = r0_players r0
  /\ tr_active_players_indices tr = r0_active_players_indices r0
  /\ match tr_outcome tr with
     | Halt => tr_pot tr = r0_pot r0
     | EarlyWin =>
         let winner_idx := nth 0 post O in
         let winner := player_at (b_players b1) winner_idx in
         let actual_win :=
           Qmin (4 * (BUY_IN + current_bet_r1 winner)) (b_pot b1) in
         round1 /\ tr_pot tr = b_pot b1
         /\ players ms'
            = set_player (b_players b1) winner_idx
                (with_stack winner (stack winner + actual_win))
     | NoRound2 => round1 /\ tr_pot tr = b_pot b1
     | NoWinner => round1 /\ showdown
     | ShowdownPaid =>
         let remaining_pot := b_pot b3 - pay_total_win pay in
         let share := remaining_pot / Qnat (List.length post) in
         round1 /\ showdown
         /\ tr_paid tr = pay_paid pay
         /\ tr_shares tr
            = (if Qltb 0 remaining_pot
               then map (fun i => (i, share)) post else [])
         /\ players ms'
            = (if Qltb 0 remaining_pot
               then fold_left (share_step share) post (pay_players pay)
               else pay_players pay)
         /\ match_history ms'
            = match_history ms
              ++ [mkRoundHistory (sd_round_history sd) community_cards
                    (b_pot b3)]
     end.

(** A turn of the game loop as the program runs it: from a well-formed
    state, with the deck of the turn dealt. *)
Definition turn (tr : HandTrace) : Prop :=
  wf_match (tr_before tr)
  /\ play_hand treys_evaluate env game_num (tr_before tr)
     = Some (tr_after tr, tr).

(** The score of the cards of a seat with the community cards.  The
    showdown computes it for the seats that did not fold, and only for
    them: a seat that folded is not evaluated, keeps a [hand_score] of 0 and
    is logged with the score 0. *)
Definition showdown_score (tr : HandTrace) (i : nat) : Z :=
  evaluate_hand treys_evaluate
    (hole_cards (player_at (tr_players_round3 tr) i)) (tr_community_cards tr).

(** The value logged for a seat in the history entry of a showdown: the
    fields of the player when the showdown starts, the stack before any
    payout. *)
Definition showdown_log (tr : HandTrace) (i : nat) : PlayerLog :=
  let p := player_at (tr_players_round3 tr) i in
  mkPlayerLog (hole_cards p)
    (if has_folded p then 0%Z else showdown_score tr i)
    (has_folded p) (final_round_bet p) (round_equities p) (stack p).

(** What the showdown makes of a player: a player who folded is left as it
    is, the others get the score of their cards in [hand_score]. *)
Definition showdown_scored (community_cards : list card)
  (p p' : PlayerState) : Prop :=
  p' = if has_folded p then p
       else with_hand_score p
              (evaluate_hand treys_evaluate (hole_cards p) community_cards).

End Stages.

(** The value logged for a player in the history entry of a turn that ends
    before round 2. *)
Definition truncated_log (p : PlayerState) : PlayerLog :=
  mkPlayerLog (hole_cards p) 7463 (has_folded p) 0 (round_equities p)
    (stack p).

(** A seat that bought in and did not fold. *)
Definition contender (tr : HandTrace) (i : nat) : Prop :=
  In i (tr_active_players_indices tr)
  /\ has_folded (player_at (tr_players_round3 tr) i) = false.

(** What the showdown loop knows after the seats [done]: the best score is
    at most the score of every seat handled that did not fold, and the
    winners are the seats handled that did not fold and have the best
    score; without a winner yet, every seat handled has folded. *)
Definition showdown_inv (folded : nat -> bool) (score : nat -> Z)
  (st : Showdown) (done : list nat) : Prop :=
  (sd_best_score st <= 7463)%Z
  /\ (forall i, In i done -> folded i = false ->
                (sd_best_score st <= score i)%Z)
  /\ (forall w, In w (sd_winners st)
                <-> In w done /\ folded w = false
                    /\ score w = sd_best_score st)
  /\ (sd_winners st = [] ->
      sd_best_score st = 7463%Z /\ forall i, In i done -> folded i = true).

(** The turns of a match, in order: the turn at position [k] is the one for
    game number [first + k]. *)
Fixpoint turns (treys_evaluate : list card -> option Z) (env : Env)
  (first : nat) (trs : list HandTrace) : Prop :=
  match trs with
  | [] => True
  | tr :: rest =>
      turn treys_evaluate env first tr
      /\ turns treys_evaluate env (S first) rest
  end.

End Turn.

(** ** dummy_strategies.py

    The five example strategy classes.  An object is its fields, a method
    takes the object first and returns the changed object next to its result
    when it assigns a field.  A result is [None] where Python raises
    ([KeyError], [IndexError]).  The thresholds and factors are the decimal
    fractions the source writes. *)

Module DummyStrategies.

Import EngineCore Main.

(** [bets[k]] on [r1_bets] or [r2_bets], dictionaries with the keys 0 to
    n-1: [None] is [KeyError]. *)
Definition bets_get (bets : list Q) (k : Z) : option Q :=
  if (k <? 0)%Z then None else nth_error bets (Z.to_nat k).

(** [l[i]] on a list: a negative index counts from the end, [None] is
    [IndexError]. *)
Definition list_get (l : list Q) (i : Z) : option Q :=
  let j := if (i <? 0)%Z then (i + Z.of_nat (List.length l))%Z else i in
  if (j <? 0)%Z then None else nth_error l (Z.to_nat j).

(** [sum(b > my_bet for b in bets.values())] *)
Definition count_higher (bets : list Q) (my_bet : Q) : nat :=
  List.length (filter (fun b => Qltb my_bet b) bets).

(** The first round of [DummyStrategy1], [DummyStrategy2] and
    [DummyStrategy3], which is the same code. *)
Definition equity_round1 (win_prob : Q) : string * Q :=
  if Qltb win_prob (1 # 10) then ("fold", 0)
  else ("play", 100 + win_prob * 200).

Module DummyStrategy1.

Record State := mkState { my_index : Z }.

(** [__init__] *)
Definition init : State := mkState (-1).

Definition round1 (self : State) (hole comm : list card) (stacks : list Q)
  (pot win_prob : Q) : string * Q :=
  equity_round1 win_prob.

Definition round2 (self : State) (hole comm : list card)
  (r1_bets stacks : list Q) (pot win_prob : Q) : option Q :=
  match bets_get r1_bets (my_index self) with
  | None => None
  | Some base => Some (base * ((1 # 2) + win_prob))
  end.

Definition round3 (self : State) (hole comm : list card)
  (r1_bets r2_bets stacks : list Q) (pot win_prob : Q) : option Q :=
  match bets_get r2_bets (my_index self) with
  | None => None
  | Some base => Some (base * ((3 # 4) + win_prob * (1 # 2)))
  end.

End DummyStrategy1.

Module DummyStrategy2.

Record State := mkState { my_index : Z }.

Definition init : State := mkState (-1).

Definition round1 (self : State) (hole comm : list card) (stacks : list Q)
  (pot win_prob : Q) : string * Q :=
  equity_round1 win_prob.

Definition round2 (self : State) (hole comm : list card)
  (r1_bets stacks : list Q) (pot win_prob : Q) : option Q :=
  match bets_get r1_bets (my_index self) with
  | None => None
  | Some my_bet =>
      let higher := count_higher r1_bets my_bet in
      let multiplier :=
        if Qltb (3 # 5) win_prob && Nat.eqb higher 0 then 3 # 2 else 1 # 2 in
      Some (my_bet * multiplier)
  end.

Definition round3 (self : State) (hole comm : list card)
  (r1_bets r2_bets stacks : list Q) (pot win_prob : Q) : option Q :=
  match bets_get r2_bets (my_index self) with
  | None => None
  | Some my_bet =>
      let higher := count_higher r2_bets my_bet in
      let multiplier :=
        if Qltb (7 # 10) win_prob && Nat.eqb higher 0 then 5 # 4 else 3 # 4 in
      Some (my_bet * multiplier)
  end.

End DummyStrategy2.

Module DummyStrategy3.

Record State := mkState {
  my_index : Z;
  prev_winprob_r1 : option Q;
  prev_winprob_r2 : option Q
}.

Definition init : State := mkState (-1) None None.

Definition initialize_game (self : State) (match_history : list RoundHistory)
  (current_game_num : nat) : State :=
  mkState (my_index self) None None.

Definition round1 (self : State) (hole comm : list card) (stacks : list Q)
  (pot win_prob : Q) : (string * Q) * State :=
  let self := mkState (my_index self) (Some win_prob) (prev_winprob_r2 self) in
  (equity_round1 win_prob, self).

Definition round2 (self : State) (hole comm : list card)
  (r1_bets stacks : list Q) (pot win_prob : Q) : option (Q * State) :=
  let old := prev_winprob_r1 self in
  match bets_get r1_bets (my_index self) with
  | None => None
  | Some base =>
      let self :=
        mkState (my_index self) (prev_winprob_r1 self) (Some win_prob) in
      match old with
      | None => Some (base * 1, self)
      | Some old =>
          let multiplier := if Qltb old win_prob then 3 # 2 else 1 # 2 in
          Some (base * multiplier, self)
      end
  end.

Definition round3 (self : State) (hole comm : list card)
  (r1_bets r2_bets stacks : list Q) (pot win_prob : Q) : option Q :=
  let old := prev_winprob_r2 self in
  match bets_get r2_bets (my_index self) with
  | None => None
  | Some base =>
      match old with
      | None => Some (base * 1)
      | Some old =>
          let multiplier :=
            if Qltb old win_prob && Qltb (3 # 5) win_prob then 5 # 4
            else 3 # 4 in
          Some (base * multiplier)
      end
  end.

End DummyStrategy3.

Module DummyStrategy4.

Record State := mkState { my_index : Z }.

Definition init : State := mkState (-1).

Definition round1 (self : State) (hole comm : list card) (stacks : list Q)
  (pot win_prob : Q) : option (string * Q) :=
  match list_get stacks (my_index self) with
  | None => None
  | Some my_stack =>
      let is_short_stacked := Qltb my_stack 1000 in
      let fold_threshold := if is_short_stacked then 1 # 5 else 1 # 10 in
      if Qltb win_prob fold_threshold then Some ("fold", 0)
      else
        let bet :=
          if Qltb (3 # 5) win_prob then 300
          else if is_short_stacked then 100 else 250 in
        Some ("play", bet)
  end.

Definition round2 (self : State) (hole comm : list card)
  (r1_bets stacks : list Q) (pot win_prob : Q) : option Q :=
  match bets_get r1_bets (my_index self) with
  | None => None
  | Some base =>
      let is_big_pot := Qltb 1000 pot in
      let multiplier :=
        if Qltb (3 # 5) win_prob && is_big_pot then 3 # 2
        else if Qltb (2 # 5) win_prob then 1
        else 1 # 2 in
      Some (base * multiplier)
  end.

Definition round3 (self : State) (hole comm : list card)
  (r1_bets r2_bets stacks : list Q) (pot win_prob : Q) : option Q :=
  match bets_get r2_bets (my_index self) with
  | None => None
  | Some base =>
      let multiplier := if Qltb (7 # 10) win_prob then 5 # 4 else 3 # 4 in
      Some (base * multiplier)
  end.

End DummyStrategy4.

Module DummyStrategy5.

(** A value of [looseness_model]. *)
Record Profile := mkProfile { games_played : Z; games_seen : Z }.

Record State := mkState {
  my_index : Z;
  looseness_model : list (nat * Profile)   (* a dictionary, in insertion order *)
}.

Definition init : State := mkState (-1) [].

(** [d[k] = v] *)
Fixpoint model_set (d : list (nat * Profile)) (k : nat) (v : Profile)
  : list (nat * Profile) :=
  match d with
  | [] => [(k, v)]
  | (k', v') :: d' =>
      if Nat.eqb k' k then (k, v) :: d' else (k', v') :: model_set d' k v
  end.

(** [d.get(k)] *)
Fixpoint model_get (d : list (nat * Profile)) (k : nat) : option Profile :=
  match d with
  | [] => None
  | (k', v') :: d' => if Nat.eqb k' k then Some v' else model_get d' k
  end.

(** The body of the loop over the items of the last game, for an item with
    an integer key: [setdefault], then the two counters. *)
Definition observe (my_index : Z) (model : list (nat * Profile))
  (item : nat * PlayerLog) : list (nat * Profile) :=
  let '(pid_int, pdata) := item in
  if negb (Z.of_nat pid_int =? my_index)%Z then
    let profile :=
      match model_get model pid_int with
      | Some profile => profile
      | None => mkProfile 0 0
      end in
    let profile := mkProfile (games_played profile) (games_seen profile + 1) in
    let profile :=
      if negb (log_folded pdata)
      then mkProfile (games_played profile + 1) (games_seen profile)
      else profile in
    model_set model pid_int profile
  else model.

(** [initialize_game]: [None] is the [IndexError] of [match_history[-1]].
    The items of the last game with a string key fail the test
    [isinstance(pid_int, int)] and are skipped. *)
Definition initialize_game (self : State) (match_history : list RoundHistory)
  (current_game_num : nat) : option State :=
  if Nat.eqb current_game_num 1 then
    Some (mkState (my_index self)
            (fold_left
               (fun model i =>
                  if negb (Z.of_nat i =? my_index self)%Z
                  then model_set model i (mkProfile 0 0) else model)
               (seq 0 5) (looseness_model self)))
  else
    match rev match_history with
    | [] => None
    | last_game :: _ =>
        Some (mkState (my_index self)
                (fold_left (observe (my_index self)) (rh_players last_game)
                   (looseness_model self)))
    end.

(** The loop of [get_avg_opp_looseness]: [total_looseness] and
    [total_players]. *)
Definition looseness_totals (model : list (nat * Profile)) : Q * Z :=
  fold_left
    (fun '(total_looseness, total_players) '(_, profile) =>
       if (games_seen profile >? 0)%Z
       then (total_looseness
             + inject_Z (games_played profile) / inject_Z (games_seen profile),
             (total_players + 1)%Z)
       else (total_looseness, total_players))
    model (0, 0%Z).

Definition get_avg_opp_looseness (self : State) : Q :=
  let '(total_looseness, total_players) :=
    looseness_totals (looseness_model self) in
  if (total_players >? 0)%Z then total_looseness / inject_Z total_players
  else 1 # 5.

Definition round1 (self : State) (hole comm : list card) (stacks : list Q)
  (pot win_prob : Q) : string * Q :=
  let avg_looseness := get_avg_opp_looseness self in
  let fold_threshold :=
    if Qltb avg_looseness (3 # 20) then 3 # 20 else 1 # 10 in
  if Qltb win_prob fold_threshold then ("fold", 0)
  else
    let bet := if Qltb (1 # 4) avg_looseness then 300 else 100 in
    ("play", bet).

Definition round2 (self : State) (hole comm : list card)
  (r1_bets stacks : list Q) (pot win_prob : Q) : option Q :=
  match bets_get r1_bets (my_index self) with
  | None => None
  | Some base =>
      let avg_looseness := get_avg_opp_looseness self in
      let multiplier :=
        if Qltb (3 # 5) win_prob && Qltb (1 # 4) avg_looseness then 13 # 10
        else 1 # 2 in
      Some (Qmax (base * (1 # 2)) (Qmin (base * (3 # 2)) (base * multiplier)))
  end.

Definition round3 (self : State) (hole comm : list card)
  (r1_bets r2_bets stacks : list Q) (pot win_prob : Q) : option Q :=
  match bets_get r2_bets (my_index self) with
  | None => None
  | Some base =>
      let multiplier := if Qltb (7 # 10) win_prob then 5 # 4 else 3 # 4 in
      Some (Qmax (base * (3 # 4)) (Qmin (base * (5 # 4)) (base * multiplier)))
  end.

(** The counters of every profile make a rate: as many games played as
    seen, at most. *)
Definition rate (profile : Profile) : Prop :=
  (0 <= games_played profile <= games_seen profile)%Z.

Definition rates (self : State) : Prop :=
  Forall (fun entry => rate (snd entry)) (looseness_model self).

End DummyStrategy5.

(** An answer of [round1] the engine takes as it is: a fold, or an amount
    between 100 and 300. *)
Definition legal_round1 (answer : string * Q) : Prop :=
  answer = ("fold", 0)
  \/ (fst answer = "play" /\ 100 <= snd answer /\ snd answer <= 300).

(** An amount the clamp of a later round leaves as it is. *)
Definition legal_round2 (base val : Q) : Prop :=
  base * (1 # 2) <= val /\ val <= base * (3 # 2).

Definition legal_round3 (base val : Q) : Prop :=
  base * (3 # 4) <= val /\ val <= base * (5 # 4).

(** *** A looseness model in the middle of a match *)

Module Looseness.

Import DummyStrategy5.

(** [DummyStrategy5] at seat 0 after three games: seat 1 played one game of
    the two it was seen in, seat 2 none of one, seat 3 all three; seat 4 has
    a profile and was never seen. *)
Definition after_three_games : State :=
  mkState 0
    [(1, mkProfile 1 2); (2, mkProfile 0 1); (3, mkProfile 3 3);
     (4, mkProfile 0 0)]%nat.

(** The entry of a showdown between seats 0 to 3, where seat 2 folded. *)
Definition showdown_entry : RoundHistory :=
  mkRoundHistory
    [(0, mkPlayerLog ["Ah"; "Kd"] 1609 false 150 [1 # 2; 1 # 2; 3 # 5] 9650);
     (1, mkPlayerLog ["Qs"; "Qc"] 6185 false 150 [1 # 4; 1 # 4; 1 # 5] 9650);
     (2, mkPlayerLog ["5h"; "8d"] 0 true 0 [1 # 10] 9900);
     (3, mkPlayerLog ["Jd"; "Tc"] 7462 false 120 [1 # 5; 1 # 5; 1 # 10] 9680)]%nat
    ["2c"; "7d"; "9s"; "Th"; "Js"] 1000.

(** The model after the entry: seats 1 and 3 were seen and played, seat 2
    was seen only, seat 4 was not in the entry. *)
Definition after_four_games : State :=
  mkState 0
    [(1, mkProfile 2 3); (2, mkProfile 0 2); (3, mkProfile 4 4);
     (4, mkProfile 0 0)]%nat.

End Looseness.

End DummyStrategies.

(** * The program on small inputs *)

Example combinations_order :
  combinations [1; 2; 3; 4]%nat 2
  = [[1; 2]; [1; 3]; [1; 4]; [2; 3]; [2; 4]; [3; 4]]%nat.
Proof. reflexivity. Qed.

Example py_slice_negative_stop :
  py_slice [1; 2; 3; 4; 5]%nat 0 (-2) = [1; 2; 3]%nat
  /\ py_slice [1; 2; 3; 4; 5]%nat 3 5 = [4; 5]%nat
  /\ py_slice [1; 2; 3; 4; 5]%nat 4 9 = [5]%nat.
Proof. repeat split; reflexivity. Qed.

Example shuffle_draws :
  shuffle [] [1; 2; 3; 4]%nat = [1; 2; 3; 4]%nat
  /\ shuffle [3; 0; 1]%nat [1; 2; 3; 4]%nat = [4; 1; 3; 2]%nat.
Proof. split; reflexivity. Qed.

Example decks_order :
  firstn 3 EngineCore.create_deck = ["2h"; "3h"; "4h"]
  /\ firstn 5 EngineCore.get_clean_deck = ["2h"; "2d"; "2s"; "2c"; "3h"]
  /\ List.length EngineCore.get_clean_deck = 52%nat.
Proof. repeat split; reflexivity. Qed.

Example pop_takes_the_last_card :
  Main.pop ["2h"; "3h"; "4h"] = Some ("4h", ["2h"; "3h"])
  /\ Main.pop [] = None.
Proof. split; reflexivity. Qed.

Example category_scores :
  Category.category_evaluate ["6c"; "5c"; "4c"; "3c"; "2c"] = Some 10%Z
  /\ Category.category_evaluate ["Ac"; "Kc"; "4c"; "3c"; "2c"] = Some 1599%Z
  /\ Category.category_evaluate ["Ac"; "As"; "4c"; "3c"; "2d"] = Some 6185%Z
  /\ Category.category_evaluate ["Ac"; "As"; "4c"] = None.
Proof. repeat split; reflexivity. Qed.

Example best_of_seven :
  EngineCore.evaluate_hand Category.category_evaluate ["6c"; "5c"]
    ["4c"; "3c"; "2c"; "As"; "Ks"] = 10%Z
  /\ EngineCore.evaluate_hand Category.category_evaluate ["Ac"; "Kc"]
       ["4c"; "3c"; "2c"; "As"; "Ks"] = 1599%Z.
Proof. split; vm_compute; reflexivity. Qed.

Example clamped_bets :
  Invariant.r1_price 1000
    (Main.with_stack (EngineCore.new_player "" 0) 9900) == 300
  /\ Invariant.r1_price 300
       (Main.with_stack (EngineCore.new_player "" 0) 200) == 200
  /\ Invariant.r2_price 0
       (Main.with_bet_r1 (EngineCore.new_player "" 0) 300) == 150.
Proof. repeat split; reflexivity. Qed.

(** With one opponent and a pool too small for any trial the estimate is 0;
    with two trials on a full board, a hero holding the straight flush wins
    both against any opponent drawn from the identity shuffle. *)
Example equity_small_runs :
  EngineCore.calculate_multiplayer_equity Category.category_evaluate
    (fun _ => []) ["6c"; "5c"] ["4c"; "3c"; "2c"; "As"; "Ks"] 2 2 == 1
  /\ EngineCore.calculate_multiplayer_equity Category.category_evaluate
       (fun _ => []) ["6c"; "5c"] ["4c"; "3c"; "2c"; "As"; "Ks"] 30 2 == 0
  /\ EngineCore.calculate_multiplayer_equity Category.category_evaluate
       (fun _ => []) ["6c"; "5c"] ["4c"; "3c"; "2c"; "As"; "Ks"] 2 0 == 0.
Proof. repeat split; vm_compute; reflexivity. Qed.

(** * Properties *)

(** ** Lists, shuffles and amounts *)

Lemma remove_at_length {A : Type} (l : list A) (j : nat) :
  (j < List.length l)%nat ->
  S (List.length (remove_at j l)) = List.length l.
Proof.
  revert j; induction l as [|x xs IH]; intros j Hj; simpl in *; [lia|].
  destruct j as [|j]; [reflexivity|].
  simpl. rewrite IH by lia. reflexivity.
Qed.

Lemma remove_at_perm {A : Type} (l : list A) (j : nat) (d : A) :
  (j < List.length l)%nat ->
  Permutation (nth j l d :: remove_at j l) l.
Proof.
  revert j; induction l as [|x xs IH]; intros j Hj; simpl in *; [lia|].
  destruct j as [|j]; [reflexivity|].
  etransitivity; [apply perm_swap|]. constructor. apply IH. lia.
Qed.

Lemma shuffle_pick_perm {A : Type} (fuel : nat) :
  forall (draws : list nat) (l : list A),
    List.length l = fuel -> Permutation (shuffle_pick fuel draws l) l.
Proof.
  induction fuel as [|fuel IH]; intros draws l Hl.
  - destruct l; [constructor | discriminate].
  - destruct l as [|x xs]; [discriminate|].
    cbn [shuffle_pick].
    set (j := (hd O draws mod List.length (x :: xs))%nat).
    assert (Hj : (j < List.length (x :: xs))%nat)
      by (apply Nat.mod_upper_bound; discriminate).
    etransitivity; [|apply (remove_at_perm (x :: xs) j x Hj)].
    constructor. apply IH.
    pose proof (remove_at_length (x :: xs) j Hj) as E. lia.
Qed.

Lemma shuffle_perm {A : Type} (draws : list nat) (l : list A) :
  Permutation (shuffle draws l) l.
Proof. apply shuffle_pick_perm. reflexivity. Qed.

Lemma shuffle_length {A : Type} (draws : list nat) (l : list A) :
  List.length (shuffle draws l) = List.length l.
Proof. apply Permutation_length, shuffle_perm. Qed.

Lemma slice_bound_in_range (len i : Z) :
  (0 <= i <= len)%Z -> slice_bound len i = i.
Proof.
  intros H. unfold slice_bound.
  destruct (i <? 0)%Z eqn:E; [apply Z.ltb_lt in E; lia|]. lia.
Qed.

Lemma py_slice_prefix {A : Type} (l : list A) (k : Z) :
  (0 <= k <= Z.of_nat (List.length l))%Z ->
  py_slice l 0 k = firstn (Z.to_nat k) l.
Proof.
  intros Hk. unfold py_slice.
  rewrite !slice_bound_in_range by lia.
  rewrite Z.sub_0_r. reflexivity.
Qed.

Lemma sumQ_app (l1 l2 : list Q) : sumQ (l1 ++ l2) == sumQ l1 + sumQ l2.
Proof.
  induction l1 as [|x xs IH]; simpl; [ring|]. rewrite IH. ring.
Qed.

Lemma Qltb_lt (x y : Q) : Qltb x y = true <-> x < y.
Proof.
  unfold Qltb. rewrite Qlt_alt. destruct (x ?= y); split; congruence.
Qed.

Lemma Qltb_ge (x y : Q) : Qltb x y = false <-> y <= x.
Proof.
  unfold Qltb. rewrite Qle_alt.
  rewrite <- (Qcompare_antisym x y).
  destruct (x ?= y); simpl; split; congruence.
Qed.

Lemma Qnat_pos (n : nat) : (0 < n)%nat -> 0 < Qnat n.
Proof.
  intros H. unfold Qnat, Qlt. simpl. lia.
Qed.

Lemma Qnat_S (n : nat) : Qnat (S n) == Qnat n + 1.
Proof.
  unfold Qnat. rewrite Nat2Z.inj_succ. unfold Z.succ.
  rewrite inject_Z_plus. reflexivity.
Qed.

(** ** The equity estimator *)

Section EstimatorFacts.

Import EngineCore.

Variable treys_evaluate : list card -> option Z.

Let trial := EquityLoop.trial treys_evaluate.
Let trial_value := EquityLoop.trial_value.

Lemma equity_trial_spec (hero board deck : list card) (opp : Z) (wins : Q) :
  equity_trial treys_evaluate hero board deck opp wins
  == wins + trial_value (trial hero board deck opp).
Proof.
  unfold trial_value, trial, EquityLoop.trial_value.
  unfold equity_trial, EquityLoop.trial, EquityLoop.can_deal.
  rewrite Z.gtb_ltb.
  destruct (Z.ltb_spec (Z.of_nat (List.length deck))
              (5 - Z.of_nat (List.length board) + opp * 2)) as [H|H].
  - destruct (Z.leb_spec (5 - Z.of_nat (List.length board) + opp * 2)
                (Z.of_nat (List.length deck))); [lia|]. simpl. ring.
  - destruct (Z.leb_spec (5 - Z.of_nat (List.length board) + opp * 2)
                (Z.of_nat (List.length deck))); [|lia].
    unfold EquityLoop.best_opponent, EquityLoop.trial_board,
      EquityLoop.contribution.
    set (hs := evaluate_best_hand treys_evaluate _).
    set (os := map _ _).
    assert (E : match os with [] => SENTINEL | _ :: _ => list_min SENTINEL os end
                = match os with [] => SENTINEL
                  | s :: r => list_min SENTINEL (s :: r) end)
      by (destruct os; reflexivity).
    rewrite E. clear E.
    set (bo := match os with [] => SENTINEL | s :: r => _ end).
    destruct (hs <? bo)%Z; [ring|].
    destruct (hs =? bo)%Z; ring.
Qed.

Lemma equity_loop_spec (draws : nat -> list nat) (hero board : list card)
  (opp : Z) (todo : nat) :
  forall (i : nat) (deck : list card) (wins : Q),
    equity_loop treys_evaluate draws hero board opp todo i deck wins
    == wins
       + sumQ (EquityLoop.ran
                 (map (fun p => trial hero board p opp)
                    (EquityLoop.pools draws todo i deck))).
Proof.
  induction todo as [|todo IH]; intros i deck wins; simpl.
  - ring.
  - rewrite IH, equity_trial_spec. unfold trial_value, trial.
    destruct (EquityLoop.trial treys_evaluate hero board
                (shuffle (draws i) deck) opp); simpl; ring.
Qed.

Lemma pools_length (draws : nat -> list nat) (todo : nat) :
  forall (i : nat) (deck : list card),
    Forall (fun p => List.length p = List.length deck)
      (EquityLoop.pools draws todo i deck).
Proof.
  induction todo as [|todo IH]; intros i deck; simpl; constructor.
  - apply shuffle_length.
  - eapply Forall_impl; [|apply IH]. simpl. intros p Hp.
    rewrite Hp. apply shuffle_length.
Qed.

Lemma pools_count (draws : nat -> list nat) (todo : nat) :
  forall (i : nat) (deck : list card),
    List.length (EquityLoop.pools draws todo i deck) = todo.
Proof.
  induction todo as [|todo IH]; intros i deck; simpl; [|rewrite IH]; reflexivity.
Qed.

(** The test that skips a trial reads only the size of the pool, which no
    shuffle changes: the requested trials all run, or none does. *)
Lemma ran_all_or_none (hero board : list card) (opp : Z) (n : nat)
  (ps : list (list card)) :
  Forall (fun p => List.length p = n) ps ->
  let cs := EquityLoop.ran (map (fun p => trial hero board p opp) ps) in
  cs = [] \/ List.length cs = List.length ps.
Proof.
  intros H. simpl. unfold trial.
  destruct ((5 - Z.of_nat (List.length board) + opp * 2 <=? Z.of_nat n)%Z) eqn:E.
  - right. induction H as [|p ps Hp _ IH]; [reflexivity|]. simpl.
    unfold EquityLoop.trial at 1, EquityLoop.can_deal. rewrite Hp, E.
    simpl. rewrite IH. reflexivity.
  - left. induction H as [|p ps Hp _ IH]; [reflexivity|]. simpl.
    unfold EquityLoop.trial at 1, EquityLoop.can_deal. rewrite Hp, E.
    exact IH.
Qed.

End EstimatorFacts.

(** The program divides the wins by the number of trials requested; since
    the trials all run or are all skipped, that is the sum of the
    contributions of the trials that ran over their number. *)
Lemma equity_loop_estimate
  (treys_evaluate : list card -> option Z) (draws : nat -> list nat)
  (hero_hand current_board : list card) (num_players iterations : Z) :
  EngineCore.calculate_multiplayer_equity treys_evaluate draws hero_hand
    current_board num_players iterations
  == EquityLoop.estimate treys_evaluate draws hero_hand current_board
       num_players iterations.
Proof.
  unfold EngineCore.calculate_multiplayer_equity, EquityLoop.estimate.
  set (pool := filter _ EngineCore.get_clean_deck).
  set (ps := EquityLoop.pools draws (Z.to_nat iterations) 0 pool).
  pose proof (ran_all_or_none treys_evaluate hero_hand current_board
                (num_players - 1) (List.length pool) ps
                (pools_length draws _ 0%nat pool)) as Hall.
  pose proof (equity_loop_spec treys_evaluate draws hero_hand current_board
                (num_players - 1) (Z.to_nat iterations) 0%nat pool 0) as Hloop.
  fold ps in Hloop. cbv zeta in Hall.
  set (wins := EngineCore.equity_loop _ _ _ _ _ _ _ _ _) in *.
  set (cs := EquityLoop.ran _) in *.
  assert (Hn : List.length ps = Z.to_nat iterations) by apply pools_count.
  clearbody wins cs ps pool.
  destruct (Z.eqb_spec iterations 0) as [E0|E0].
  - destruct Hall as [Hnone | Hall].
    + rewrite Hnone. reflexivity.
    + rewrite Hall, Hn, E0. reflexivity.
  - destruct Hall as [Hnone | Hall].
    + rewrite Hnone in *. simpl in Hloop. simpl sumQ. simpl Nat.eqb. cbv iota.
      rewrite Hloop. unfold Qdiv. ring.
    + rewrite Hall, Hn. rewrite Hloop.
      destruct (Z.to_nat iterations) as [|n] eqn:En.
      * destruct cs; [|rewrite Hn in Hall; discriminate].
        simpl. unfold Qdiv. ring.
      * simpl Nat.eqb. cbv iota.
        assert (Ei : iterations = Z.of_nat (S n)) by lia.
        unfold Qnat. rewrite <- Ei.
        field. intros C. unfold Qeq in C. simpl in C. lia.
Qed.

Lemma mem_true_iff (c : card) (l : list card) : mem c l = true <-> In c l.
Proof.
  unfold mem. destruct (in_dec card_eq_dec c l); split; congruence.
Qed.

Lemma mem_false_iff (c : card) (l : list card) : mem c l = false <-> ~ In c l.
Proof.
  unfold mem. destruct (in_dec card_eq_dec c l); split; congruence.
Qed.

Lemma distinct_NoDup (l : list card) : distinct l = true -> NoDup l.
Proof.
  induction l as [|c r IH]; simpl; intros H; constructor.
  - apply andb_prop in H. destruct H as [H _].
    apply mem_false_iff. destruct (mem c r); [discriminate | reflexivity].
  - apply IH. apply andb_prop in H. tauto.
Qed.

Lemma firstn_In {A : Type} (n : nat) (l : list A) (x : A) :
  In x (firstn n l) -> In x l.
Proof.
  intros H. rewrite <- (firstn_skipn n l). apply in_or_app. left. exact H.
Qed.

Lemma get_clean_deck_NoDup : NoDup EngineCore.get_clean_deck.
Proof. apply distinct_NoDup. vm_compute. reflexivity. Qed.

Lemma create_deck_length : List.length EngineCore.create_deck = 52%nat.
Proof. reflexivity. Qed.

(** Taking the known cards out of a deck without repeats leaves at least
    the size of the deck minus the number of known cards. *)
Lemma unknown_cards_length (known deck : list card) :
  NoDup deck ->
  (List.length deck
   <= List.length (filter (fun c => negb (mem c known)) deck)
      + List.length known)%nat.
Proof.
  intros Hnd.
  pose proof (filter_length (fun c => negb (mem c known)) deck) as Hsplit.
  assert (Hin : (List.length
                   (filter (fun x => negb (negb (mem x known))) deck)
                 <= List.length known)%nat).
  { apply NoDup_incl_length.
    - apply NoDup_filter. exact Hnd.
    - intros c Hc. apply filter_In in Hc. destruct Hc as [_ Hc].
      apply mem_true_iff. destruct (mem c known); [reflexivity | discriminate]. }
  lia.
Qed.

Section ZeroOpponents.

Import EngineCore.

Variable treys_evaluate : list card -> option Z.
Hypothesis treys_ok : treys_contract treys_evaluate.

Lemma best_step_le (b : Z) (combo : list card) :
  (best_step treys_evaluate b combo <= b)%Z.
Proof.
  unfold best_step. destruct (treys_evaluate combo) as [s|]; [|lia].
  destruct (Z.ltb_spec s b); lia.
Qed.

Lemma fold_best_step_le (l : list (list card)) :
  forall b : Z, (fold_left (best_step treys_evaluate) l b <= b)%Z.
Proof.
  induction l as [|c l IH]; intros b; simpl; [lia|].
  etransitivity; [apply IH | apply best_step_le].
Qed.

Lemma combinations_head {A : Type} (k : nat) :
  forall l : list A,
    (k <= List.length l)%nat ->
    exists rest, combinations l k = firstn k l :: rest.
Proof.
  induction k as [|k IH]; intros l Hl.
  - exists []. destruct l; reflexivity.
  - destruct l as [|x xs]; [simpl in Hl; lia|].
    destruct (IH xs) as [rest E]; [simpl in Hl; lia|].
    simpl. rewrite E. simpl. eexists. reflexivity.
Qed.

(** Seven different cards of the deck always make a hand: the score is
    below the sentinel. *)
Lemma evaluate_best_hand_real (cards : list card) :
  (5 <= List.length cards)%nat ->
  NoDup cards ->
  incl cards get_clean_deck ->
  (evaluate_best_hand treys_evaluate cards < SENTINEL)%Z.
Proof.
  intros Hlen Hnd Hincl. unfold evaluate_best_hand.
  destruct (combinations_head 5 cards Hlen) as [rest E]. rewrite E.
  cbn [fold_left].
  eapply Z.le_lt_trans; [apply fold_best_step_le|].
  destruct (treys_ok (firstn 5 cards)) as [s [Es Hs]].
  - rewrite length_firstn. lia.
  - rewrite <- (firstn_skipn 5 cards) in Hnd.
    apply NoDup_app_remove_r in Hnd. exact Hnd.
  - intros c Hc. apply Hincl. eapply firstn_In; exact Hc.
  - unfold best_step. rewrite Es.
    destruct (Z.ltb_spec s SENTINEL); lia.
Qed.

Variables (hero_hand current_board : list card).
Hypothesis hero_two : List.length hero_hand = 2%nat.
Hypothesis board_size : (List.length current_board <= 5)%nat.
Hypothesis known_distinct : NoDup (hero_hand ++ current_board).
Hypothesis known_in_deck : incl (hero_hand ++ current_board) get_clean_deck.

Let pool : list card :=
  filter (fun c => negb (mem c (hero_hand ++ current_board))) get_clean_deck.

Lemma pool_length : (45 <= List.length pool)%nat.
Proof.
  pose proof (unknown_cards_length (hero_hand ++ current_board)
                get_clean_deck get_clean_deck_NoDup) as H.
  fold pool in H. rewrite length_app in H.
  change (List.length get_clean_deck) with 52%nat in H. lia.
Qed.

Lemma trial_alone_wins (p : list card) :
  Permutation p pool ->
  EquityLoop.trial treys_evaluate hero_hand current_board p 0 = Some 1.
Proof.
  intros Hp.
  pose proof pool_length as Hpool.
  pose proof (Permutation_length Hp) as Hlen.
  unfold EquityLoop.trial, EquityLoop.can_deal.
  destruct (Z.leb_spec (5 - Z.of_nat (List.length current_board) + 0 * 2)
              (Z.of_nat (List.length p))) as [_|C]; [|lia].
  f_equal. unfold EquityLoop.contribution, EquityLoop.best_opponent.
  simpl deal_opponents. simpl map. cbv iota.
  assert (Hs : (evaluate_best_hand treys_evaluate
                  (hero_hand ++ EquityLoop.trial_board current_board p)
                < SENTINEL)%Z).
  { unfold EquityLoop.trial_board.
    rewrite py_slice_prefix by lia.
    set (k := Z.to_nat (5 - Z.of_nat (List.length current_board))).
    assert (Hk : List.length (firstn k p) = k)
      by (rewrite length_firstn; lia).
    assert (Hnp : NoDup p).
    { eapply Permutation_NoDup; [symmetry; exact Hp|].
      apply NoDup_filter, get_clean_deck_NoDup. }
    assert (Hin : forall c, In c (firstn k p) ->
                    In c get_clean_deck
                    /\ ~ In c (hero_hand ++ current_board)).
    { intros c Hc. apply firstn_In in Hc.
      apply (Permutation_in _ Hp) in Hc. apply filter_In in Hc.
      destruct Hc as [Hd Hm]. split; [exact Hd|].
      apply mem_false_iff. destruct (mem c _); [discriminate|reflexivity]. }
    apply evaluate_best_hand_real.
    - rewrite !length_app, Hk. lia.
    - rewrite app_assoc. apply NoDup_app; [exact known_distinct | |].
      + rewrite <- (firstn_skipn k p) in Hnp.
        apply NoDup_app_remove_r in Hnp. exact Hnp.
      + intros c Hc Hc'. apply (Hin c Hc'). exact Hc.
    - rewrite app_assoc. apply incl_app; [exact known_in_deck|].
      intros c Hc. apply (Hin c Hc). }
  destruct (Z.ltb_spec
              (evaluate_best_hand treys_evaluate
                 (hero_hand ++ EquityLoop.trial_board current_board p))
              SENTINEL) as [_|C]; [reflexivity | lia].
Qed.

Lemma pools_perm (draws : nat -> list nat) (todo : nat) :
  forall (i : nat) (deck : list card),
    Permutation deck pool ->
    Forall (fun p => Permutation p pool) (EquityLoop.pools draws todo i deck).
Proof.
  induction todo as [|todo IH]; intros i deck Hd; simpl; constructor.
  - etransitivity; [apply shuffle_perm | exact Hd].
  - apply IH. etransitivity; [apply shuffle_perm | exact Hd].
Qed.

Lemma ran_all_one (ps : list (list card)) :
  Forall (fun p => Permutation p pool) ps ->
  sumQ (EquityLoop.ran
          (map (fun p => EquityLoop.trial treys_evaluate hero_hand
                           current_board p 0) ps))
  == Qnat (List.length ps).
Proof.
  induction 1 as [|p ps Hp _ IH]; [reflexivity|].
  cbn [map]. rewrite (trial_alone_wins p Hp). cbn [EquityLoop.ran].
  cbn [List.length]. rewrite Qnat_S, <- IH.
  unfold sumQ. cbn [fold_right]. ring.
Qed.

Lemma equity_alone (draws : nat -> list nat) (iterations : Z) :
  (1 <= iterations)%Z ->
  calculate_multiplayer_equity treys_evaluate draws hero_hand current_board
    1 iterations == 1.
Proof.
  intros Hit. unfold calculate_multiplayer_equity.
  fold pool. change (1 - 1)%Z with 0%Z. cbv zeta.
  destruct (Z.eqb_spec iterations 0) as [C|_]; [lia|].
  rewrite equity_loop_spec.
  rewrite ran_all_one by (apply pools_perm; reflexivity).
  rewrite pools_count. unfold Qnat. rewrite Z2Nat.id by lia.
  field. intros C. unfold Qeq in C. simpl in C. lia.
Qed.

End ZeroOpponents.

(** C9.  With zero opponents ([num_players = 1]) and at least one trial
    requested, [calculate_multiplayer_equity] returns exactly 1, for a hero
    hand of two cards and a board of 0, 3, 4 or 5 cards, all different cards
    of the deck ([treys] scoring every five such cards below the sentinel). *)
Theorem equity_alone_is_one
  (treys_evaluate : list card -> option Z) (draws : nat -> list nat)
  (hero_hand current_board : list card) (iterations : Z)
  (treys_ok : EngineCore.treys_contract treys_evaluate)
  (hero_two : List.length hero_hand = 2%nat)
  (board_size : In (List.length current_board) [0; 3; 4; 5]%nat)
  (known_distinct : NoDup (hero_hand ++ current_board))
  (known_in_deck : incl (hero_hand ++ current_board) EngineCore.get_clean_deck)
  (requested : (1 <= iterations)%Z) :
  EngineCore.calculate_multiplayer_equity treys_evaluate draws hero_hand
    current_board 1 iterations == 1.
Proof.
  apply equity_alone; try assumption.
  simpl in board_size. intuition lia.
Qed.

(** ** The players of the table *)

Section PlayerLists.

Import EngineCore Main Invariant.

Lemma list_update_length {A : Type} (l : list A) (i : nat) (f : A -> A) :
  List.length (list_update l i f) = List.length l.
Proof.
  revert i; induction l as [|x xs IH]; intros [|i]; simpl; try reflexivity.
  rewrite IH. reflexivity.
Qed.

Lemma list_update_nth_same {A : Type} (l : list A) (i : nat) (f : A -> A)
  (d : A) :
  (i < List.length l)%nat -> nth i (list_update l i f) d = f (nth i l d).
Proof.
  revert i; induction l as [|x xs IH]; intros [|i] H; simpl in *;
    try lia; [reflexivity|]. apply IH. lia.
Qed.

Lemma list_update_nth_other {A : Type} (l : list A) (i j : nat) (f : A -> A)
  (d : A) :
  i <> j -> nth j (list_update l i f) d = nth j l d.
Proof.
  revert i j; induction l as [|x xs IH]; intros [|i] [|j] H; simpl;
    try reflexivity; try congruence. apply IH. congruence.
Qed.

Lemma set_player_length (ps : list PlayerState) (i : nat) (p : PlayerState) :
  List.length (set_player ps i p) = List.length ps.
Proof. apply list_update_length. Qed.

Lemma player_at_set_same (ps : list PlayerState) (i : nat) (p : PlayerState) :
  (i < List.length ps)%nat -> player_at (set_player ps i p) i = p.
Proof.
  intros H. unfold player_at, set_player.
  rewrite list_update_nth_same by exact H. reflexivity.
Qed.

Lemma player_at_set_other (ps : list PlayerState) (i j : nat)
  (p : PlayerState) :
  i <> j -> player_at (set_player ps i p) j = player_at ps j.
Proof. intros H. apply list_update_nth_other. exact H. Qed.

Lemma set_player_same (ps : list PlayerState) (i : nat) :
  set_player ps i (player_at ps i) = ps.
Proof.
  unfold set_player, player_at.
  revert i; induction ps as [|x xs IH]; intros [|i]; simpl; try reflexivity.
  rewrite IH. reflexivity.
Qed.

Lemma set_player_Forall (P : PlayerState -> Prop) (ps : list PlayerState)
  (i : nat) (p : PlayerState) :
  Forall P ps -> P p -> Forall P (set_player ps i p).
Proof.
  unfold set_player. intros H Hp. revert i.
  induction H as [|x xs Hx Hxs IH]; intros [|i]; simpl; constructor; auto.
Qed.

Lemma new_player_ok (nm : string) (i : nat) : player_ok (new_player nm i).
Proof. unfold player_ok, new_player; simpl. repeat split; discriminate. Qed.

Lemma player_at_ok (ps : list PlayerState) (i : nat) :
  Forall player_ok ps -> player_ok (player_at ps i).
Proof.
  intros H. unfold player_at.
  destruct (Nat.lt_ge_cases i (List.length ps)) as [Hi|Hi].
  - rewrite Forall_forall in H. apply H. apply nth_In. exact Hi.
  - rewrite nth_overflow by exact Hi. apply new_player_ok.
Qed.

Lemma player_ok_stacks (ps : list PlayerState) :
  Forall player_ok ps -> stacks_nonneg ps.
Proof.
  unfold stacks_nonneg. apply Forall_impl. intros p H. apply H.
Qed.

(** Two tables of the same size whose seats hold players of the same index
    have the same indices. *)
Lemma map_index_pointwise (ps qs : list PlayerState) :
  List.length qs = List.length ps ->
  (forall i, index (player_at qs i) = index (player_at ps i)) ->
  map index qs = map index ps.
Proof.
  revert qs; induction ps as [|p ps IH]; intros [|q qs] Hl H;
    simpl in *; try discriminate; [reflexivity|].
  f_equal.
  - apply (H O).
  - apply IH; [lia|]. intros i. apply (H (S i)).
Qed.

Lemma well_indexed_at (ps : list PlayerState) (i : nat) :
  well_indexed ps -> (i < List.length ps)%nat -> index (player_at ps i) = i.
Proof.
  unfold well_indexed, player_at. intros H Hi.
  assert (E : nth i (map index ps) O = nth i (seq 0 (List.length ps)) O)
    by (rewrite H; reflexivity).
  rewrite seq_nth in E by exact Hi. simpl in E.
  rewrite (nth_indep _ O (index (new_player "" O))) in E
    by (rewrite length_map; exact Hi).
  rewrite map_nth in E. exact E.
Qed.

(** A generic invariant of a loop. *)
Lemma fold_left_inv {S X : Type} (I : S -> Prop) (step : S -> X -> S)
  (l : list X) :
  (forall st x, I st -> I (step st x)) ->
  forall st, I st -> I (fold_left step l st).
Proof.
  intros Hstep. induction l as [|x l IH]; intros st H; simpl; auto.
Qed.

(** A loop over different seats whose turn for a seat rewrites the player of
    that seat only: after the loop every seat of the list holds a player
    related by [R] to the one it held before, the other seats are as they
    were. *)
Lemma fold_touch {S : Type} (pl : S -> list PlayerState)
  (step : S -> nat -> S) (R : PlayerState -> PlayerState -> Prop) :
  (forall st idx, exists p',
      pl (step st idx) = set_player (pl st) idx p'
      /\ R (player_at (pl st) idx) p') ->
  forall (l : list nat) (st : S),
    seats (List.length (pl st)) l ->
    List.length (pl (fold_left step l st)) = List.length (pl st)
    /\ (forall i, In i l ->
          R (player_at (pl st) i) (player_at (pl (fold_left step l st)) i))
    /\ (forall i, ~ In i l ->
          player_at (pl (fold_left step l st)) i = player_at (pl st) i).
Proof.
  intros Hstep. induction l as [|x l IH]; intros st [Hnd Hin].
  - simpl. split; [reflexivity|]. split; [intros i []|reflexivity].
  - inversion Hnd as [|? ? Hx Hnd']; subst.
    inversion Hin as [|? ? Hxn Hin']; subst.
    destruct (Hstep st x) as [p' [Ep HR]].
    assert (Hlen : List.length (pl (step st x)) = List.length (pl st))
      by (rewrite Ep; apply set_player_length).
    destruct (IH (step st x)) as [IHlen [IHin IHout]].
    { split; [exact Hnd'|]. rewrite Hlen. exact Hin'. }
    simpl. split; [|split].
    + rewrite IHlen. exact Hlen.
    + intros i [Hi|Hi].
      * subst i. rewrite (IHout x Hx). rewrite Ep.
        rewrite player_at_set_same by exact Hxn. exact HR.
      * assert (x <> i) by (intros ->; contradiction).
        specialize (IHin i Hi). rewrite Ep in IHin at 1.
        rewrite player_at_set_other in IHin by assumption. exact IHin.
    + intros i Hi.
      assert (x <> i) by (intros ->; apply Hi; left; reflexivity).
      rewrite IHout by (intros C; apply Hi; right; exact C).
      rewrite Ep. apply player_at_set_other. assumption.
Qed.

End PlayerLists.

(** ** The loops of a turn *)

Section Loops.

Import EngineCore Main Invariant.

Variable treys_evaluate : list card -> option Z.
Variable env : Env.
Variable game_num : nat.

Lemma set_player_index (ps : list PlayerState) (i : nat) (p : PlayerState) :
  index p = index (player_at ps i) ->
  map index (set_player ps i p) = map index ps.
Proof.
  unfold set_player, player_at. revert i.
  induction ps as [|x xs IH]; intros [|i] H; simpl in *; try reflexivity.
  - rewrite H. reflexivity.
  - rewrite IH by exact H. reflexivity.
Qed.

(** What a loop whose turns rewrite one player each keeps. *)
Lemma fold_touch_wf {S : Type} (pl : S -> list PlayerState)
  (step : S -> nat -> S) (R : PlayerState -> PlayerState -> Prop) :
  (forall st idx, exists p',
      pl (step st idx) = set_player (pl st) idx p'
      /\ R (player_at (pl st) idx) p') ->
  (forall p p', R p p' -> index p' = index p) ->
  forall (l : list nat) (st : S),
    map index (pl (fold_left step l st)) = map index (pl st)
    /\ List.length (pl (fold_left step l st)) = List.length (pl st).
Proof.
  intros Hstep Hidx. induction l as [|x l IH]; intros st; simpl.
  - split; reflexivity.
  - destruct (IH (step st x)) as [E1 E2]. rewrite E1, E2.
    destruct (Hstep st x) as [p' [Ep HR]]. rewrite Ep.
    split; [|apply set_player_length].
    apply set_player_index. apply Hidx. exact HR.
Qed.

(** *** Amounts *)

Lemma r1_price_bounds (val : Q) (p : PlayerState) :
  0 <= stack p -> 0 <= r1_price val p /\ r1_price val p <= stack p.
Proof.
  intros H. unfold r1_price. split; [|apply Q.le_min_r].
  apply Q.min_glb; [|exact H].
  eapply Qle_trans; [|apply Q.le_max_l]. discriminate.
Qed.

Lemma r2_price_bounds (val : Q) (p : PlayerState) :
  player_ok p -> 0 <= r2_price val p /\ r2_price val p <= stack p.
Proof.
  intros [H [H1 _]]. unfold r2_price. split; [|apply Q.le_min_r].
  apply Q.min_glb; [|exact H].
  eapply Qle_trans; [|apply Q.le_max_l]. lra.
Qed.

Lemma r3_price_bounds (val : Q) (p : PlayerState) :
  player_ok p -> 0 <= r3_price val p /\ r3_price val p <= stack p.
Proof.
  intros [H [_ [H2 _]]]. unfold r3_price. split; [|apply Q.le_min_r].
  apply Q.min_glb; [|exact H].
  eapply Qle_trans; [|apply Q.le_max_l]. lra.
Qed.

Lemma winning_cap_pos (p : PlayerState) : player_ok p -> 0 <= winning_cap p.
Proof.
  intros [_ [H1 [H2 H3]]]. unfold winning_cap, BUY_IN. lra.
Qed.

(** *** The relations keep the index and the sign of the amounts *)

Lemma afforded_index p p' : afforded p p' -> index p' = index p.
Proof. intros [->| ->]; reflexivity. Qed.

Lemma afforded_ok p p' : player_ok p -> afforded p p' -> player_ok p'.
Proof.
  intros H [->| ->]; [exact H|]. unfold player_ok in *. simpl.
  intuition. discriminate.
Qed.

Lemma acted_r1_index p p' : acted_r1 p p' -> index p' = index p.
Proof. intros [[wp ->] | [val [wp ->]]]; reflexivity. Qed.

Lemma acted_r1_ok p p' : player_ok p -> acted_r1 p p' -> player_ok p'.
Proof.
  intros H [[wp ->] | [val [wp ->]]]; [exact H|].
  destruct (r1_price_bounds val p) as [B1 B2]; [apply H|].
  unfold player_ok in *. simpl. intuition. lra.
Qed.

Lemma acted_r2_index p p' : acted_r2 p p' -> index p' = index p.
Proof. intros [val [wp ->]]; reflexivity. Qed.

Lemma acted_r2_ok p p' : player_ok p -> acted_r2 p p' -> player_ok p'.
Proof.
  intros H [val [wp ->]].
  destruct (r2_price_bounds val p H) as [B1 B2].
  unfold player_ok in *. simpl. intuition. lra.
Qed.

Lemma acted_r3_index p p' : acted_r3 p p' -> index p' = index p.
Proof. intros [val [wp ->]]; reflexivity. Qed.

Lemma acted_r3_ok p p' : player_ok p -> acted_r3 p p' -> player_ok p'.
Proof.
  intros H [val [wp ->]].
  destruct (r3_price_bounds val p H) as [B1 B2].
  unfold player_ok in *. simpl. intuition. lra.
Qed.

Lemma scored_index p p' : scored p p' -> index p' = index p.
Proof. intros [->| [s ->]]; reflexivity. Qed.

Lemma scored_ok p p' : player_ok p -> scored p p' -> player_ok p'.
Proof. intros H [->| [s ->]]; exact H. Qed.

Lemma paid_index sm p p' : paid sm p p' -> index p' = index p.
Proof. intros ->; reflexivity. Qed.

Lemma paid_ok sm p p' : 0 <= sm -> player_ok p -> paid sm p p' -> player_ok p'.
Proof.
  intros Hsm H ->. pose proof (winning_cap_pos p H) as Hc.
  assert (0 <= Qmin (winning_cap p) sm) by (apply Q.min_glb; assumption).
  unfold player_ok in *. simpl. intuition. lra.
Qed.

Lemma shared_index sh p p' : shared sh p p' -> index p' = index p.
Proof. intros ->; reflexivity. Qed.

Lemma shared_ok sh p p' : 0 <= sh -> player_ok p -> shared sh p p' -> player_ok p'.
Proof.
  intros Hsh H ->. unfold player_ok in *. simpl. intuition. lra.
Qed.

(** *** Each turn of a loop rewrites the player it handles *)

Lemma afford_step_touch (st : Afford) (idx : nat) :
  exists p',
    af_players (afford_step st idx) = set_player (af_players st) idx p'
    /\ afforded (player_at (af_players st) idx) p'.
Proof.
  unfold afford_step.
  destruct (Qltb (stack (player_at (af_players st) idx)) 100); simpl.
  - eexists. split; [reflexivity|]. right. reflexivity.
  - eexists. split; [symmetry; apply set_player_same|]. left. reflexivity.
Qed.

Lemma round1_step_touch vis cs n (st : Betting) (idx : nat) :
  exists p',
    b_players (round1_step treys_evaluate env game_num vis cs n st idx)
    = set_player (b_players st) idx p'
    /\ acted_r1 (player_at (b_players st) idx) p'.
Proof.
  unfold round1_step.
  destruct (round1 env game_num idx _ vis cs (b_pot st) _) as [action val].
  destruct (String.eqb action "fold"); simpl.
  - eexists. split; [reflexivity|]. left. eexists. reflexivity.
  - eexists. split; [reflexivity|]. right. exists val. eexists. reflexivity.
Qed.

Lemma round2_step_touch vis r1 cs n (st : Betting) (idx : nat) :
  exists p',
    b_players (round2_step treys_evaluate env game_num vis r1 cs n st idx)
    = set_player (b_players st) idx p'
    /\ acted_r2 (player_at (b_players st) idx) p'.
Proof.
  unfold round2_step. simpl.
  eexists. split; [reflexivity|]. eexists. eexists. reflexivity.
Qed.

Lemma round3_step_touch vis r1 r2 cs n (st : Betting) (idx : nat) :
  exists p',
    b_players (round3_step treys_evaluate env game_num vis r1 r2 cs n st idx)
    = set_player (b_players st) idx p'
    /\ acted_r3 (player_at (b_players st) idx) p'.
Proof.
  unfold round3_step. simpl.
  eexists. split; [reflexivity|]. eexists. eexists. reflexivity.
Qed.

Lemma showdown_step_touch community (st : Showdown) (idx : nat) :
  exists p',
    sd_players (showdown_step treys_evaluate community st idx)
    = set_player (sd_players st) idx p'
    /\ scored (player_at (sd_players st) idx) p'.
Proof.
  unfold showdown_step.
  destruct (has_folded (player_at (sd_players st) idx)); simpl.
  - eexists. split; [symmetry; apply set_player_same|]. left. reflexivity.
  - set (s := evaluate_hand _ _ _).
    exists (with_hand_score (player_at (sd_players st) idx) s).
    split; [|right; eexists; reflexivity].
    destruct (s <? sd_best_score st)%Z; [reflexivity|].
    destruct (s =? sd_best_score st)%Z; reflexivity.
Qed.

Lemma payout_step_touch n sm (st : Payout) (w : nat) :
  exists p',
    pay_players (payout_step n sm st w) = set_player (pay_players st) w p'
    /\ paid sm (player_at (pay_players st) w) p'.
Proof.
  unfold payout_step. simpl. eexists. split; reflexivity.
Qed.

Lemma share_step_touch sh (ps : list PlayerState) (idx : nat) :
  exists p',
    share_step sh ps idx = set_player ps idx p'
    /\ shared sh (player_at ps idx) p'.
Proof. unfold share_step. eexists. split; reflexivity. Qed.

End Loops.

Section LoopInvariants.

Import EngineCore Main Invariant.

Variable treys_evaluate : list card -> option Z.
Variable env : Env.
Variable game_num : nat.

(** *** Stacks, bets and pot stay non-negative *)

Lemma afford_loop_ok (l : list nat) (st : Afford) :
  Forall player_ok (af_players st) /\ 0 <= af_pot st ->
  Forall player_ok (af_players (fold_left afford_step l st))
  /\ 0 <= af_pot (fold_left afford_step l st).
Proof.
  apply (fold_left_inv
           (fun st => Forall player_ok (af_players st) /\ 0 <= af_pot st)).
  clear st. intros st idx [Hok Hpot].
  pose proof (player_at_ok (af_players st) idx Hok) as Hp.
  unfold afford_step.
  destruct (Qltb (stack (player_at (af_players st) idx)) 100); simpl.
  - split.
    + apply set_player_Forall; [exact Hok|].
      eapply afforded_ok; [exact Hp | right; reflexivity].
    + destruct Hp as [Hs _]. lra.
  - split; assumption.
Qed.

Lemma round1_loop_ok vis cs n (l : list nat) (st : Betting) :
  Forall player_ok (b_players st) /\ 0 <= b_pot st ->
  let st' := fold_left (round1_step treys_evaluate env game_num vis cs n) l st in
  Forall player_ok (b_players st') /\ 0 <= b_pot st'.
Proof.
  apply (fold_left_inv
           (fun st => Forall player_ok (b_players st) /\ 0 <= b_pot st)).
  clear st. intros st idx [Hok Hpot].
  pose proof (player_at_ok (b_players st) idx Hok) as Hp.
  destruct (round1_step_touch treys_evaluate env game_num vis cs n st idx)
    as [p' [Ep HR]].
  split.
  - rewrite Ep. apply set_player_Forall; [exact Hok|].
    eapply acted_r1_ok; eassumption.
  - unfold round1_step.
    destruct (round1 env game_num idx _ vis cs (b_pot st) _) as [action val].
    destruct (String.eqb action "fold"); simpl; [exact Hpot|].
    destruct (r1_price_bounds val (player_at (b_players st) idx)) as [B _];
      [apply Hp|]. unfold r1_price in B. lra.
Qed.

Lemma round2_loop_ok vis r1 cs n (l : list nat) (st : Betting) :
  Forall player_ok (b_players st) /\ 0 <= b_pot st ->
  let st' :=
    fold_left (round2_step treys_evaluate env game_num vis r1 cs n) l st in
  Forall player_ok (b_players st') /\ 0 <= b_pot st'.
Proof.
  apply (fold_left_inv
           (fun st => Forall player_ok (b_players st) /\ 0 <= b_pot st)).
  clear st. intros st idx [Hok Hpot].
  pose proof (player_at_ok (b_players st) idx Hok) as Hp.
  destruct (round2_step_touch treys_evaluate env game_num vis r1 cs n st idx)
    as [p' [Ep HR]].
  split.
  - rewrite Ep. apply set_player_Forall; [exact Hok|].
    eapply acted_r2_ok; eassumption.
  - unfold round2_step. simpl.
    match goal with |- 0 <= _ + ?x =>
      destruct (r2_price_bounds
                  (round2 env game_num idx
                     (hole_cards (player_at (b_players st) idx)) vis r1 cs
                     (b_pot st)
                     (equity treys_evaluate env game_num 2 idx
                        (hole_cards (player_at (b_players st) idx)) vis n))
                  (player_at (b_players st) idx) Hp) as [B _]
    end.
    unfold r2_price in B. lra.
Qed.

Lemma round3_loop_ok vis r1 r2 cs n (l : list nat) (st : Betting) :
  Forall player_ok (b_players st) /\ 0 <= b_pot st ->
  let st' :=
    fold_left (round3_step treys_evaluate env game_num vis r1 r2 cs n) l st in
  Forall player_ok (b_players st') /\ 0 <= b_pot st'.
Proof.
  apply (fold_left_inv
           (fun st => Forall player_ok (b_players st) /\ 0 <= b_pot st)).
  clear st. intros st idx [Hok Hpot].
  pose proof (player_at_ok (b_players st) idx Hok) as Hp.
  destruct (round3_step_touch treys_evaluate env game_num vis r1 r2 cs n st idx)
    as [p' [Ep HR]].
  split.
  - rewrite Ep. apply set_player_Forall; [exact Hok|].
    eapply acted_r3_ok; eassumption.
  - unfold round3_step. simpl.
    match goal with |- 0 <= _ + ?x =>
      destruct (r3_price_bounds
                  (round3 env game_num idx
                     (hole_cards (player_at (b_players st) idx)) vis r1 r2 cs
                     (b_pot st)
                     (equity treys_evaluate env game_num 3 idx
                        (hole_cards (player_at (b_players st) idx)) vis n))
                  (player_at (b_players st) idx) Hp) as [B _]
    end.
    unfold r3_price in B. lra.
Qed.

Lemma showdown_loop_ok community (l : list nat) (st : Showdown) :
  Forall player_ok (sd_players st) ->
  Forall player_ok
    (sd_players (fold_left (showdown_step treys_evaluate community) l st)).
Proof.
  apply (fold_left_inv (fun st => Forall player_ok (sd_players st))).
  clear st. intros st idx Hok.
  destruct (showdown_step_touch treys_evaluate community st idx)
    as [p' [Ep HR]].
  rewrite Ep. apply set_player_Forall; [exact Hok|].
  eapply scored_ok; [|exact HR]. apply player_at_ok. exact Hok.
Qed.

Lemma payout_loop_ok n sm (l : list nat) (st : Payout) :
  0 <= sm ->
  Forall player_ok (pay_players st) ->
  Forall player_ok (pay_players (fold_left (payout_step n sm) l st)).
Proof.
  intros Hsm.
  apply (fold_left_inv (fun st => Forall player_ok (pay_players st))).
  clear st. intros st idx Hok.
  destruct (payout_step_touch n sm st idx) as [p' [Ep HR]].
  rewrite Ep. apply set_player_Forall; [exact Hok|].
  eapply paid_ok; [exact Hsm | | exact HR]. apply player_at_ok. exact Hok.
Qed.

Lemma share_loop_ok sh (l : list nat) (ps : list PlayerState) :
  0 <= sh ->
  Forall player_ok ps ->
  Forall player_ok (fold_left (share_step sh) l ps).
Proof.
  intros Hsh.
  apply (fold_left_inv (fun ps => Forall player_ok ps)).
  clear ps. intros ps idx Hok.
  destruct (share_step_touch sh ps idx) as [p' [Ep HR]].
  rewrite Ep. apply set_player_Forall; [exact Hok|].
  eapply shared_ok; [exact Hsh | | exact HR]. apply player_at_ok. exact Hok.
Qed.

(** *** The lists of seats *)

Lemma seats_incl (n : nat) (l l' : list nat) :
  NoDup l' -> incl l' l -> seats n l -> seats n l'.
Proof.
  intros Hnd Hincl [_ Hl]. split; [exact Hnd|].
  rewrite Forall_forall in *. intros i Hi. apply Hl, Hincl, Hi.
Qed.

Lemma seats_filter (n : nat) (f : nat -> bool) (l : list nat) :
  seats n l -> seats n (filter f l).
Proof.
  intros H. eapply seats_incl; [| |exact H].
  - apply NoDup_filter, H.
  - intros i Hi. apply filter_In in Hi. apply Hi.
Qed.

(** The seats that can afford round 1 are seats that bought in, each once. *)
Lemma afford_loop_seats (l : list nat) :
  forall st : Afford,
    NoDup (af_round1_active_indices st ++ l) ->
    NoDup (af_round1_active_indices (fold_left afford_step l st))
    /\ incl (af_round1_active_indices (fold_left afford_step l st))
         (af_round1_active_indices st ++ l).
Proof.
  induction l as [|x l IH]; intros st Hnd; simpl.
  - rewrite app_nil_r in *. split; [exact Hnd | apply incl_refl].
  - unfold afford_step at 2 4.
    destruct (Qltb (stack (player_at (af_players st) x)) 100).
    + destruct (IH (mkAfford (set_player (af_players st) x
                                (eliminate (player_at (af_players st) x)))
                      (af_pot st + stack (player_at (af_players st) x))
                      (af_round1_active_indices st))) as [H1 H2].
      { simpl. eapply NoDup_remove_1. exact Hnd. }
      split; [exact H1|]. simpl in H2.
      intros i Hi. apply H2 in Hi. apply in_app_or in Hi.
      apply in_or_app. destruct Hi; [left|right; right]; assumption.
    + destruct (IH (mkAfford (af_players st) (af_pot st)
                      (af_round1_active_indices st ++ [x]))) as [H1 H2].
      { simpl. rewrite <- app_assoc. exact Hnd. }
      split; [exact H1|]. simpl in H2. rewrite <- app_assoc in H2. exact H2.
Qed.

(** The winners are seats that bought in, each once. *)
Lemma showdown_loop_seats community (l : list nat) :
  forall st : Showdown,
    NoDup (sd_winners st ++ l) ->
    let st' := fold_left (showdown_step treys_evaluate community) l st in
    NoDup (sd_winners st') /\ incl (sd_winners st') (sd_winners st ++ l).
Proof.
  induction l as [|x l IH]; intros st Hnd; simpl.
  - rewrite app_nil_r in *. split; [exact Hnd | apply incl_refl].
  - assert (Hl : NoDup (x :: l)) by (eapply NoDup_app_remove_l; exact Hnd).
    assert (Hcases :
      let s := showdown_step treys_evaluate community st x in
      sd_winners s = sd_winners st \/ sd_winners s = sd_winners st ++ [x]
      \/ sd_winners s = [x]).
    { unfold showdown_step.
      destruct (has_folded (player_at (sd_players st) x)); simpl; [left; reflexivity|].
      destruct (_ <? _)%Z; [right; right; reflexivity|].
      destruct (_ =? _)%Z; [right; left; reflexivity | left; reflexivity]. }
    simpl in Hcases.
    destruct (IH (showdown_step treys_evaluate community st x)) as [H1 H2].
    { destruct Hcases as [E|[E|E]]; rewrite E.
      - eapply NoDup_remove_1. exact Hnd.
      - rewrite <- app_assoc. exact Hnd.
      - exact Hl. }
    split; [exact H1|].
    intros i Hi. apply H2 in Hi. apply in_app_or in Hi. apply in_or_app.
    destruct Hcases as [E|[E|E]]; rewrite E in Hi.
    + destruct Hi; [left|right; right]; assumption.
    + destruct Hi as [Hi|Hi]; [|right; right; exact Hi].
      apply in_app_or in Hi. destruct Hi as [Hi|[Hi|[]]];
        [left; exact Hi | right; left; exact Hi].
    + destruct Hi as [[Hi|[]]|Hi]; [right; left; exact Hi | right; right; exact Hi].
Qed.

(** *** The log of the payouts *)

Lemma payout_loop_log n sm (ps0 : list PlayerState) (l : list nat) :
  forall st : Payout,
    (forall i, winning_cap (player_at (pay_players st) i)
               = winning_cap (player_at ps0 i)) ->
    let st' := fold_left (payout_step n sm) l st in
    pay_paid st'
    = pay_paid st
      ++ map (fun w => (w, Qmin (winning_cap (player_at ps0 w)) sm)) l
    /\ pay_total_win st'
       == pay_total_win st
          + sumQ (map (fun w => Qmin (winning_cap (player_at ps0 w)) sm) l)
    /\ List.length (pay_no_of_wins st') = List.length (pay_no_of_wins st).
Proof.
  induction l as [|w l IH]; intros st Hcap; simpl.
  - rewrite app_nil_r. split; [reflexivity|]. split; [ring|reflexivity].
  - destruct (IH (payout_step n sm st w)) as [H1 [H2 H3]].
    { intros i. rewrite <- Hcap. unfold payout_step. simpl.
      destruct (Nat.eq_dec w i) as [->|Hne].
      - destruct (Nat.lt_ge_cases i (List.length (pay_players st))) as [Hi|Hi].
        + rewrite player_at_set_same by exact Hi. reflexivity.
        + unfold player_at, set_player.
          rewrite !nth_overflow; [reflexivity | lia |].
          rewrite list_update_length. lia.
      - rewrite player_at_set_other by exact Hne. reflexivity. }
    rewrite H1, H2, H3. unfold payout_step at 1 2 3. simpl.
    fold (winning_cap (player_at (pay_players st) w)). rewrite Hcap.
    split; [rewrite <- app_assoc; reflexivity|].
    split; [ring | apply list_update_length].
Qed.

End LoopInvariants.

Section BuyIn.

Import EngineCore Main Invariant.

Lemma pop_some (deck : list card) :
  (1 <= List.length deck)%nat ->
  exists c deck',
    pop deck = Some (c, deck') /\ List.length deck = S (List.length deck').
Proof.
  intros H. unfold pop.
  pose proof (length_rev deck) as Hr.
  destruct (rev deck) as [|c r]; simpl in Hr; [lia|].
  exists c, (rev r). split; [reflexivity|]. rewrite length_rev. lia.
Qed.

Lemma pop_n_some (n : nat) :
  forall deck : list card,
    (n <= List.length deck)%nat ->
    exists cs deck', pop_n n deck = Some (cs, deck') /\ List.length cs = n.
Proof.
  induction n as [|n IH]; intros deck H; simpl.
  - exists [], deck. split; reflexivity.
  - destruct (pop_some deck) as [c [deck' [Ep El]]]; [lia|]. rewrite Ep.
    destruct (IH deck') as [cs [deck'' [Epn Ecs]]]; [lia|]. rewrite Epn.
    exists (c :: cs), deck''. split; [reflexivity|]. simpl. lia.
Qed.

(** A deck that holds two cards for every player serves the buy-in loop. *)
Lemma buy_in_loop_total (todo : list PlayerState) :
  forall (pot : Q) (deck : list card),
    (2 * List.length todo <= List.length deck)%nat ->
    exists r0,
      buy_in_loop todo pot deck = Some r0
      /\ (List.length deck <= List.length (r0_deck r0) + 2 * List.length todo)%nat.
Proof.
  induction todo as [|p rest IH]; intros pot deck H; simpl in *.
  - eexists. split; [reflexivity|]. simpl. lia.
  - destruct (is_lost_match p).
    + destruct (IH pot deck) as [r [E L]]; [lia|]. rewrite E.
      eexists. split; [reflexivity|]. simpl. lia.
    + destruct (Qltb (stack p) BUY_IN).
      * destruct (IH (pot + stack p) deck) as [r [E L]]; [lia|]. rewrite E.
        eexists. split; [reflexivity|]. simpl. lia.
      * destruct (pop_some deck) as [c1 [d1 [E1 L1]]]; [lia|]. rewrite E1.
        destruct (pop_some d1) as [c2 [d2 [E2 L2]]]; [lia|]. rewrite E2.
        destruct (IH (pot + BUY_IN) d2) as [r [E L]]; [lia|]. rewrite E.
        eexists. split; [reflexivity|]. simpl. lia.
Qed.

Lemma buy_in_loop_facts (todo : list PlayerState) :
  forall (pot : Q) (deck : list card) (r0 : Round0),
    buy_in_loop todo pot deck = Some r0 ->
    Forall2 bought_in todo (r0_players r0)
    /\ r0_active_players_indices r0 = map index (filter funded todo)
    /\ (Forall player_ok todo -> 0 <= pot ->
        Forall player_ok (r0_players r0) /\ 0 <= r0_pot r0).
Proof.
  induction todo as [|p rest IH]; intros pot deck r0 H; simpl in H.
  - inversion H; subst; clear H. simpl.
    split; [constructor|]. split; [reflexivity|]. intros _ Hp.
    split; [constructor | exact Hp].
  - unfold funded. simpl filter.
    destruct (is_lost_match p) eqn:El.
    + destruct (buy_in_loop rest pot deck) as [r|] eqn:E; [|discriminate].
      inversion H; subst; clear H. simpl.
      destruct (IH _ _ _ E) as [F [A K]].
      split; [constructor; [|exact F]|].
      { unfold bought_in. simpl. rewrite El. repeat split; reflexivity. }
      split; [exact A|]. intros Hok Hp. inversion Hok as [|? ? Hp0 Hrest]; subst.
      destruct (K Hrest Hp) as [K1 K2]. split; [|exact K2].
      constructor; [|exact K1]. unfold player_ok in *. simpl.
      intuition; discriminate.
    + simpl negb. rewrite andb_true_l.
      destruct (Qltb (stack p) BUY_IN) eqn:Es.
      * destruct (buy_in_loop rest (pot + stack p) deck) as [r|] eqn:E;
          [|discriminate].
        inversion H; subst; clear H. simpl.
        destruct (IH _ _ _ E) as [F [A K]].
        split; [constructor; [|exact F]|].
        { unfold bought_in. simpl. rewrite El, Es. repeat split; reflexivity. }
        split; [exact A|]. intros Hok Hp.
        inversion Hok as [|? ? Hp0 Hrest]; subst.
        destruct K as [K1 K2]; [exact Hrest | destruct Hp0; lra |].
        split; [|exact K2].
        constructor; [|exact K1]. unfold player_ok. simpl.
        repeat split; discriminate.
      * destruct (pop deck) as [[c1 d1]|]; [|discriminate].
        destruct (pop d1) as [[c2 d2]|]; [|discriminate].
        destruct (buy_in_loop rest (pot + BUY_IN) d2) as [r|] eqn:E;
          [|discriminate].
        inversion H; subst; clear H. simpl.
        destruct (IH _ _ _ E) as [F [A K]].
        split; [constructor; [|exact F]|].
        { unfold bought_in. simpl. rewrite El, Es. repeat split; reflexivity. }
        split; [rewrite A; reflexivity|]. intros Hok Hp.
        inversion Hok as [|? ? Hp0 Hrest]; subst.
        destruct K as [K1 K2]; [exact Hrest | unfold BUY_IN; lra |].
        split; [|exact K2].
        constructor; [|exact K1]. unfold player_ok. simpl.
        apply Qltb_ge in Es.
        repeat split; try discriminate. lra.
Qed.

Lemma bought_in_index (ps ps' : list PlayerState) :
  Forall2 bought_in ps ps' -> map index ps' = map index ps.
Proof.
  induction 1 as [|p p' ps ps' H _ IH]; simpl; [reflexivity|].
  destruct H as [H _]. rewrite H, IH. reflexivity.
Qed.

Lemma NoDup_map_filter {A B : Type} (g : A -> B) (f : A -> bool) (l : list A) :
  NoDup (map g l) -> NoDup (map g (filter f l)).
Proof.
  induction l as [|x l IH]; simpl; intros H; [constructor|].
  inversion H as [|? ? Hx Hl]; subst.
  destruct (f x); simpl; [constructor|]; auto.
  intros C. apply Hx. apply in_map_iff in C. destruct C as [y [Ey Hy]].
  apply filter_In in Hy. apply in_map_iff. exists y. tauto.
Qed.

Lemma funded_seats (ps : list PlayerState) :
  well_indexed ps ->
  seats (List.length ps) (map index (filter funded ps)).
Proof.
  intros Hwi. split.
  - apply NoDup_map_filter. rewrite Hwi. apply seq_NoDup.
  - apply Forall_forall. intros i Hi. apply in_map_iff in Hi.
    destruct Hi as [p [Ep Hp]]. apply filter_In in Hp. destruct Hp as [Hp _].
    assert (Hin : In i (map index ps)) by (apply in_map_iff; exists p; tauto).
    rewrite Hwi in Hin. apply in_seq in Hin. lia.
Qed.

End BuyIn.

Section HandOk.

Import EngineCore Main Invariant.

Variable treys_evaluate : list card -> option Z.
Variable env : Env.
Variable game_num : nat.

Lemma moved_of_touch {S : Type} (pl : S -> list PlayerState)
  (step : S -> nat -> S) (R : PlayerState -> PlayerState -> Prop)
  (l : list nat) (st : S) :
  (forall st idx, exists p',
      pl (step st idx) = set_player (pl st) idx p'
      /\ R (player_at (pl st) idx) p') ->
  seats (List.length (pl st)) l ->
  moved R l (pl st) (pl (fold_left step l st)).
Proof.
  intros Hstep Hs.
  destruct (fold_touch pl step R Hstep l st Hs) as [_ [H1 H2]].
  split; assumption.
Qed.

Lemma table_ok_step (ms : MatchState) {S : Type} (pl : S -> list PlayerState)
  (step : S -> nat -> S) (R : PlayerState -> PlayerState -> Prop)
  (l : list nat) (st : S) :
  (forall st idx, exists p',
      pl (step st idx) = set_player (pl st) idx p'
      /\ R (player_at (pl st) idx) p') ->
  (forall p p', R p p' -> index p' = index p) ->
  map index (pl st) = map index (players ms) ->
  map index (pl (fold_left step l st)) = map index (players ms).
Proof.
  intros Hstep Hidx H.
  destruct (fold_touch_wf pl step R Hstep Hidx l st) as [E _].
  rewrite E. exact H.
Qed.

Lemma length_of_index (ps qs : list PlayerState) :
  map index ps = map index qs -> List.length ps = List.length qs.
Proof.
  intros H. rewrite <- (length_map index ps), H. apply length_map.
Qed.

Lemma table_ok_wf (ms : MatchState) (ps : list PlayerState) :
  well_indexed (players ms) ->
  table_ok ms ps ->
  well_indexed ps /\ List.length ps = List.length (players ms).
Proof.
  intros Hwi [Hidx _]. pose proof (length_of_index _ _ Hidx) as Hl.
  split; [|exact Hl]. unfold well_indexed in *. rewrite Hidx, Hl. exact Hwi.
Qed.

Lemma wf_of_table (ms : MatchState) (ps : list PlayerState)
  (h : list RoundHistory) (wins : list Q) :
  wf_match ms ->
  table_ok ms ps ->
  List.length wins = List.length (no_of_wins ms) ->
  wf_match (mkMatchState ps h wins).
Proof.
  intros [Hwi [Hok [Hw Hs]]] T Hl.
  destruct (table_ok_wf ms ps Hwi T) as [W L].
  unfold wf_match; simpl. rewrite L.
  split; [exact W|]. split; [apply T|]. split; [lia | exact Hs].
Qed.

Lemma moved_single (a : Q) (ps : list PlayerState) (w : nat) :
  (w < List.length ps)%nat ->
  moved (shared a) [w] ps
    (set_player ps w
       (with_stack (player_at ps w) (stack (player_at ps w) + a))).
Proof.
  intros Hw. split.
  - intros i [<-|[]]. rewrite player_at_set_same by exact Hw. reflexivity.
  - intros i Hi. apply player_at_set_other. intros ->. apply Hi. left.
    reflexivity.
Qed.

Lemma length_one {A : Type} (l : list A) :
  List.length l = 1%nat -> exists x, l = [x].
Proof.
  destruct l as [|x [|y l]]; simpl; intros H; try discriminate.
  exists x. reflexivity.
Qed.

Lemma sumQ_min_le (f : nat -> Q) (sm : Q) (l : list nat) :
  sumQ (map (fun w => Qmin (f w) sm) l) <= Qnat (List.length l) * sm.
Proof.
  induction l as [|w l IH]; unfold sumQ in *; cbn [map fold_right List.length].
  - change (0 <= 0 * sm). lra.
  - rewrite Qnat_S. pose proof (Q.le_min_r (f w) sm). lra.
Qed.

Lemma play_hand_ok (ms ms' : MatchState) (tr : HandTrace) :
  wf_match ms ->
  play_hand treys_evaluate env game_num ms = Some (ms', tr) ->
  hand_ok ms ms' tr.
Proof.
  intros Hwf H. pose proof Hwf as [Hwi [Hok [Hwins Hsize]]].
  unfold play_hand in H.
  destruct (buy_in_loop (players ms) 0 _) as [r0|] eqn:E0; [|discriminate].
  destruct (pop_n 5 (r0_deck r0)) as [[community deck']|] eqn:Ec;
    [|discriminate].
  assert (Hcom : List.length community = 5%nat).
  { destruct (pop_n_some 5 (r0_deck r0)) as [cs [d [E L]]].
    - destruct (Nat.le_gt_cases 5 (List.length (r0_deck r0))) as [G|G];
        [exact G|].
      exfalso. clear - Ec G. revert Ec.
      assert (K : forall n d, (List.length d < n)%nat -> pop_n n d = None).
      { induction n as [|n IH]; intros d Hd; [lia|]. simpl.
        unfold pop at 1. pose proof (length_rev d) as Hr.
        destruct (rev d) as [|c r] eqn:Er; [reflexivity|].
        rewrite IH; [reflexivity|]. rewrite length_rev. simpl in Hr. lia. }
      rewrite K by exact G. discriminate.
    - rewrite E in Ec. inversion Ec; subst. exact L. }
  destruct (buy_in_loop_facts _ _ _ _ E0) as [HF2 [Hact Hk]].
  destruct Hk as [Hok0 Hpot0]; [exact Hok | lra |].
  pose proof (bought_in_index _ _ HF2) as Hidx0.
  pose proof (length_of_index _ _ Hidx0) as Hlen0.
  pose proof (funded_seats _ Hwi) as Hseats. rewrite <- Hact in Hseats.
  assert (T : table_ok ms (players ms)) by (split; [reflexivity | exact Hok]).
  assert (T0 : table_ok ms (r0_players r0)) by (split; assumption).
  cbv zeta in H.
  destruct (Nat.ltb_spec (List.length (r0_active_players_indices r0)) 2)
    as [E2|E2].
  { inversion H; subst; clear H. unfold halt.
    constructor; simpl; try assumption; try reflexivity.
    - apply (wf_of_table ms); [assumption | assumption | reflexivity].
    - unfold snapshots; simpl.
      repeat (apply Forall_cons; [assumption|]). apply Forall_nil.
    - unfold outcome_ok, halt_ok; simpl.
      split; [exact E2 | repeat split; reflexivity]. }
  (* round 1 *)
  set (af := afford_loop r0) in *.
  set (b1 := round1_loop _ _ _ _ _ _ _) in *.
  set (post := post_fold af b1) in *.
  destruct (afford_loop_ok (r0_active_players_indices r0)
              (mkAfford (r0_players r0) (r0_pot r0) []))
    as [Hok_af Hpot_af]; [split; assumption|]. fold (afford_loop r0) in *.
  fold af in Hok_af, Hpot_af.
  assert (Taf : table_ok ms (af_players af)).
  { split; [|exact Hok_af].
    apply (table_ok_step ms af_players afford_step afforded);
      [apply afford_step_touch | apply afforded_index | exact Hidx0]. }
  assert (Maf : moved afforded (r0_active_players_indices r0) (r0_players r0)
                  (af_players af)).
  { apply (moved_of_touch af_players afford_step afforded
             (r0_active_players_indices r0)
             (mkAfford (r0_players r0) (r0_pot r0) []));
      [apply afford_step_touch|]. simpl. rewrite Hlen0. exact Hseats. }
  destruct (afford_loop_seats (r0_active_players_indices r0)
              (mkAfford (r0_players r0) (r0_pot r0) []))
    as [Hnd1 Hin1]; [apply Hseats|]. fold (afford_loop r0) in *.
  fold af in Hnd1, Hin1. simpl in Hin1.
  assert (S1 : seats (List.length (players ms)) (af_round1_active_indices af))
    by (eapply seats_incl; eassumption).
  destruct (table_ok_wf ms _ Hwi Taf) as [Waf Laf].
  destruct (round1_loop_ok treys_evaluate env game_num
              (py_slice community 0 3) (stacks_of (r0_players r0))
              (List.length (af_round1_active_indices af))
              (af_round1_active_indices af)
              (mkBetting (af_players af) (af_pot af) (zeros (players ms))))
    as [Hok_b1 Hpot_b1]; [split; assumption|].
  fold (round1_loop treys_evaluate env game_num ms community r0 af) in *.
  fold b1 in Hok_b1, Hpot_b1.
  assert (Tb1 : table_ok ms (b_players b1)).
  { split; [|exact Hok_b1].
    apply (table_ok_step ms b_players _ acted_r1);
      [apply round1_step_touch | apply acted_r1_index | exact (proj1 Taf)]. }
  assert (Mb1 : moved acted_r1 (af_round1_active_indices af) (af_players af)
                  (b_players b1)).
  { apply (moved_of_touch b_players _ acted_r1
             (af_round1_active_indices af)
             (mkBetting (af_players af) (af_pot af) (zeros (players ms))));
      [apply round1_step_touch|]. simpl. rewrite Laf. exact S1. }
  destruct (table_ok_wf ms _ Hwi Tb1) as [Wb1 Lb1].
  assert (S2 : seats (List.length (players ms)) post)
    by (apply seats_filter; exact S1).
  assert (R1 : round1_ok ms
                 (snd (early_win ms community r0 af b1 post))).
  { unfold round1_ok, early_win; simpl.
    repeat split; try assumption; try apply Maf; try apply Mb1; apply S1. }
  destruct (Nat.eqb_spec (List.length post) 1) as [E1|E1].
  { (* early win *)
    inversion H; subst; clear H.
    destruct (length_one post E1) as [w Ew].
    assert (Ew0 : nth 0 post O = w) by (rewrite Ew; reflexivity).
    assert (Hw : (w < List.length (b_players b1))%nat).
    { rewrite Lb1. destruct S2 as [_ F]. rewrite Ew in F.
      inversion F; assumption. }
    set (a := Qmin (4 * (BUY_IN + current_bet_r1 (player_at (b_players b1) w)))
                (b_pot b1)).
    assert (Ha : 0 <= a).
    { apply Q.min_glb; [|exact Hpot_b1].
      destruct (player_at_ok (b_players b1) w Hok_b1) as [_ [B _]].
      unfold BUY_IN. lra. }
    assert (Tp : table_ok ms
                   (set_player (b_players b1) w
                      (with_stack (player_at (b_players b1) w)
                         (stack (player_at (b_players b1) w) + a)))).
    { split.
      - rewrite set_player_index by reflexivity. apply Tb1.
      - apply set_player_Forall; [exact Hok_b1|].
        eapply shared_ok; [exact Ha | | reflexivity].
        apply player_at_ok. exact Hok_b1. }
    unfold early_win. cbv zeta. rewrite Ew0. fold a.
    constructor; simpl; try assumption; try reflexivity.
    - apply (wf_of_table ms); [assumption | assumption |].
      apply list_update_length.
    - unfold snapshots; simpl.
      repeat (apply Forall_cons; [assumption|]). apply Forall_nil.
    - unfold outcome_ok; simpl. split; [exact R1|].
      unfold early_win_ok; simpl. exists w.
      repeat split; try reflexivity; try exact Ew;
        apply moved_single; exact Hw. }
  destruct (Nat.eqb_spec (List.length post) 0) as [E0'|E0'].
  { (* nobody left *)
    inversion H; subst; clear H. unfold no_round2 in *.
    constructor; simpl; try assumption; try reflexivity.
    - apply (wf_of_table ms); [assumption | assumption | reflexivity].
    - unfold snapshots; simpl.
      repeat (apply Forall_cons; [assumption|]). apply Forall_nil.
    - unfold outcome_ok; simpl. split; [exact R1|].
      unfold no_round2_ok; simpl.
      destruct post; [|discriminate]. repeat split; reflexivity. }
  (* rounds 2 and 3 *)
  set (b2 := round2_loop _ _ _ _ _ _ _ _) in *.
  set (b3 := round3_loop _ _ _ _ _ _ _ _) in *.
  set (sd := showdown_loop _ _ _ _) in *.
  destruct (round2_loop_ok treys_evaluate env game_num
              (py_slice community 0 4) (b_bets b1) (stacks_of (r0_players r0))
              (List.length post) post
              (mkBetting (b_players b1) (b_pot b1) (zeros (players ms))))
    as [Hok_b2 Hpot_b2]; [split; assumption|].
  fold (round2_loop treys_evaluate env game_num ms community r0 b1 post) in *.
  fold b2 in Hok_b2, Hpot_b2.
  assert (Tb2 : table_ok ms (b_players b2)).
  { split; [|exact Hok_b2].
    apply (table_ok_step ms b_players _ acted_r2);
      [apply round2_step_touch | apply acted_r2_index | exact (proj1 Tb1)]. }
  assert (Mb2 : moved acted_r2 post (b_players b1) (b_players b2)).
  { apply (moved_of_touch b_players _ acted_r2 post
             (mkBetting (b_players b1) (b_pot b1) (zeros (players ms))));
      [apply round2_step_touch|]. simpl. rewrite Lb1. exact S2. }
  destruct (table_ok_wf ms _ Hwi Tb2) as [Wb2 Lb2].
  destruct (round3_loop_ok treys_evaluate env game_num community (b_bets b1)
              (b_bets b2) (stacks_of (r0_players r0)) (List.length post) post
              b2)
    as [Hok_b3 Hpot_b3]; [split; assumption|].
  fold (round3_loop treys_evaluate env game_num community r0 b1 b2 post) in *.
  fold b3 in Hok_b3, Hpot_b3.
  assert (Tb3 : table_ok ms (b_players b3)).
  { split; [|exact Hok_b3].
    apply (table_ok_step ms b_players _ acted_r3);
      [apply round3_step_touch | apply acted_r3_index | exact (proj1 Tb2)]. }
  assert (Mb3 : moved acted_r3 post (b_players b2) (b_players b3)).
  { apply (moved_of_touch b_players _ acted_r3 post b2);
      [apply round3_step_touch|]. rewrite Lb2. exact S2. }
  destruct (table_ok_wf ms _ Hwi Tb3) as [Wb3 Lb3].
  (* showdown *)
  pose proof (showdown_loop_ok treys_evaluate community
                (r0_active_players_indices r0)
                (mkShowdown (b_players b3) 7463 [] []) Hok_b3) as Hok_sd.
  fold (showdown_loop treys_evaluate community r0 b3) in Hok_sd.
  fold sd in Hok_sd.
  assert (Tsd : table_ok ms (sd_players sd)).
  { split; [|exact Hok_sd].
    apply (table_ok_step ms sd_players _ scored);
      [apply showdown_step_touch | apply scored_index | exact (proj1 Tb3)]. }
  assert (Msd : moved scored (r0_active_players_indices r0) (b_players b3)
                  (sd_players sd)).
  { apply (moved_of_touch sd_players _ scored (r0_active_players_indices r0)
             (mkShowdown (b_players b3) 7463 [] []));
      [apply showdown_step_touch|]. simpl. rewrite Lb3. exact Hseats. }
  destruct (table_ok_wf ms _ Hwi Tsd) as [Wsd Lsd].
  destruct (showdown_loop_seats treys_evaluate community
              (r0_active_players_indices r0)
              (mkShowdown (b_players b3) 7463 [] []))
    as [Hndw Hinw]; [apply Hseats|].
  fold (showdown_loop treys_evaluate community r0 b3) in Hndw, Hinw.
  fold sd in Hndw, Hinw. simpl in Hinw.
  assert (Sw : seats (List.length (players ms)) (sd_winners sd))
    by (eapply seats_incl; eassumption).
  assert (B : betting_ok ms
                (snd (no_winner ms community r0 af b1 b2 b3 sd post))).
  { unfold betting_ok, no_winner; simpl.
    repeat split; try assumption;
      try apply Mb2; try apply Mb3; try apply Msd; try apply S2. lia. }
  destruct (sd_winners sd) as [|w0 ws] eqn:Ewin.
  { inversion H; subst; clear H. unfold no_winner in *.
    constructor; simpl; try assumption; try reflexivity.
    - apply (wf_of_table ms); [assumption | assumption | reflexivity].
    - unfold snapshots; simpl.
      repeat (apply Forall_cons; [assumption|]). apply Forall_nil.
    - unfold outcome_ok; simpl. split; [exact R1|]. split; [exact B|].
      unfold no_winner_ok; simpl. repeat split; reflexivity. }
  (* the payouts *)
  rewrite <- Ewin in *.
  assert (Hnw : (1 <= List.length (sd_winners sd))%nat)
    by (rewrite Ewin; simpl; lia).
  set (sm := b_pot b3 / Qnat (List.length (sd_winners sd))).
  assert (Hsm : 0 <= sm).
  { unfold sm. apply Qle_shift_div_l; [apply Qnat_pos; lia|]. lra. }
  set (pay := payout_loop ms (b_pot b3) sd).
  assert (Epay : pay
                 = fold_left
                     (payout_step (List.length (sd_winners sd)) sm)
                     (sd_winners sd)
                     (mkPayout (sd_players sd) (no_of_wins ms) 0 []))
    by reflexivity.
  destruct (payout_loop_log (List.length (sd_winners sd)) sm (sd_players sd)
              (sd_winners sd)
              (mkPayout (sd_players sd) (no_of_wins ms) 0 []))
    as [Hlog [Htot Hwl]]; [reflexivity|].
  rewrite <- Epay in Hlog, Htot, Hwl. simpl in Hlog, Htot, Hwl.
  pose proof (payout_loop_ok (List.length (sd_winners sd)) sm (sd_winners sd)
                (mkPayout (sd_players sd) (no_of_wins ms) 0 []) Hsm Hok_sd)
    as Hok_pay.
  rewrite <- Epay in Hok_pay.
  assert (Tpay : table_ok ms (pay_players pay)).
  { split; [|exact Hok_pay]. rewrite Epay.
    apply (table_ok_step ms pay_players _ (paid sm));
      [apply payout_step_touch | apply paid_index | exact (proj1 Tsd)]. }
  assert (Mpay : moved (paid sm) (sd_winners sd) (sd_players sd)
                   (pay_players pay)).
  { rewrite Epay.
    apply (moved_of_touch pay_players _ (paid sm) (sd_winners sd)
             (mkPayout (sd_players sd) (no_of_wins ms) 0 []));
      [apply payout_step_touch|]. simpl. rewrite Lsd. exact Sw. }
  destruct (table_ok_wf ms _ Hwi Tpay) as [Wpay Lpay].
  assert (Htotal : pay_total_win pay == sumQ (amounts (pay_paid pay))).
  { rewrite Htot, Hlog. unfold amounts. rewrite map_map. simpl.
    apply Qplus_0_l. }
  assert (Hle : pay_total_win pay <= b_pot b3).
  { rewrite Htot.
    eapply Qle_trans;
      [apply Qplus_le_r, (sumQ_min_le
                            (fun w => winning_cap (player_at (sd_players sd) w)))|].
    unfold sm. field_simplify; [lra|].
    intros C. pose proof (Qnat_pos (List.length (sd_winners sd))) as P.
    rewrite C in P. specialize (P ltac:(lia)). lra. }
  injection H as H. unfold allocate in H. cbv zeta in H.
  change (payout_loop ms (b_pot b3) sd) with pay in H.
  assert (Hpost : exists i0 rest, post = i0 :: rest).
  { destruct post as [|i0 rest] eqn:Epost; [simpl in E0'; lia|].
    exists i0, rest. reflexivity. }
  destruct Hpost as [i0 [rest Epost]].
  assert (Hmatch : forall (X : Type) (a : X) (b : list nat -> X),
             match post with [] => a | _ :: _ => b post end = b post)
    by (intros; rewrite Epost; reflexivity).
  destruct (Qltb 0 (b_pot b3 - pay_total_win pay)) eqn:Erem.
  - set (share := (b_pot b3 - pay_total_win pay) / Qnat (List.length post))
      in *.
    assert (Hshare : 0 <= share).
    { unfold share. apply Qle_shift_div_l.
      - apply Qnat_pos. rewrite Epost. simpl. lia.
      - apply Qltb_lt in Erem. lra. }
    pose proof (share_loop_ok share post (pay_players pay) Hshare Hok_pay)
      as Hok_fin.
    assert (Tfin : table_ok ms (fold_left (share_step share) post
                                  (pay_players pay))).
    { split; [|exact Hok_fin].
      apply (table_ok_step ms (fun ps => ps) _ (shared share));
        [apply share_step_touch | apply shared_index | exact (proj1 Tpay)]. }
    assert (Mfin : moved (shared share) post (pay_players pay)
                     (fold_left (share_step share) post (pay_players pay))).
    { apply (moved_of_touch (fun ps => ps) _ (shared share) post
               (pay_players pay)); [apply share_step_touch|].
      rewrite Lpay. exact S2. }
    assert (H' : (mkMatchState
                    (fold_left (share_step share) post (pay_players pay))
                    (match_history ms
                     ++ [mkRoundHistory (sd_round_history sd) community
                           (b_pot b3)])
                    (pay_no_of_wins pay),
                  mkHandTrace ShowdownPaid ms
                    (mkMatchState
                       (fold_left (share_step share) post (pay_players pay))
                       (match_history ms
                        ++ [mkRoundHistory (sd_round_history sd) community
                              (b_pot b3)])
                       (pay_no_of_wins pay))
                    community (r0_active_players_indices r0)
                    (af_round1_active_indices af) post (b_pot b3)
                    (r0_players r0) (af_players af) (b_players b1)
                    (b_players b2) (b_players b3) (sd_players sd)
                    (pay_players pay) (sd_winners sd) (pay_paid pay)
                    (pay_total_win pay) (b_pot b3 - pay_total_win pay)
                    (map (fun i => (i, share)) post))
                 = (ms', tr)).
    { rewrite <- H. rewrite Epost. reflexivity. }
    clear H. injection H' as <- <-.
    constructor; simpl; try assumption; try reflexivity.
    + apply (wf_of_table ms); [assumption | assumption | exact Hwl].
    + unfold snapshots; simpl.
      repeat (apply Forall_cons; [assumption|]). apply Forall_nil.
    + unfold outcome_ok; simpl. split; [exact R1|]. split; [exact B|].
      unfold showdown_ok; simpl. rewrite Erem. fold share.
      split; [rewrite Ewin; discriminate|].
      repeat split; try assumption; try apply Mpay; try apply Mfin;
        try apply Sw.
      eexists. repeat split; reflexivity.
  - injection H as <- <-.
    constructor; simpl; try assumption; try reflexivity.
    + apply (wf_of_table ms); [assumption | assumption | exact Hwl].
    + unfold snapshots; simpl.
      repeat (apply Forall_cons; [assumption|]). apply Forall_nil.
    + unfold outcome_ok; simpl. split; [exact R1|]. split; [exact B|].
      unfold showdown_ok; simpl. rewrite Erem.
      split; [rewrite Ewin; discriminate|].
      repeat split; try assumption; try apply Mpay; try apply Sw.
      eexists. repeat split; reflexivity.
Qed.

End HandOk.

Section MatchOk.

Import EngineCore Main Invariant.

Variable treys_evaluate : list card -> option Z.
Variable env : Env.

(** A turn of the game loop never runs out of cards. *)
Lemma play_hand_total (game_num : nat) (ms : MatchState) :
  wf_match ms ->
  exists ms' tr, play_hand treys_evaluate env game_num ms = Some (ms', tr).
Proof.
  intros [_ [_ [_ Hsize]]]. unfold play_hand.
  destruct (buy_in_loop_total (players ms) 0
              (shuffle (deck_draws env game_num) create_deck))
    as [r0 [E0 L0]].
  { rewrite shuffle_length, create_deck_length. lia. }
  rewrite shuffle_length, create_deck_length in L0.
  cbv zeta. rewrite E0.
  destruct (pop_n_some 5 (r0_deck r0)) as [cs [d [Ec _]]]; [lia|].
  rewrite Ec.
  destruct (_ <? 2)%nat; [eexists; eexists; reflexivity|].
  destruct (_ =? 1)%nat; [eexists; eexists; reflexivity|].
  destruct (_ =? 0)%nat; [eexists; eexists; reflexivity|].
  destruct (sd_winners _).
  - eexists; eexists; reflexivity.
  - match goal with
    | |- exists ms' tr, Some ?x = Some (ms', tr) =>
        exists (fst x), (snd x); destruct x; reflexivity
    end.
Qed.

Lemma game_loop_ok (games : list nat) :
  forall ms : MatchState,
    wf_match ms ->
    exists ms' trs,
      game_loop treys_evaluate env games ms = Some (ms', trs)
      /\ wf_match ms'
      /\ Forall played trs
      /\ chained ms trs ms'.
Proof.
  induction games as [|g rest IH]; intros ms Hwf; simpl.
  - exists ms, []. split; [reflexivity|]. split; [assumption|].
    split; [constructor | reflexivity].
  - destruct (play_hand_total g ms Hwf) as [ms1 [tr E]]. rewrite E.
    pose proof (play_hand_ok treys_evaluate env g ms ms1 tr Hwf E) as Hh.
    pose proof (ok_before _ _ _ Hh) as Eb.
    pose proof (ok_after _ _ _ Hh) as Ea.
    assert (Hp : played tr).
    { unfold played. rewrite Eb, Ea. split; assumption. }
    destruct (tr_outcome tr) eqn:Eo;
      try (destruct (IH ms1 (ok_wf _ _ _ Hh)) as [ms2 [trs [E2 [W2 [F2 C2]]]]];
           rewrite E2; exists ms2, (tr :: trs);
           split; [reflexivity|]; split; [exact W2|];
           split; [constructor; assumption|];
           simpl; rewrite Eo, Ea; split; assumption).
    exists ms1, [tr]. split; [reflexivity|]. split; [exact (ok_wf _ _ _ Hh)|].
    split; [constructor; [assumption | constructor]|].
    simpl. rewrite Eo, Ea. split; [assumption|]. split; reflexivity.
Qed.

Lemma initial_match_wf : wf_match initial_match.
Proof.
  unfold wf_match, initial_match, initial_players. simpl.
  repeat split; try reflexivity; try lia.
  repeat constructor; discriminate.
Qed.

(** The match runs to its end, and every turn of its game loop is one the
    lemmas above describe. *)
Lemma play_match_ok :
  exists ms trs,
    play_match treys_evaluate env = Some (ms, trs)
    /\ Forall played trs
    /\ chained initial_match trs ms.
Proof.
  destruct (game_loop_ok (seq 1 NUM_GAMES) initial_match initial_match_wf)
    as [ms [trs [E [_ [F C]]]]].
  exists ms, trs. split; [exact E|]. split; assumption.
Qed.

End MatchOk.

(** ** The claims about the match *)

Section Claims.

Import EngineCore Main Invariant.

Lemma chained_halt_last (trs : list HandTrace) :
  forall (ms ms' : MatchState) (k : nat) (tr : HandTrace),
    chained ms trs ms' ->
    nth_error trs k = Some tr ->
    tr_outcome tr = Halt ->
    S k = List.length trs /\ ms' = tr_after tr.
Proof.
  induction trs as [|t rest IH]; intros ms ms' k tr Hc Hk Ho.
  - destruct k; discriminate.
  - destruct Hc as [_ Hc]. destruct k as [|k]; simpl in Hk.
    + inversion Hk; subst. rewrite Ho in Hc. destruct Hc as [Er Em].
      rewrite Er. split; [reflexivity | exact Em].
    + destruct (tr_outcome t);
        try (destruct (IH _ _ _ _ Hc Hk Ho) as [E1 E2]; split;
             [simpl; rewrite E1; reflexivity | exact E2]).
      destruct Hc as [Er _]. rewrite Er in Hk. destruct k; discriminate.
Qed.

Lemma played_not_halt (tr : HandTrace) :
  played tr ->
  tr_outcome tr <> Halt ->
  round1_ok (tr_before tr) tr.
Proof.
  intros [_ H] Ho. pose proof (ok_outcome _ _ _ H) as O.
  unfold outcome_ok in O. destruct (tr_outcome tr); try tauto.
Qed.

Lemma played_tables (tr : HandTrace) (ps : list PlayerState) :
  played tr ->
  In ps (snapshots tr) ->
  Forall player_ok ps /\ well_indexed ps
  /\ List.length ps = List.length (players (tr_before tr)).
Proof.
  intros [Hwf H] Hin. pose proof (ok_tables _ _ _ H) as T.
  rewrite Forall_forall in T. specialize (T ps Hin).
  destruct (table_ok_wf _ _ (proj1 Hwf) T) as [W L].
  split; [apply T|]. split; assumption.
Qed.

Lemma credited_cons (i w : nat) (a : Q) (log : list (nat * Q)) :
  credited i ((w, a) :: log)
  == (if Nat.eqb w i then a else 0) + credited i log.
Proof.
  unfold credited. simpl. destruct (Nat.eqb w i); simpl.
  - reflexivity.
  - symmetry. apply Qplus_0_l.
Qed.

Lemma credited_out (f : nat -> Q) (l : list nat) (i : nat) :
  ~ In i l -> credited i (map (fun w => (w, f w)) l) == 0.
Proof.
  induction l as [|w l IH]; intros Hi; [reflexivity|].
  cbn [map]. rewrite credited_cons, IH by (intros C; apply Hi; right; exact C).
  destruct (Nat.eqb_spec w i) as [Ew|Ew];
    [exfalso; apply Hi; left; exact Ew | ring].
Qed.

Lemma credited_in (f : nat -> Q) (l : list nat) (i : nat) :
  NoDup l -> In i l -> credited i (map (fun w => (w, f w)) l) == f i.
Proof.
  induction l as [|w l IH]; intros Hnd Hi; [destruct Hi|].
  inversion Hnd as [|? ? Hw Hl]; subst.
  cbn [map]. rewrite credited_cons.
  destruct (Nat.eqb_spec w i) as [Ew|Ew].
  - subst w. rewrite credited_out by exact Hw. ring.
  - destruct Hi as [Hi|Hi]; [contradiction|]. rewrite IH by assumption. ring.
Qed.

Lemma sumQ_const (c : Q) (l : list nat) :
  sumQ (map (fun _ => c) l) == Qnat (List.length l) * c.
Proof.
  induction l as [|x l IH]; unfold sumQ in *; cbn [map fold_right List.length].
  - change (0 == 0 * c). ring.
  - rewrite Qnat_S, IH. ring.
Qed.

Variable treys_evaluate : list card -> option Z.
Variable env : Env.

(** C8.  A stack is never negative: in every state the players go through
    in a turn of the game loop (before it, after the buy-ins and the
    forfeits, after the bets of rounds 1, 2 and 3, after the payouts and
    after the redistribution) every stack is at least 0. *)
Theorem stacks_never_negative :
  exists ms trs,
    play_match treys_evaluate env = Some (ms, trs)
    /\ Forall (fun tr => Forall stacks_nonneg (snapshots tr)) trs.
Proof.
  destruct (play_match_ok treys_evaluate env) as [ms [trs [E [F _]]]].
  exists ms, trs. split; [exact E|].
  eapply Forall_impl; [|exact F]. intros tr Hp.
  apply Forall_forall. intros ps Hin.
  apply player_ok_stacks. apply (played_tables tr ps Hp Hin).
Qed.

(** C10.  When fewer than two players can post the buy-in, the match halts
    at that turn: it is the last turn of the game loop, the match ends in the
    state the buy-in loop left, nothing is paid or shared, no win is credited
    and no history entry is written; the stack of a player who posted the
    buy-in stays reduced by it. *)
Theorem halt_keeps_buy_in :
  exists ms trs,
    play_match treys_evaluate env = Some (ms, trs)
    /\ forall k tr,
         nth_error trs k = Some tr ->
         (List.length (filter funded (players (tr_before tr))) < 2)%nat ->
         tr_outcome tr = Halt
         /\ S k = List.length trs
         /\ ms = tr_after tr
         /\ tr_paid tr = [] /\ tr_shares tr = []
         /\ match_history ms = match_history (tr_before tr)
         /\ no_of_wins ms = no_of_wins (tr_before tr)
         /\ Forall2 bought_in (players (tr_before tr)) (players ms).
Proof.
  destruct (play_match_ok treys_evaluate env) as [ms [trs [E [F C]]]].
  exists ms, trs. split; [exact E|]. intros k tr Hk Hfew.
  assert (Hp : played tr).
  { rewrite Forall_forall in F. apply F. eapply nth_error_In. exact Hk. }
  destruct Hp as [Hwf H].
  pose proof (ok_active _ _ _ H) as Hact.
  assert (Ho : tr_outcome tr = Halt).
  { destruct (tr_outcome tr) eqn:Eo; [reflexivity| | | |];
      exfalso;
      (assert (R : round1_ok (tr_before tr) tr)
         by (apply played_not_halt; [split; assumption | rewrite Eo; discriminate]));
      destruct R as [R _]; rewrite Hact, length_map in R; lia. }
  destruct (chained_halt_last trs _ _ k tr C Hk Ho) as [Hlast Hms].
  pose proof (ok_outcome _ _ _ H) as O. unfold outcome_ok in O.
  rewrite Ho in O. destruct O as [_ [_ [_ [P [S A]]]]].
  pose proof (ok_buy_in _ _ _ H) as B.
  rewrite Hms, A. simpl.
  repeat split; try assumption; try reflexivity.
Qed.



Lemma r2_price_spec (val : Q) (p : PlayerState) :
  0 <= current_bet_r1 p ->
  let lo := current_bet_r1 p * (1 # 2) in
  let hi := current_bet_r1 p * (3 # 2) in
  r2_price val p <= hi
  /\ r2_price val p <= stack p
  /\ (lo <= stack p -> lo <= r2_price val p)
  /\ (stack p < lo -> r2_price val p == stack p).
Proof.
  intros H1 lo hi. unfold r2_price. fold lo hi.
  assert (Hc : lo <= Qmax lo (Qmin hi val) /\ Qmax lo (Qmin hi val) <= hi).
  { split; [apply Q.le_max_l|].
    apply Q.max_lub; [unfold lo, hi; lra | apply Q.le_min_l]. }
  destruct Hc as [Hlo Hhi].
  split; [eapply Qle_trans; [apply Q.le_min_l | exact Hhi]|].
  split; [apply Q.le_min_r|].
  split.
  - intros Hs. apply Q.min_glb; assumption.
  - intros Hs. apply Q.min_r. lra.
Qed.

Lemma r3_price_spec (val : Q) (p : PlayerState) :
  0 <= current_bet_r2 p ->
  let lo := current_bet_r2 p * (3 # 4) in
  let hi := current_bet_r2 p * (5 # 4) in
  r3_price val p <= hi
  /\ r3_price val p <= stack p
  /\ (lo <= stack p -> lo <= r3_price val p)
  /\ (stack p < lo -> r3_price val p == stack p).
Proof.
  intros H1 lo hi. unfold r3_price. fold lo hi.
  assert (Hc : lo <= Qmax lo (Qmin hi val) /\ Qmax lo (Qmin hi val) <= hi).
  { split; [apply Q.le_max_l|].
    apply Q.max_lub; [unfold lo, hi; lra | apply Q.le_min_l]. }
  destruct Hc as [Hlo Hhi].
  split; [eapply Qle_trans; [apply Q.le_min_l | exact Hhi]|].
  split; [apply Q.le_min_r|].
  split.
  - intros Hs. apply Q.min_glb; assumption.
  - intros Hs. apply Q.min_r. lra.
Qed.

(** C4, as the program has it.  A bet applied in round 2 (round 3) is at
    most 1.5 times the player's own round-1 bet (1.25 times the own round-2
    bet) and at most the stack the player had before the round, and it is
    debited from that stack; it is at least 0.5 times the round-1 bet (0.75
    times the round-2 bet) whenever that stack covers this lower bound, and
    it is the whole stack otherwise. *)
Theorem late_bets_within_bounds_or_all_in :
  exists ms trs,
    play_match treys_evaluate env = Some (ms, trs)
    /\ Forall
         (fun tr =>
            tr_outcome tr = NoWinner \/ tr_outcome tr = ShowdownPaid ->
            forall i, In i (tr_round2_active_indices tr) ->
              let p1 := player_at (tr_players_round1 tr) i in
              let p2 := player_at (tr_players_round2 tr) i in
              let p3 := player_at (tr_players_round3 tr) i in
              let bet1 := current_bet_r1 p1 in
              let bet2 := current_bet_r2 p2 in
              let bet3 := final_round_bet p3 in
              (bet2 <= bet1 * (3 # 2)
               /\ bet2 <= stack p1
               /\ stack p2 = stack p1 - bet2
               /\ (bet1 * (1 # 2) <= stack p1 -> bet1 * (1 # 2) <= bet2)
               /\ (stack p1 < bet1 * (1 # 2) -> bet2 == stack p1))
              /\ (bet3 <= bet2 * (5 # 4)
                  /\ bet3 <= stack p2
                  /\ stack p3 = stack p2 - bet3
                  /\ (bet2 * (3 # 4) <= stack p2 -> bet2 * (3 # 4) <= bet3)
                  /\ (stack p2 < bet2 * (3 # 4) -> bet3 == stack p2)))
         trs.
Proof.
  destruct (play_match_ok treys_evaluate env) as [ms [trs [E [F _]]]].
  exists ms, trs. split; [exact E|].
  eapply Forall_impl; [|exact F]. intros tr Hp Eo i Hi. cbv zeta.
  pose proof Hp as [Hwf H].
  pose proof (ok_outcome _ _ _ H) as O. unfold outcome_ok in O.
  assert (B : betting_ok (tr_before tr) tr)
    by (destruct Eo as [Eo|Eo]; rewrite Eo in O; apply O).
  destruct B as [_ [_ [[M2 _] [[M3 _] _]]]].
  specialize (M2 i Hi). specialize (M3 i Hi).
  destruct (played_tables tr (tr_players_round1 tr) Hp) as [Ok1 _];
    [unfold snapshots; simpl; tauto|].
  destruct (played_tables tr (tr_players_round2 tr) Hp) as [Ok2 _];
    [unfold snapshots; simpl; tauto|].
  pose proof (player_at_ok _ i Ok1) as [_ [Hb1 _]].
  pose proof (player_at_ok _ i Ok2) as [_ [_ [Hb2 _]]].
  destruct M2 as [v2 [wp2 E2]]. destruct M3 as [v3 [wp3 E3]].
  split.
  - rewrite E2. simpl.
    destruct (r2_price_spec v2 _ Hb1) as [A1 [A2 [A3 A4]]].
    repeat split; assumption.
  - rewrite E3. simpl.
    destruct (r3_price_spec v3 _ Hb2) as [A1 [A2 [A3 A4]]].
    repeat split; assumption.
Qed.

(** C1, as the program has it.  In every turn of the game loop the payouts
    sum to at most the pot.  When the turn reaches the payouts of the
    showdown, payouts and redistributed shares sum to the pot, and the stack
    of every seat grows from the showdown to the end of the turn by what the
    two logs give it.  The shares are those of an even split: the seats
    active entering round 2 are the seats of round 1 that did not fold
    there, at least two of them; the remainder is the pot less the payouts;
    when it is positive every one of these seats is given the remainder
    divided by their number, and nobody is given anything otherwise.  An
    early win pays the single capped amount and shares nothing. *)
Theorem payouts_within_pot :
  exists ms trs,
    play_match treys_evaluate env = Some (ms, trs)
    /\ Forall
         (fun tr =>
            sumQ (amounts (tr_paid tr)) <= tr_pot tr
            /\ (tr_outcome tr = ShowdownPaid ->
                sumQ (amounts (tr_paid tr)) + sumQ (amounts (tr_shares tr))
                == tr_pot tr
                /\ (forall i,
                      stack (player_at (players (tr_after tr)) i)
                      == stack (player_at (tr_players_showdown tr) i)
                         + credited i (tr_paid tr)
                         + credited i (tr_shares tr))
                /\ tr_round2_active_indices tr
                   = filter
                       (fun i =>
                          negb (has_folded
                                  (player_at (tr_players_round1 tr) i)))
                       (tr_round1_active_indices tr)
                /\ (2 <= List.length (tr_round2_active_indices tr))%nat
                /\ tr_remaining_pot tr
                   == tr_pot tr - sumQ (amounts (tr_paid tr))
                /\ tr_shares tr
                   = if Qltb 0 (tr_remaining_pot tr)
                     then map
                            (fun i =>
                               (i, tr_remaining_pot tr
                                   / Qnat (List.length
                                             (tr_round2_active_indices tr))))
                            (tr_round2_active_indices tr)
                     else [])
            /\ (tr_outcome tr = EarlyWin ->
                tr_shares tr = []
                /\ exists w,
                     tr_paid tr
                     = [(w, Qmin (4 * (BUY_IN
                                       + current_bet_r1
                                           (player_at (tr_players_round1 tr) w)))
                              (tr_pot tr))]))
         trs.
Proof.
  destruct (play_match_ok treys_evaluate env) as [ms [trs [E [F _]]]].
  exists ms, trs. split; [exact E|].
  eapply Forall_impl; [|exact F]. intros tr Hp.
  pose proof Hp as [Hwf H].
  pose proof (ok_outcome _ _ _ H) as O. unfold outcome_ok in O.
  pose proof (ok_pot _ _ _ H) as Hpot.
  destruct (tr_outcome tr) eqn:Eo.
  - destruct O as [_ [_ [_ [P [S _]]]]]. rewrite P.
    split; [exact Hpot|]. split; discriminate.
  - destruct O as [_ [w [_ [_ [P [S _]]]]]]. rewrite P.
    split; [|split; [discriminate|]].
    + unfold amounts, sumQ. simpl. rewrite Qplus_0_r. apply Q.le_min_r.
    + intros _. split; [exact S|]. exists w. reflexivity.
  - destruct O as [_ [_ [P _]]]. rewrite P.
    split; [exact Hpot|]. split; discriminate.
  - destruct O as [_ [_ [_ [P _]]]]. rewrite P.
    split; [exact Hpot|]. split; discriminate.
  - destruct O as [R1 [[Hr2 [S2 _]] [Hw [Sw [_ [[P Mp] [Ht [Hr [Hs _]]]]]]]]].
    destruct R1 as [_ [_ [_ [_ [_ R2a]]]]].
    cbv zeta in Hs.
    set (n := List.length (tr_winners tr)) in *.
    set (sm := tr_pot tr / Qnat n) in *.
    assert (Hn : 0 < Qnat n).
    { apply Qnat_pos. unfold n. destruct (tr_winners tr); [contradiction|].
      simpl. lia. }
    assert (Hsum : sumQ (amounts (tr_paid tr)) <= tr_pot tr).
    { rewrite P. unfold amounts. rewrite map_map. simpl.
      eapply Qle_trans;
        [apply (sumQ_min_le
                  (fun w => winning_cap (player_at (tr_players_showdown tr) w)))|].
      fold n. unfold sm. field_simplify; [lra | lra]. }
    split; [exact Hsum|]. split; [|discriminate]. intros _.
    assert (Hrem : tr_remaining_pot tr
                   == tr_pot tr - sumQ (amounts (tr_paid tr)))
      by (rewrite Hr, Ht; reflexivity).
    assert (Hsh : tr_shares tr
                  = if Qltb 0 (tr_remaining_pot tr)
                    then map
                           (fun i =>
                              (i, tr_remaining_pot tr
                                  / Qnat (List.length
                                            (tr_round2_active_indices tr))))
                           (tr_round2_active_indices tr)
                    else [])
      by (destruct (Qltb 0 (tr_remaining_pot tr)); apply Hs).
    refine ((fun G => conj (proj1 G)
                        (conj (proj2 G)
                           (conj R2a (conj Hr2 (conj Hrem Hsh))))) _).
    clear Hrem Hsh.
    assert (Hm : 0 < Qnat (List.length (tr_round2_active_indices tr)))
      by (apply Qnat_pos; lia).
    set (share := tr_remaining_pot tr
                  / Qnat (List.length (tr_round2_active_indices tr))) in *.
    destruct (Qltb 0 (tr_remaining_pot tr)) eqn:Er.
    + destruct Hs as [Hs Ms]. split.
      * rewrite Hs. unfold amounts at 2. rewrite map_map. simpl.
        rewrite sumQ_const. unfold share. rewrite Hr, <- Ht.
        field. lra.
      * intros i. rewrite Hs, P.
        destruct (in_dec Nat.eq_dec i (tr_winners tr)) as [Iw|Iw];
          destruct (in_dec Nat.eq_dec i (tr_round2_active_indices tr))
            as [Ir|Ir].
        -- rewrite credited_in by (assumption || apply Sw).
           rewrite credited_in by (assumption || apply S2).
           destruct Ms as [Ms _]. rewrite (Ms i Ir).
           destruct Mp as [Mp _]. rewrite (Mp i Iw). simpl. reflexivity.
        -- rewrite credited_in by (assumption || apply Sw).
           rewrite credited_out by assumption.
           destruct Ms as [_ Ms]. rewrite (Ms i Ir).
           destruct Mp as [Mp _]. rewrite (Mp i Iw). simpl. ring.
        -- rewrite credited_out by assumption.
           rewrite credited_in by (assumption || apply S2).
           destruct Ms as [Ms _]. rewrite (Ms i Ir).
           destruct Mp as [_ Mp]. rewrite (Mp i Iw). simpl. ring.
        -- rewrite !credited_out by assumption.
           destruct Ms as [_ Ms]. rewrite (Ms i Ir).
           destruct Mp as [_ Mp]. rewrite (Mp i Iw). ring.
    + destruct Hs as [Hs Ms]. apply Qltb_ge in Er. split.
      * rewrite Hs. unfold amounts at 2. simpl.
        rewrite Hr, Ht in Er. lra.
      * intros i. rewrite Hs, P, Ms.
        change (credited i []) with 0.
        destruct (in_dec Nat.eq_dec i (tr_winners tr)) as [Iw|Iw].
        -- rewrite credited_in by (assumption || apply Sw).
           destruct Mp as [Mp _]. rewrite (Mp i Iw). simpl. ring.
        -- rewrite credited_out by assumption.
           destruct Mp as [_ Mp]. rewrite (Mp i Iw). ring.
Qed.

End Claims.

(** ** The program on concrete runs *)

Section Runs.

Import EngineCore Main Invariant Category Scenario Stated.

(** C1 fails as stated.  In the match of [capped_early_win_env] the tenth
    turn of the game loop is an early win: seats 0 to 3 forfeit 75 each after
    the buy-ins, seat 4 alone bets 100, the pot is 900, the payout is capped
    at 4 * (100 + 100) = 800, nothing is redistributed, and the hand is
    written to the history.  In the match of [all_fold_env] the first turn
    ends with nobody left after round 1: the pot of 500 is paid to nobody and
    the hand is written to the history. *)
Lemma early_win_leaves_pot_unallocated :
  match hand 10 (play_match category_evaluate capped_early_win_env) with
  | Some tr =>
      tr_outcome tr = EarlyWin
      /\ completed tr
      /\ tr_pot tr == 900
      /\ sumQ (amounts (tr_paid tr)) == 800
      /\ tr_shares tr = []
      /\ ~ pot_fully_allocated tr
  | None => False
  end
  /\ match hand 1 (play_match category_evaluate all_fold_env) with
     | Some tr =>
         tr_outcome tr = NoRound2
         /\ completed tr
         /\ tr_pot tr == 500
         /\ tr_paid tr = [] /\ tr_shares tr = []
         /\ ~ pot_fully_allocated tr
     | None => False
     end.
Proof.
  split.
  - lazy. repeat split; try reflexivity. intros [_ H]. discriminate H.
  - lazy. repeat split; try reflexivity. intros [_ H]. discriminate H.
Qed.

(** C4 fails as stated.  In the match of [short_stack_env] seat 4 enters
    the eighth turn with 300: after the buy-in it bets its last 200 in round
    1, and the bet applied in round 2 is 0, below 0.5 * 200. *)
Lemma short_stack_bets_below_lower_bound :
  match hand 8 (play_match category_evaluate short_stack_env) with
  | Some tr =>
      tr_outcome tr = ShowdownPaid
      /\ In 4%nat (tr_round2_active_indices tr)
      /\ current_bet_r1 (player_at (tr_players_round1 tr) 4) == 200
      /\ stack (player_at (tr_players_round1 tr) 4) == 0
      /\ current_bet_r2 (player_at (tr_players_round2 tr) 4) == 0
      /\ ~ round2_bet_in_bounds tr 4
  | None => False
  end.
Proof.
  lazy. repeat split; try reflexivity.
  - right. left. reflexivity.
  - intros [H _]. apply H. reflexivity.
Qed.

(** C2 on the program.  In the match of [eliminated_winner_env] seat 4
    enters the eighth turn with 112.5: it buys in, is eliminated before round
    1 for a stack of 12.5, and wins the showdown the four other seats bet up
    to, although it was not active entering round 2. *)
Lemma eliminated_seat_wins_showdown :
  match hand 8 (play_match category_evaluate eliminated_winner_env) with
  | Some tr =>
      tr_outcome tr = ShowdownPaid
      /\ tr_active_players_indices tr = [0; 1; 2; 3; 4]%nat
      /\ tr_round1_active_indices tr = [0; 1; 2; 3]%nat
      /\ tr_round2_active_indices tr = [0; 1; 2; 3]%nat
      /\ is_lost_match (player_at (tr_players_afford tr) 4) = true
      /\ tr_winners tr = [4%nat]
      /\ ~ winners_reached_river tr
  | None => False
  end.
Proof.
  lazy. repeat split; try reflexivity.
  intros H. specialize (H 4%nat (or_introl eq_refl)).
  repeat (destruct H as [H|H]; [discriminate H|]). exact H.
Qed.

(** C3 on the program.  In the same match seat 4 is marked eliminated in
    the eighth turn with a stack of 0, is paid 400 at the showdown of that
    turn, and ends the match eliminated with a stack of 400. *)
Lemma eliminated_seat_keeps_payout :
  match hand 8 (play_match category_evaluate eliminated_winner_env) with
  | Some tr =>
      is_lost_match (player_at (tr_players_afford tr) 4) = true
      /\ stack (player_at (tr_players_afford tr) 4) == 0
      /\ is_lost_match (player_at (players (tr_after tr)) 4) = true
      /\ stack (player_at (players (tr_after tr)) 4) == 400
  | None => False
  end
  /\ is_lost_match
       (player_at
          (final_players (play_match category_evaluate eliminated_winner_env))
          4) = true
  /\ stack
       (player_at
          (final_players (play_match category_evaluate eliminated_winner_env))
          4) == 400
  /\ ~ eliminated_have_nothing
         (final_players (play_match category_evaluate eliminated_winner_env)).
Proof.
  assert (Hl : is_lost_match
                 (player_at
                    (final_players
                       (play_match category_evaluate eliminated_winner_env))
                    4) = true) by (lazy; reflexivity).
  assert (Hs : stack
                 (player_at
                    (final_players
                       (play_match category_evaluate eliminated_winner_env))
                    4) == 400) by (lazy; reflexivity).
  split; [lazy; repeat split; reflexivity|].
  split; [exact Hl|]. split; [exact Hs|].
  intros H. unfold eliminated_have_nothing in H. rewrite Forall_forall in H.
  assert (Hin : In (player_at
                      (final_players
                         (play_match category_evaluate eliminated_winner_env))
                      4)
                  (final_players
                     (play_match category_evaluate eliminated_winner_env))).
  { apply nth_In. lazy. lia. }
  specialize (H _ Hin Hl). rewrite Hs in H. discriminate H.
Qed.

(** A halt on the program: after the early win of the tenth turn only
    seat 4 can post the buy-in; the eleventh turn takes 100 from its stack,
    halts, and the match ends with that stack. *)
Example halt_after_sole_buy_in :
  match hand 11 (play_match category_evaluate capped_early_win_env) with
  | Some tr =>
      tr_outcome tr = Halt
      /\ tr_active_players_indices tr = [4%nat]
      /\ stack (player_at (players (tr_before tr)) 4) == 49900
      /\ stack (player_at (players (tr_after tr)) 4) == 49800
      /\ tr_pot tr == 100
  | None => False
  end
  /\ hand 12 (play_match category_evaluate capped_early_win_env) = None
  /\ stack
       (player_at
          (final_players (play_match category_evaluate capped_early_win_env))
          4) == 49800.
Proof. lazy. repeat split; reflexivity. Qed.

End Runs.

(** ** The stand-in evaluator keeps the contract of [treys] *)

Section CategoryContract.

Import EngineCore Category.

Lemma all_some_map {A B : Type} (f : A -> option B) (l : list A) :
  (forall x, In x l -> exists y, f x = Some y) ->
  exists ys, all_some (map f l) = Some ys.
Proof.
  induction l as [|x l IH]; intros H; simpl.
  - exists []. reflexivity.
  - destruct (H x (or_introl eq_refl)) as [y Ey]. rewrite Ey.
    destruct IH as [ys Eys]; [intros z Hz; apply H; right; exact Hz|].
    rewrite Eys. exists (y :: ys). reflexivity.
Qed.

Lemma deck_cards_parse (c : card) :
  In c get_clean_deck ->
  (exists r, rank_of c = Some r) /\ (exists s, suit_of c = Some s).
Proof.
  intros H. simpl in H.
  repeat (destruct H as [<-|H];
          [split; eexists; reflexivity|]).
  destruct H.
Qed.

Lemma category_evaluate_contract : treys_contract category_evaluate.
Proof.
  intros combo Hlen _ Hincl. unfold category_evaluate. rewrite Hlen.
  simpl negb. cbv iota.
  destruct (all_some_map rank_of combo) as [ranks Er];
    [intros c Hc; apply deck_cards_parse, Hincl, Hc|].
  destruct (all_some_map suit_of combo) as [suits Es];
    [intros c Hc; apply deck_cards_parse, Hincl, Hc|].
  rewrite Er, Es. eexists. split; [reflexivity|].
  unfold SENTINEL.
  repeat match goal with
         | |- context [if ?b then _ else _] => destruct b
         end; lia.
Qed.

End CategoryContract.

(** C9 at a concrete input: the hero holds the ace of hearts and the king of
    diamonds on a flop of three cards, alone, with three trials requested. *)
Lemma equity_alone_is_one_at_flop :
  EngineCore.treys_contract Category.category_evaluate
  /\ EngineCore.calculate_multiplayer_equity Category.category_evaluate
       (fun _ => []) ["Ah"; "Kd"] ["2c"; "7d"; "9s"] 1 3 == 1.
Proof.
  split; [exact category_evaluate_contract|].
  apply (equity_alone_is_one Category.category_evaluate (fun _ => [])
           ["Ah"; "Kd"] ["2c"; "7d"; "9s"] 3 category_evaluate_contract).
  - reflexivity.
  - simpl. tauto.
  - apply distinct_NoDup. reflexivity.
  - intros c Hc. apply mem_true_iff.
    simpl in Hc.
    repeat (destruct Hc as [<-|Hc]; [reflexivity|]). destruct Hc.
  - lia.
Defined.

(** ** The estimator against the words of the specification *)

Section EstimatorWords.

Import EngineCore.

Variable treys_evaluate : list card -> option Z.

Lemma filter_length_cons {A : Type} (x : A) (k : nat) (l : list (list A)) :
  filter (fun c => Nat.eqb (List.length c) (S k)) (map (cons x) l)
  = map (cons x) (filter (fun c => Nat.eqb (List.length c) k) l).
Proof.
  induction l as [|c l IH]; [reflexivity|]. cbn [map filter List.length].
  change (Nat.eqb (S (List.length c)) (S k))
    with (Nat.eqb (List.length c) k).
  destruct (Nat.eqb (List.length c) k); cbn [map]; rewrite IH; reflexivity.
Qed.

Lemma filter_length_cons_0 {A : Type} (x : A) (l : list (list A)) :
  filter (fun c => Nat.eqb (List.length c) 0) (map (cons x) l) = [].
Proof.
  induction l as [|c l IH]; [reflexivity|]. cbn [map filter List.length].
  exact IH.
Qed.

(** [itertools.combinations(l, k)] yields the sublists of [k] elements. *)
Lemma combinations_sublists {A : Type} (l : list A) :
  forall k : nat,
    combinations l k
    = filter (fun c => Nat.eqb (List.length c) k) (EquitySpec.sublists l).
Proof.
  induction l as [|x xs IH]; intros [|k]; try reflexivity.
  - cbn [EquitySpec.sublists combinations].
    rewrite filter_app, filter_length_cons_0, <- IH.
    destruct xs; reflexivity.
  - cbn [EquitySpec.sublists combinations].
    rewrite filter_app, filter_length_cons, <- !IH. reflexivity.
Qed.

Lemma fold_min_init (s b : Z) (l : list Z) :
  fold_right Z.min (Z.min s b) l = Z.min s (fold_right Z.min b l).
Proof.
  induction l as [|x l IH]; [reflexivity|]. cbn [fold_right].
  rewrite IH. lia.
Qed.

(** The loop of [evaluate_best_hand] keeps the lowest score the evaluator
    gives. *)
Lemma fold_best_step_lowest (l : list (list card)) :
  forall b : Z,
    fold_left (best_step treys_evaluate) l b
    = fold_right Z.min b (EquitySpec.scores treys_evaluate l).
Proof.
  induction l as [|c l IH]; intros b; [reflexivity|].
  cbn [fold_left EquitySpec.scores]. rewrite IH. unfold best_step.
  destruct (treys_evaluate c) as [s|]; [|reflexivity].
  cbn [fold_right]. rewrite <- fold_min_init. f_equal.
  destruct (Z.ltb_spec s b); lia.
Qed.

Lemma evaluate_best_hand_best_score (cards : list card) :
  evaluate_best_hand treys_evaluate cards
  = EquitySpec.best_score treys_evaluate cards.
Proof.
  unfold evaluate_best_hand, EquitySpec.best_score, EquitySpec.lowest,
    EquitySpec.five_of.
  rewrite combinations_sublists. apply fold_best_step_lowest.
Qed.

Lemma best_score_le (cards : list card) :
  (EquitySpec.best_score treys_evaluate cards <= SENTINEL)%Z.
Proof.
  rewrite <- evaluate_best_hand_best_score. apply fold_best_step_le.
Qed.

(** [min] of a non-empty list of scores none of which exceeds the sentinel. *)
Lemma list_min_lowest (d : Z) (l : list Z) :
  l <> [] ->
  Forall (fun s => (s <= SENTINEL)%Z) l ->
  list_min d l = EquitySpec.lowest l.
Proof.
  destruct l as [|x l]; [congruence|]. intros _ H.
  unfold list_min, EquitySpec.lowest.
  assert (G : forall m : Z,
             fold_left (fun m y => if (y <? m)%Z then y else m) l m
             = fold_right Z.min m l).
  { clear. induction l as [|y l IH]; intros m; [reflexivity|].
    cbn [fold_left fold_right]. rewrite IH.
    replace (if (y <? m)%Z then y else m) with (Z.min y m)
      by (destruct (Z.ltb_spec y m); lia).
    apply fold_min_init. }
  rewrite G. cbn [fold_right].
  inversion H as [|? ? Hx Hl]; subst.
  replace x with (Z.min x EquitySpec.NO_HAND) at 1
    by (unfold EquitySpec.NO_HAND, SENTINEL in *; lia).
  apply fold_min_init.
Qed.

Lemma py_slice_pair {A : Type} (l : list A) (a : nat) :
  (a + 2 <= List.length l)%nat ->
  py_slice l (Z.of_nat a) (Z.of_nat a + 2) = firstn 2 (skipn a l).
Proof.
  intros H. unfold py_slice.
  rewrite !slice_bound_in_range by lia.
  replace (Z.to_nat (Z.of_nat a + 2 - Z.of_nat a)) with 2%nat by lia.
  rewrite Nat2Z.id. reflexivity.
Qed.

(** The opponents of the program are dealt the cards the specification
    names, pair after pair. *)
Lemma deal_opponents_hands (pool : list card) (n : nat) :
  forall a j : nat,
    (a + 2 * n <= List.length pool)%nat ->
    deal_opponents pool (Z.of_nat a) n
    = map (fun k => firstn 2 (skipn (a + 2 * (k - j)) pool)) (seq j n).
Proof.
  induction n as [|n IH]; intros a j H; [reflexivity|].
  cbn [deal_opponents seq map].
  rewrite py_slice_pair by lia.
  replace (a + 2 * (j - j))%nat with a by lia. f_equal.
  replace (Z.of_nat a + 2)%Z with (Z.of_nat (a + 2)) by lia.
  rewrite (IH (a + 2)%nat (S j)) by lia.
  apply map_ext_in. intros k Hk. apply in_seq in Hk.
  do 2 f_equal. lia.
Qed.

Lemma mem_existsb (c : card) (l : list card) :
  mem c l = existsb (String.eqb c) l.
Proof.
  unfold mem. destruct (in_dec card_eq_dec c l) as [H|H]; symmetry.
  - apply existsb_exists. exists c. split; [exact H|apply String.eqb_refl].
  - apply not_true_is_false. intros E. apply existsb_exists in E.
    destruct E as [x [Hx E]]. apply String.eqb_eq in E. subst. contradiction.
Qed.

Lemma get_clean_deck_deck52 : get_clean_deck = EquitySpec.deck52.
Proof. reflexivity. Qed.

Lemma remaining_deck_unknown_pool (hero_hand current_board : list card) :
  filter (fun c => negb (mem c (hero_hand ++ current_board))) get_clean_deck
  = EquitySpec.unknown_pool hero_hand current_board.
Proof.
  unfold EquitySpec.unknown_pool. rewrite get_clean_deck_deck52.
  apply filter_ext. intros c. rewrite mem_existsb. reflexivity.
Qed.

Lemma pools_pools (draws : nat -> list nat) (requested : nat) :
  forall (i : nat) (pool : list card),
    EquityLoop.pools draws requested i pool
    = EquitySpec.pools draws requested i pool.
Proof.
  induction requested as [|n IH]; intros i pool; [reflexivity|].
  cbn [EquityLoop.pools EquitySpec.pools]. rewrite IH. reflexivity.
Qed.

Lemma ran_trials_run (outcomes : list (option Q)) :
  EquityLoop.ran outcomes = EquitySpec.trials_run outcomes.
Proof.
  induction outcomes as [|[c|] r IH]; cbn; rewrite ?IH; reflexivity.
Qed.

(** One trial of the program is the trial of the specification, when the
    board has at most five cards and the hero is counted among the
    players. *)
Lemma trial_words (hero_hand current_board pool : list card)
  (num_opponents : Z) :
  (List.length current_board <= 5)%nat ->
  (0 <= num_opponents)%Z ->
  EquityLoop.trial treys_evaluate hero_hand current_board pool num_opponents
  = EquitySpec.trial treys_evaluate hero_hand current_board pool
      (Z.to_nat num_opponents).
Proof.
  intros Hb Ho. unfold EquityLoop.trial, EquitySpec.trial.
  unfold EquityLoop.can_deal, EquitySpec.can_deal, EquitySpec.missing.
  destruct (Z.leb_spec
              (5 - Z.of_nat (List.length current_board) + num_opponents * 2)
              (Z.of_nat (List.length pool))) as [H|H].
  - destruct (Nat.leb_spec
                (5 - List.length current_board + 2 * Z.to_nat num_opponents)
                (List.length pool)) as [H'|H']; [|lia].
    assert (Eb : EquityLoop.trial_board current_board pool
                 = EquitySpec.trial_board current_board pool).
    { unfold EquityLoop.trial_board, EquitySpec.trial_board,
        EquitySpec.missing.
      rewrite py_slice_prefix by lia. do 2 f_equal. lia. }
    f_equal. rewrite Eb, evaluate_best_hand_best_score.
    unfold EquityLoop.contribution, EquitySpec.contribution.
    replace (EquityLoop.best_opponent treys_evaluate current_board pool
               num_opponents)
      with (EquitySpec.best_opponent_score treys_evaluate current_board pool
              (Z.to_nat num_opponents)); [reflexivity|].
    unfold EquityLoop.best_opponent, EquitySpec.best_opponent_score,
      EquitySpec.opponent_hands, EquitySpec.opponent_hand, EquitySpec.missing.
    rewrite Eb.
    replace (5 - Z.of_nat (List.length current_board))%Z
      with (Z.of_nat (5 - List.length current_board)) by lia.
    rewrite (deal_opponents_hands pool (Z.to_nat num_opponents)
               (5 - List.length current_board) 0) by exact H'.
    rewrite (map_ext (fun k => firstn 2
                                 (skipn (5 - List.length current_board
                                         + 2 * (k - 0)) pool))
               (fun j => firstn 2
                           (skipn (5 - List.length current_board + 2 * j)
                              pool)))
      by (intros k; rewrite Nat.sub_0_r; reflexivity).
    rewrite (map_ext (fun h => evaluate_best_hand treys_evaluate
                                 (h ++ EquitySpec.trial_board current_board
                                         pool))
               (fun h => EquitySpec.best_score treys_evaluate
                           (h ++ EquitySpec.trial_board current_board pool)))
      by (intros h; apply evaluate_best_hand_best_score).
    set (os := map _ (map _ _)).
    assert (Hos : Forall (fun s => (s <= SENTINEL)%Z) os).
    { unfold os. apply Forall_forall. intros s Hs.
      apply in_map_iff in Hs. destruct Hs as [h [<- _]].
      apply best_score_le. }
    clearbody os. destruct os as [|s r]; [reflexivity|].
    symmetry. apply list_min_lowest; [discriminate | exact Hos].
  - destruct (Nat.leb_spec
                (5 - List.length current_board + 2 * Z.to_nat num_opponents)
                (List.length pool)) as [H'|H']; [lia|reflexivity].
Qed.

End EstimatorWords.

(** C6.  For a board of at most five cards and a player count of at least
    one, [calculate_multiplayer_equity] returns the estimate the
    specification words: every requested trial takes a fresh shuffle of the
    pool of unknown cards, is skipped when the pool cannot supply the missing
    board cards and two cards for each opponent, and otherwise contributes 1
    when the hero's best five of seven cards score strictly lower than the
    lowest of the opponents' scores, 0.5 when tied with it, 0 otherwise; the
    result is the sum of the contributions over the number of trials
    actually run, and 0 when no trial ran or none was requested. *)
Theorem equity_is_average_of_trials_run
  (treys_evaluate : list card -> option Z) (draws : nat -> list nat)
  (hero_hand current_board : list card) (num_players iterations : Z)
  (board_size : (List.length current_board <= 5)%nat)
  (hero_counted : (1 <= num_players)%Z) :
  EngineCore.calculate_multiplayer_equity treys_evaluate draws hero_hand
    current_board num_players iterations
  == EquitySpec.estimate treys_evaluate draws hero_hand current_board
       (Z.to_nat (num_players - 1)) (Z.to_nat iterations).
Proof.
  rewrite equity_loop_estimate.
  unfold EquityLoop.estimate, EquitySpec.estimate.
  rewrite remaining_deck_unknown_pool, pools_pools, ran_trials_run.
  rewrite (map_ext
             (fun p => EquityLoop.trial treys_evaluate hero_hand
                         current_board p (num_players - 1))
             (fun pool => EquitySpec.trial treys_evaluate hero_hand
                            current_board pool (Z.to_nat (num_players - 1))))
    by (intros p; apply trial_words; lia).
  destruct (EquitySpec.trials_run _); reflexivity.
Qed.

(** C6 at a concrete input: the hero holds the two of hearts and the three
    of diamonds on a flop of three cards, against two opponents, with four
    trials requested; the four trials run and the estimate is 5/8. *)
Lemma equity_of_four_trials_against_two :
  ((List.length ["2c"; "7d"; "9s"] <= 5)%nat /\ (1 <= 3)%Z)
  /\ EngineCore.calculate_multiplayer_equity Category.category_evaluate
       (fun i => [i; 7; 3; 11; 20]%nat) ["2h"; "3d"] ["2c"; "7d"; "9s"] 3 4
     == EquitySpec.estimate Category.category_evaluate
          (fun i => [i; 7; 3; 11; 20]%nat) ["2h"; "3d"] ["2c"; "7d"; "9s"]
          (Z.to_nat (3 - 1)) (Z.to_nat 4)
  /\ EquitySpec.estimate Category.category_evaluate
       (fun i => [i; 7; 3; 11; 20]%nat) ["2h"; "3d"] ["2c"; "7d"; "9s"]
       (Z.to_nat (3 - 1)) (Z.to_nat 4)
     == 5 # 8.
Proof.
  split; [split; [simpl; lia | lia]|]. split.
  - apply (equity_is_average_of_trials_run Category.category_evaluate
             (fun i => [i; 7; 3; 11; 20]%nat) ["2h"; "3d"]
             ["2c"; "7d"; "9s"] 3 4); [simpl; lia | lia].
  - vm_compute. reflexivity.
Defined.

(** * Further properties of the engine *)

(** ** The turns of the game loop, stage by stage *)

Section TurnStages.

Import EngineCore Main Invariant Turn.

Variable treys_evaluate : list card -> option Z.
Variable env : Env.

Lemma Forall2_player_at (R : PlayerState -> PlayerState -> Prop)
  (ps qs : list PlayerState) :
  Forall2 R ps qs ->
  forall i, (i < List.length ps)%nat -> R (player_at ps i) (player_at qs i).
Proof.
  unfold player_at. induction 1 as [|p q ps qs H _ IH]; intros i Hi;
    simpl in Hi; [lia|].
  destruct i as [|i]; simpl; [exact H|]. apply IH. lia.
Qed.

Lemma player_at_overflow (ps : list PlayerState) (i : nat) :
  (List.length ps <= i)%nat -> player_at ps i = new_player "" O.
Proof. intros H. unfold player_at. apply nth_overflow. exact H. Qed.

Lemma pop_last (deck deck' : list card) (c : card) :
  pop deck = Some (c, deck') -> deck = deck' ++ [c].
Proof.
  unfold pop. intros H.
  destruct (rev deck) as [|x r] eqn:E; [discriminate|].
  inversion H; subst; clear H.
  rewrite <- (rev_involutive deck), E. reflexivity.
Qed.

Lemma pop_n_perm (n : nat) :
  forall (deck deck' cs : list card),
    pop_n n deck = Some (cs, deck') ->
    Permutation (cs ++ deck') deck /\ List.length cs = n.
Proof.
  induction n as [|n IH]; intros deck deck' cs H; simpl in H.
  - inversion H; subst. split; reflexivity.
  - destruct (pop deck) as [[c d]|] eqn:Ep; [|discriminate].
    destruct (pop_n n d) as [[cs' d']|] eqn:En; [|discriminate].
    inversion H; subst; clear H.
    destruct (IH _ _ _ En) as [P L]. apply pop_last in Ep. subst deck.
    split; [|simpl; rewrite L; reflexivity].
    simpl. etransitivity; [|apply Permutation_cons_append].
    constructor. exact P.
Qed.

(** Round 0, player by player; the cards it hands out come off the deck,
    and the chips it takes go to the pot. *)
Lemma buy_in_loop_deal (todo : list PlayerState) :
  forall (pot : Q) (deck : list card) (r0 : Round0),
    buy_in_loop todo pot deck = Some r0 ->
    Forall2 settled todo (r0_players r0)
    /\ Permutation (flat_map hole_cards (r0_players r0) ++ r0_deck r0) deck
    /\ chips (r0_players r0) + r0_pot r0 == chips todo + pot.
Proof.
  unfold chips, stacks_of, sumQ.
  induction todo as [|p rest IH]; intros pot deck r0 H; simpl in H.
  - inversion H; subst; clear H. simpl.
    split; [constructor|]. split; [reflexivity | ring].
  - destruct (is_lost_match p) eqn:El.
    + destruct (buy_in_loop rest pot deck) as [r|] eqn:E; [|discriminate].
      inversion H; subst; clear H. cbn [r0_players r0_deck r0_pot].
      destruct (IH _ _ _ E) as [F [P C]].
      split; [constructor; [|exact F]|].
      { unfold settled. rewrite El. reflexivity. }
      split; [exact P|]. cbn [map fold_right reset_round stack]. lra.
    + destruct (Qltb (stack p) BUY_IN) eqn:Es.
      * destruct (buy_in_loop rest (pot + stack p) deck) as [r|] eqn:E;
          [|discriminate].
        inversion H; subst; clear H. cbn [r0_players r0_deck r0_pot].
        destruct (IH _ _ _ E) as [F [P C]].
        split; [constructor; [|exact F]|].
        { unfold settled. rewrite El, Es. reflexivity. }
        split; [exact P|].
        cbn [map fold_right reset_round eliminate stack]. lra.
      * destruct (pop deck) as [[c1 d1]|] eqn:E1; [|discriminate].
        destruct (pop d1) as [[c2 d2]|] eqn:E2; [|discriminate].
        destruct (buy_in_loop rest (pot + BUY_IN) d2) as [r|] eqn:E;
          [|discriminate].
        inversion H; subst; clear H. cbn [r0_players r0_deck r0_pot].
        destruct (IH _ _ _ E) as [F [P C]].
        split; [constructor; [|exact F]|].
        { unfold settled. rewrite El, Es. exists c1, c2. reflexivity. }
        split.
        { apply pop_last in E1, E2. subst deck d1.
          cbn [flat_map with_hole_cards hole_cards app].
          rewrite <- app_assoc. cbn [app].
          etransitivity; [|apply (Permutation_app_comm [c2; c1] d2)].
          cbn [app]. etransitivity; [apply perm_swap|].
          constructor. constructor. exact P. }
        cbn [map fold_right reset_round with_hole_cards with_stack stack].
        lra.
Qed.

Lemma play_hand_stages (game_num : nat) (ms ms' : MatchState)
  (tr : HandTrace) :
  play_hand treys_evaluate env game_num ms = Some (ms', tr) ->
  exists r0 deck',
    buy_in_loop (players ms) 0
      (shuffle (deck_draws env game_num) create_deck) = Some r0
    /\ pop_n 5 (r0_deck r0) = Some (tr_community_cards tr, deck')
    /\ stages treys_evaluate env game_num ms ms' tr r0.
Proof.
  intros H. unfold play_hand in H.
  destruct (buy_in_loop (players ms) 0 _) as [r0|] eqn:E0; [|discriminate].
  destruct (pop_n 5 (r0_deck r0)) as [[community deck']|] eqn:Ec;
    [|discriminate].
  exists r0, deck'. split; [reflexivity|].
  cbv zeta in H.
  destruct (Nat.ltb (List.length (r0_active_players_indices r0)) 2).
  { inversion H; subst; clear H. unfold halt, stages; simpl.
    split; [exact Ec|]. repeat split; reflexivity. }
  destruct (Nat.eqb _ 1).
  { inversion H; subst; clear H. unfold early_win, stages; simpl.
    split; [exact Ec|]. repeat split; reflexivity. }
  destruct (Nat.eqb _ 0).
  { inversion H; subst; clear H. unfold no_round2, stages; simpl.
    split; [exact Ec|]. repeat split; reflexivity. }
  set (af := afford_loop r0) in *.
  set (b1 := round1_loop _ _ _ _ _ _ _) in *.
  remember (post_fold af b1) as post eqn:Epost.
  set (b2 := round2_loop _ _ _ _ _ _ _ _) in *.
  set (b3 := round3_loop _ _ _ _ _ _ _ _) in *.
  set (sd := showdown_loop _ _ _ _) in *.
  destruct (sd_winners sd) as [|w0 ws] eqn:Ewin.
  { inversion H; subst ms' tr; clear H. unfold no_winner, stages; simpl.
    split; [exact Ec|]. fold af b1. rewrite <- Epost. fold b2 b3 sd.
    unfold payout_loop. rewrite Ewin. simpl.
    repeat split; reflexivity. }
  clear Ewin.
  injection H as H. unfold allocate in H. cbv zeta in H.
  set (pay := payout_loop ms (b_pot b3) sd) in *.
  set (rem := b_pot b3 - pay_total_win pay) in *.
  set (share := rem / Qnat (List.length post)) in *.
  assert (G : forall after shares,
            stages treys_evaluate env game_num ms after
              (mkHandTrace ShowdownPaid ms after community
                 (r0_active_players_indices r0) (af_round1_active_indices af)
                 post (b_pot b3) (r0_players r0) (af_players af)
                 (b_players b1) (b_players b2) (b_players b3) (sd_players sd)
                 (pay_players pay) (sd_winners sd) (pay_paid pay)
                 (pay_total_win pay) rem shares)
              r0
            <-> no_of_wins after = pay_no_of_wins pay
                /\ shares
                   = (if Qltb 0 rem
                      then map (fun i => (i, share)) post else [])
                /\ players after
                   = (if Qltb 0 rem
                      then fold_left (share_step share) post (pay_players pay)
                      else pay_players pay)
                /\ match_history after
                   = match_history ms
                     ++ [mkRoundHistory (sd_round_history sd) community
                           (b_pot b3)]).
  { intros after shares. unfold stages; simpl.
    fold af b1. rewrite <- Epost. fold b2 b3 sd pay rem share.
    split; [tauto|]. intros [G1 [G2 [G3 G4]]]. repeat split; assumption. }
  destruct (Qltb 0 rem).
  - destruct post as [|i0 rest].
    + injection H as <- <-. split; [exact Ec|].
      apply G. repeat split; reflexivity.
    + injection H as <- <-. split; [exact Ec|].
      apply G. repeat split; reflexivity.
  - injection H as <- <-. split; [exact Ec|].
    apply G. repeat split; reflexivity.
Qed.

(** The match is a chain of such turns, numbered from the first game on. *)
Lemma game_loop_turns (games : nat) :
  forall (first : nat) (ms : MatchState),
    wf_match ms ->
    exists ms' trs,
      game_loop treys_evaluate env (seq first games) ms = Some (ms', trs)
      /\ Forall played trs
      /\ turns treys_evaluate env first trs
      /\ chained ms trs ms'.
Proof.
  induction games as [|n IH]; intros first ms Hwf; simpl.
  - exists ms, []. split; [reflexivity|]. split; [constructor|].
    split; [exact I | reflexivity].
  - destruct (play_hand_total treys_evaluate env first ms Hwf) as [ms1 [tr E]].
    rewrite E.
    pose proof (play_hand_ok treys_evaluate env first ms ms1 tr Hwf E) as Hh.
    pose proof (ok_before _ _ _ Hh) as Eb.
    pose proof (ok_after _ _ _ Hh) as Ea.
    assert (Hp : played tr).
    { unfold played. rewrite Eb, Ea. split; assumption. }
    assert (Ht : turn treys_evaluate env first tr).
    { unfold turn. rewrite Eb, Ea. split; assumption. }
    destruct (tr_outcome tr) eqn:Eo;
      try (destruct (IH (S first) ms1 (ok_wf _ _ _ Hh))
             as [ms2 [trs [E2 [F2 [T2 C2]]]]];
           rewrite E2; exists ms2, (tr :: trs);
           split; [reflexivity|]; split; [constructor; assumption|];
           split; [split; assumption|];
           simpl; rewrite Eo, Ea; split; assumption).
    exists ms1, [tr]. split; [reflexivity|].
    split; [constructor; [assumption | constructor]|].
    split; [split; [assumption | exact I]|].
    simpl. rewrite Eo, Ea. split; [assumption|]. split; reflexivity.
Qed.

Lemma play_match_turns :
  exists ms trs,
    play_match treys_evaluate env = Some (ms, trs)
    /\ Forall played trs
    /\ turns treys_evaluate env 1 trs
    /\ chained initial_match trs ms.
Proof.
  apply (game_loop_turns NUM_GAMES 1%nat initial_match initial_match_wf).
Qed.

(** What a turn is known to have gone through. *)
Lemma turn_facts (g : nat) (tr : HandTrace) :
  turn treys_evaluate env g tr ->
  hand_ok (tr_before tr) (tr_after tr) tr
  /\ exists r0 deck',
       buy_in_loop (players (tr_before tr)) 0
         (shuffle (deck_draws env g) create_deck) = Some r0
       /\ pop_n 5 (r0_deck r0) = Some (tr_community_cards tr, deck')
       /\ stages treys_evaluate env g (tr_before tr) (tr_after tr) tr r0.
Proof.
  intros [Hwf H]. split.
  - apply (play_hand_ok treys_evaluate env g); assumption.
  - apply play_hand_stages. exact H.
Qed.

End TurnStages.

(** ** The evaluator and the estimator on every input *)

Section EvaluatorFacts.

Import EngineCore.

Variable treys_evaluate : list card -> option Z.

Lemma combinations_short {A : Type} (l : list A) :
  forall k : nat, (List.length l < k)%nat -> combinations l k = [].
Proof.
  induction l as [|x xs IH]; intros [|k] H; simpl in *; try lia;
    [reflexivity|].
  rewrite (IH k) by lia. rewrite (IH (S k)) by lia. reflexivity.
Qed.

(** The loop of [evaluate_best_hand] from any starting score: the result is
    the starting score or the score of a combination, and is at most each. *)
Lemma fold_best_step_min (l : list (list card)) :
  forall b : Z,
    let r := fold_left (best_step treys_evaluate) l b in
    (forall combo s, In combo l -> treys_evaluate combo = Some s -> (r <= s)%Z)
    /\ (r = b \/ exists combo, In combo l /\ treys_evaluate combo = Some r).
Proof.
  induction l as [|c l IH]; intros b; simpl.
  - split; [intros ? ? []|left; reflexivity].
  - destruct (IH (best_step treys_evaluate b c)) as [H1 H2]. split.
    + intros combo s [<-|Hin] Es; [|apply (H1 combo s Hin Es)].
      etransitivity; [apply fold_best_step_le|].
      unfold best_step. rewrite Es. destruct (Z.ltb_spec s b); lia.
    + destruct H2 as [E|[combo [Hin Es]]];
        [|right; exists combo; split; [right|]; assumption].
      rewrite E. unfold best_step.
      destruct (treys_evaluate c) as [s|] eqn:Es; [|left; reflexivity].
      destruct (Z.ltb_spec s b); [|left; reflexivity].
      right. exists c. split; [left; reflexivity | exact Es].
Qed.

(** A trial that ran counts for 0, a half or 1. *)
Lemma ran_bounds (hero board : list card) (opp : Z) (ps : list (list card)) :
  let cs :=
    EquityLoop.ran
      (map (fun p => EquityLoop.trial treys_evaluate hero board p opp) ps) in
  0 <= sumQ cs /\ sumQ cs <= Qnat (List.length ps).
Proof.
  induction ps as [|p ps IH]; cbn [map EquityLoop.ran List.length].
  - split; apply Qle_refl.
  - cbv zeta in IH. destruct IH as [IH1 IH2]. rewrite Qnat_S.
    assert (Hc : forall c,
              EquityLoop.trial treys_evaluate hero board p opp = Some c ->
              0 <= c /\ c <= 1).
    { unfold EquityLoop.trial, EquityLoop.contribution. intros c E.
      destruct (EquityLoop.can_deal board p opp); [|discriminate].
      injection E as <-.
      destruct (_ <? _)%Z; [split; discriminate|].
      destruct (_ =? _)%Z; split; discriminate. }
    destruct (EquityLoop.trial treys_evaluate hero board p opp) as [c|].
    + destruct (Hc c eq_refl) as [C1 C2].
      unfold sumQ in *. cbn [fold_right]. split; lra.
    + split; lra.
Qed.

(** The known cards taken out, the pool holds the other cards of the deck. *)
Lemma pool_size (known : list card) :
  NoDup known ->
  incl known get_clean_deck ->
  (List.length (filter (fun c => negb (mem c known)) get_clean_deck)
   + List.length known = 52)%nat.
Proof.
  intros Hnd Hincl.
  pose proof (filter_length (fun c => negb (mem c known)) get_clean_deck)
    as Hsplit.
  change (List.length get_clean_deck) with 52%nat in Hsplit.
  assert (Hle : (List.length
                   (filter (fun x => negb (negb (mem x known))) get_clean_deck)
                 <= List.length known)%nat).
  { apply NoDup_incl_length.
    - apply NoDup_filter, get_clean_deck_NoDup.
    - intros c Hc. apply filter_In in Hc. destruct Hc as [_ Hc].
      apply mem_true_iff. destruct (mem c known); [reflexivity | discriminate]. }
  assert (Hge : (List.length known
                 <= List.length
                      (filter (fun x => negb (negb (mem x known)))
                         get_clean_deck))%nat).
  { apply NoDup_incl_length; [exact Hnd|].
    intros c Hc. apply filter_In. split; [apply Hincl, Hc|].
    apply mem_true_iff in Hc. rewrite Hc. reflexivity. }
  lia.
Qed.

Lemma ran_none (hero board : list card) (opp : Z) (ps : list (list card)) :
  Forall (fun p => EquityLoop.can_deal board p opp = false) ps ->
  EquityLoop.ran
    (map (fun p => EquityLoop.trial treys_evaluate hero board p opp) ps) = [].
Proof.
  induction 1 as [|p ps Hp _ IH]; [reflexivity|].
  cbn [map]. unfold EquityLoop.trial at 1. rewrite Hp. exact IH.
Qed.

End EvaluatorFacts.

(** X1.  [evaluate_best_hand] returns the lowest score [treys] gives to a choice
    of five of the cards, the choices it raises on left out; it returns the
    sentinel 7463 when no choice gets a score, as with fewer than five
    cards, and never anything above the sentinel. *)
Theorem evaluate_best_hand_is_lowest_score
  (treys_evaluate : list card -> option Z) (seven_cards : list card) :
  let best := EngineCore.evaluate_best_hand treys_evaluate seven_cards in
  (best <= EngineCore.SENTINEL)%Z
  /\ (forall combo score,
        In combo (combinations seven_cards 5) ->
        treys_evaluate combo = Some score -> (best <= score)%Z)
  /\ (best = EngineCore.SENTINEL
      \/ exists combo,
           In combo (combinations seven_cards 5)
           /\ treys_evaluate combo = Some best)
  /\ ((List.length seven_cards < 5)%nat -> best = EngineCore.SENTINEL).
Proof.
  unfold EngineCore.evaluate_best_hand. cbv zeta.
  destruct (fold_best_step_min treys_evaluate (combinations seven_cards 5)
              EngineCore.SENTINEL) as [H1 H2].
  split; [apply fold_best_step_le|]. split; [exact H1|]. split; [exact H2|].
  intros Hlen. rewrite combinations_short by exact Hlen. reflexivity.
Qed.

(** X2.  Whatever the cards, the number of players, the number of iterations and
    the evaluator, the estimate [calculate_multiplayer_equity] returns is a
    probability: it lies between 0 and 1. *)
Theorem equity_is_a_probability
  (treys_evaluate : list card -> option Z) (draws : nat -> list nat)
  (hero_hand current_board : list card) (num_players iterations : Z) :
  0 <= EngineCore.calculate_multiplayer_equity treys_evaluate draws hero_hand
         current_board num_players iterations
  /\ EngineCore.calculate_multiplayer_equity treys_evaluate draws hero_hand
       current_board num_players iterations <= 1.
Proof.
  unfold EngineCore.calculate_multiplayer_equity.
  set (pool := filter _ EngineCore.get_clean_deck).
  pose proof (equity_loop_spec treys_evaluate draws hero_hand current_board
                (num_players - 1) (Z.to_nat iterations) 0%nat pool 0) as Hloop.
  pose proof (ran_bounds treys_evaluate hero_hand current_board
                (num_players - 1)
                (EquityLoop.pools draws (Z.to_nat iterations) 0 pool))
    as [Hlo Hhi].
  rewrite pools_count in Hhi.
  set (wins := EngineCore.equity_loop _ _ _ _ _ _ _ _ _) in *.
  set (s := sumQ _) in *.
  clearbody wins s pool. cbv zeta.
  destruct (Z.eqb_spec iterations 0) as [E0|E0].
  - split; [discriminate|]. unfold Qdiv. rewrite Qmult_0_l. discriminate.
  - assert (Hw : wins == s) by (rewrite Hloop; ring).
    destruct (Z.lt_ge_cases iterations 0) as [Hneg|Hpos].
    + replace (Z.to_nat iterations) with O in Hhi by lia.
      assert (Hs : s == 0) by (change (Qnat 0) with 0 in Hhi; lra).
      assert (Hr : wins / inject_Z iterations * 100 / 100 == 0).
      { rewrite Hw, Hs. unfold Qdiv. ring. }
      rewrite Hr. split; [apply Qle_refl | discriminate].
    + assert (Hit : 0 < inject_Z iterations).
      { change 0 with (inject_Z 0). rewrite <- Zlt_Qlt. lia. }
      assert (Hr : wins / inject_Z iterations * 100 / 100
                   == s / inject_Z iterations).
      { rewrite Hw. field. intros C. rewrite C in Hit. lra. }
      rewrite Hr. unfold Qnat in Hhi. rewrite Z2Nat.id in Hhi by lia.
      split.
      * apply Qle_shift_div_l; [exact Hit | lra].
      * apply Qle_shift_div_r; [exact Hit | lra].
Qed.

(** X3.  A hero hand of two cards and a board of at most five, all different
    cards of the deck, leave a pool that cannot serve twenty-three opponents
    or more: from [num_players = 24] on, every trial is skipped and the
    estimate is 0. *)
Theorem equity_is_zero_beyond_the_deck
  (treys_evaluate : list card -> option Z) (draws : nat -> list nat)
  (hero_hand current_board : list card) (num_players iterations : Z)
  (hero_two : List.length hero_hand = 2%nat)
  (board_size : (List.length current_board <= 5)%nat)
  (known_distinct : NoDup (hero_hand ++ current_board))
  (known_in_deck : incl (hero_hand ++ current_board) EngineCore.get_clean_deck)
  (crowd : (24 <= num_players)%Z) :
  EngineCore.calculate_multiplayer_equity treys_evaluate draws hero_hand
    current_board num_players iterations == 0.
Proof.
  unfold EngineCore.calculate_multiplayer_equity.
  set (pool := filter _ EngineCore.get_clean_deck).
  pose proof (equity_loop_spec treys_evaluate draws hero_hand current_board
                (num_players - 1) (Z.to_nat iterations) 0%nat pool 0) as Hloop.
  pose proof (pool_size (hero_hand ++ current_board) known_distinct
                known_in_deck) as Hsize.
  fold pool in Hsize. rewrite length_app, hero_two in Hsize.
  rewrite ran_none in Hloop.
  - set (wins := EngineCore.equity_loop _ _ _ _ _ _ _ _ _) in *.
    clearbody wins pool. cbv zeta.
    destruct (Z.eqb_spec iterations 0) as [E0|E0]; [reflexivity|].
    rewrite Hloop. simpl sumQ. unfold Qdiv. ring.
  - eapply Forall_impl; [|apply pools_length]. simpl. intros p Hp.
    unfold EquityLoop.can_deal. rewrite Hp. apply Z.leb_gt. lia.
Qed.

(** ** What the loops of a turn keep *)

Section LoopFacts.

Import EngineCore Main Invariant Turn.

Variable treys_evaluate : list card -> option Z.
Variable env : Env.
Variable game_num : nat.

(** A field that the new value of a seat leaves alone is the same at every
    seat. *)
Lemma player_at_set_field {A : Type} (f : PlayerState -> A)
  (ps : list PlayerState) (x i : nat) (p : PlayerState) :
  f p = f (player_at ps x) ->
  f (player_at (set_player ps x p) i) = f (player_at ps i).
Proof.
  intros H. destruct (Nat.eq_dec x i) as [<-|Hne].
  - destruct (Nat.lt_ge_cases x (List.length ps)) as [Hx|Hx].
    + rewrite player_at_set_same by exact Hx. exact H.
    + rewrite !player_at_overflow; [reflexivity | exact Hx |].
      rewrite set_player_length. exact Hx.
  - rewrite player_at_set_other by exact Hne. reflexivity.
Qed.

(** *** Chips *)

Lemma chips_set_player (ps : list PlayerState) (i : nat) (p : PlayerState) :
  (i < List.length ps)%nat ->
  chips (set_player ps i p) == chips ps - stack (player_at ps i) + stack p.
Proof.
  unfold chips, stacks_of, sumQ, set_player, player_at.
  revert i; induction ps as [|x xs IH]; intros [|i] H; simpl in *; try lia.
  - ring.
  - rewrite IH by lia. ring.
Qed.

(** A loop whose turns move chips between a stack and the pot keeps the
    chips of the table and the pot together. *)
Lemma fold_chips {S : Type} (pl : S -> list PlayerState) (pot : S -> Q)
  (step : S -> nat -> S) :
  (forall st idx,
      (idx < List.length (pl st))%nat ->
      List.length (pl (step st idx)) = List.length (pl st)
      /\ chips (pl (step st idx)) + pot (step st idx)
         == chips (pl st) + pot st) ->
  forall (l : list nat) (st : S),
    Forall (fun i => (i < List.length (pl st))%nat) l ->
    chips (pl (fold_left step l st)) + pot (fold_left step l st)
    == chips (pl st) + pot st.
Proof.
  intros Hstep. induction l as [|x l IH]; intros st Hl; simpl.
  - reflexivity.
  - inversion Hl as [|? ? Hx Hl']; subst.
    destruct (Hstep st x Hx) as [L C].
    rewrite IH; [exact C|]. rewrite L. exact Hl'.
Qed.

Lemma afford_step_chips (st : Afford) (idx : nat) :
  (idx < List.length (af_players st))%nat ->
  List.length (af_players (afford_step st idx)) = List.length (af_players st)
  /\ chips (af_players (afford_step st idx)) + af_pot (afford_step st idx)
     == chips (af_players st) + af_pot st.
Proof.
  intros H. unfold afford_step.
  destruct (Qltb (stack (player_at (af_players st) idx)) 100); simpl.
  - split; [apply set_player_length|].
    rewrite chips_set_player by exact H. simpl. ring.
  - split; reflexivity.
Qed.

Lemma round1_step_chips vis cs n (st : Betting) (idx : nat) :
  (idx < List.length (b_players st))%nat ->
  let st' := round1_step treys_evaluate env game_num vis cs n st idx in
  List.length (b_players st') = List.length (b_players st)
  /\ chips (b_players st') + b_pot st' == chips (b_players st) + b_pot st.
Proof.
  intros H. unfold round1_step.
  destruct (round1 env game_num idx _ vis cs (b_pot st) _) as [action val].
  destruct (String.eqb action "fold"); simpl.
  - split; [apply set_player_length|].
    rewrite chips_set_player by exact H. simpl. ring.
  - split; [apply set_player_length|].
    rewrite chips_set_player by exact H. simpl. ring.
Qed.

Lemma round2_step_chips vis r1 cs n (st : Betting) (idx : nat) :
  (idx < List.length (b_players st))%nat ->
  let st' := round2_step treys_evaluate env game_num vis r1 cs n st idx in
  List.length (b_players st') = List.length (b_players st)
  /\ chips (b_players st') + b_pot st' == chips (b_players st) + b_pot st.
Proof.
  intros H. unfold round2_step. simpl.
  split; [apply set_player_length|].
  rewrite chips_set_player by exact H. simpl. ring.
Qed.

Lemma round3_step_chips vis r1 r2 cs n (st : Betting) (idx : nat) :
  (idx < List.length (b_players st))%nat ->
  let st' := round3_step treys_evaluate env game_num vis r1 r2 cs n st idx in
  List.length (b_players st') = List.length (b_players st)
  /\ chips (b_players st') + b_pot st' == chips (b_players st) + b_pot st.
Proof.
  intros H. unfold round3_step. simpl.
  split; [apply set_player_length|].
  rewrite chips_set_player by exact H. simpl. ring.
Qed.

Lemma showdown_step_chips community (st : Showdown) (idx : nat) :
  (idx < List.length (sd_players st))%nat ->
  let st' := showdown_step treys_evaluate community st idx in
  List.length (sd_players st') = List.length (sd_players st)
  /\ chips (sd_players st') + 0 == chips (sd_players st) + 0.
Proof.
  intros H. cbv zeta.
  destruct (showdown_step_touch treys_evaluate community st idx)
    as [p' [Ep HR]].
  rewrite Ep. split; [apply set_player_length|].
  rewrite chips_set_player by exact H.
  destruct HR as [->|[s ->]]; simpl; ring.
Qed.

Lemma payout_step_chips n sm (st : Payout) (w : nat) :
  (w < List.length (pay_players st))%nat ->
  let st' := payout_step n sm st w in
  List.length (pay_players st') = List.length (pay_players st)
  /\ chips (pay_players st') + - pay_total_win st'
     == chips (pay_players st) + - pay_total_win st.
Proof.
  intros H. unfold payout_step. simpl.
  split; [apply set_player_length|].
  rewrite chips_set_player by exact H. simpl. ring.
Qed.

Lemma share_loop_chips sh (l : list nat) :
  forall ps : list PlayerState,
    Forall (fun i => (i < List.length ps)%nat) l ->
    chips (fold_left (share_step sh) l ps)
    == chips ps + Qnat (List.length l) * sh.
Proof.
  induction l as [|x l IH]; intros ps Hl; cbn [fold_left List.length].
  - change (Qnat 0) with 0. ring.
  - inversion Hl as [|? ? Hx Hl']; subst.
    rewrite IH by (unfold share_step; rewrite set_player_length; exact Hl').
    unfold share_step. rewrite chips_set_player by exact Hx.
    rewrite Qnat_S. simpl. ring.
Qed.

(** *** Who can afford round 1 *)

Lemma afford_loop_affordable (l : list nat) :
  forall st : Afford,
    NoDup (af_round1_active_indices st ++ l) ->
    (forall i, In i (af_round1_active_indices st) ->
               100 <= stack (player_at (af_players st) i)) ->
    let st' := fold_left afford_step l st in
    forall i, In i (af_round1_active_indices st') ->
              100 <= stack (player_at (af_players st') i).
Proof.
  induction l as [|x l IH]; intros st Hnd Hst; simpl; [exact Hst|].
  apply IH.
  - unfold afford_step.
    destruct (Qltb (stack (player_at (af_players st) x)) 100); simpl.
    + eapply NoDup_remove_1. exact Hnd.
    + rewrite <- app_assoc. exact Hnd.
  - unfold afford_step.
    destruct (Qltb (stack (player_at (af_players st) x)) 100) eqn:E; simpl.
    + intros i Hi. rewrite player_at_set_other; [apply Hst, Hi|].
      intros ->. apply NoDup_remove_2 in Hnd. apply Hnd.
      apply in_or_app. left. exact Hi.
    + intros i Hi. apply in_app_or in Hi.
      destruct Hi as [Hi|[<-|[]]]; [apply Hst, Hi|].
      apply Qltb_ge. exact E.
Qed.

(** *** The wins *)

Lemma sumQ_list_update (l : list Q) (i : nat) (f : Q -> Q) :
  (i < List.length l)%nat ->
  sumQ (list_update l i f) == sumQ l - nth i l 0 + f (nth i l 0).
Proof.
  unfold sumQ.
  revert i; induction l as [|x xs IH]; intros [|i] H; simpl in *; try lia.
  - ring.
  - rewrite IH by lia. ring.
Qed.

Lemma payout_loop_wins n sm (l : list nat) :
  forall st : Payout,
    well_indexed (pay_players st) ->
    List.length (pay_no_of_wins st) = List.length (pay_players st) ->
    Forall (fun i => (i < List.length (pay_players st))%nat) l ->
    sumQ (pay_no_of_wins (fold_left (payout_step n sm) l st))
    == sumQ (pay_no_of_wins st) + Qnat (List.length l) * (1 / Qnat n).
Proof.
  induction l as [|w l IH]; intros st Hwi Hlen Hl; cbn [fold_left List.length].
  - change (Qnat 0) with 0. ring.
  - inversion Hl as [|? ? Hw Hl']; subst.
    assert (Hidx : index (player_at (pay_players st) w) = w)
      by (apply well_indexed_at; assumption).
    rewrite IH.
    + unfold payout_step at 1. cbn [pay_no_of_wins]. rewrite Hidx.
      rewrite sumQ_list_update by (rewrite Hlen; exact Hw).
      rewrite Qnat_S. ring.
    + unfold payout_step. cbn [pay_players]. unfold well_indexed in *.
      rewrite set_player_index by reflexivity.
      rewrite set_player_length. exact Hwi.
    + unfold payout_step. cbn [pay_players pay_no_of_wins].
      rewrite list_update_length, set_player_length. exact Hlen.
    + unfold payout_step. cbn [pay_players]. rewrite set_player_length.
      exact Hl'.
Qed.

(** *** The showdown *)

Lemma showdown_loop_winners community (ps0 : list PlayerState)
  (l : list nat) :
  let folded i := has_folded (player_at ps0 i) in
  let score i :=
    evaluate_hand treys_evaluate (hole_cards (player_at ps0 i)) community in
  forall (st : Showdown) (done : list nat),
    (forall i, has_folded (player_at (sd_players st) i)
               = has_folded (player_at ps0 i)
               /\ hole_cards (player_at (sd_players st) i)
                  = hole_cards (player_at ps0 i)) ->
    showdown_inv folded score st done ->
    showdown_inv folded score
      (fold_left (showdown_step treys_evaluate community) l st) (done ++ l).
Proof.
  intros folded score.
  assert (Hscore : forall i, (score i <= 7463)%Z).
  { intros i. unfold score, evaluate_hand, evaluate_best_hand.
    apply fold_best_step_le. }
  induction l as [|x l IH]; intros st done Hframe Hinv; simpl.
  - rewrite app_nil_r. exact Hinv.
  - replace (done ++ x :: l) with ((done ++ [x]) ++ l)
      by (rewrite <- app_assoc; reflexivity).
    destruct (Hframe x) as [Ef Eh].
    destruct Hinv as [I1 [I2 [I3 I4]]].
    assert (Hin : forall i, In i (done ++ [x]) <-> In i done \/ i = x).
    { intros i. rewrite in_app_iff. simpl. intuition. }
    apply IH.
    + intros i.
      destruct (showdown_step_touch treys_evaluate community st x)
        as [p' [Ep HR]].
      rewrite Ep. destruct (Hframe i) as [F1 F2]. split.
      * rewrite <- F1. apply player_at_set_field.
        destruct HR as [->|[s ->]]; reflexivity.
      * rewrite <- F2. apply player_at_set_field.
        destruct HR as [->|[s ->]]; reflexivity.
    + unfold showdown_step. rewrite Ef, Eh. fold (folded x) (score x).
      destruct (folded x) eqn:Efx; cbn [negb].
      * (* a folded seat *)
        unfold showdown_inv. cbn [sd_best_score sd_winners].
        split; [exact I1|]. split; [|split].
        -- intros i Hi Hfi. apply Hin in Hi. destruct Hi as [Hi| ->];
             [apply I2; assumption | congruence].
        -- intros w. rewrite I3, Hin. split; [tauto|].
           intros [[Hw| ->] [Hf Hs]]; [tauto | congruence].
        -- intros Hw. split; [apply I4, Hw|].
           intros i Hi. apply Hin in Hi. destruct Hi as [Hi| ->];
             [apply I4; assumption | exact Efx].
      * destruct (Z.ltb_spec (score x) (sd_best_score st)) as [Hlt|Hge].
        { (* a new best score *)
          unfold showdown_inv. cbn [sd_best_score sd_winners].
          split; [apply Hscore|]. split; [|split].
          - intros i Hi Hfi. apply Hin in Hi. destruct Hi as [Hi| ->];
              [|lia]. specialize (I2 i Hi Hfi). lia.
          - intros w. rewrite Hin. simpl. split.
            + intros [<-|[]]. tauto.
            + intros [[Hw| ->] [Hf Hs]]; [|left; reflexivity].
              specialize (I2 w Hw Hf). lia.
          - discriminate. }
        destruct (Z.eqb_spec (score x) (sd_best_score st)) as [Heq|Hne].
        { (* a tie with the best score *)
          unfold showdown_inv. cbn [sd_best_score sd_winners].
          split; [exact I1|]. split; [|split].
          - intros i Hi Hfi. apply Hin in Hi. destruct Hi as [Hi| ->];
              [apply I2; assumption | lia].
          - intros w. rewrite in_app_iff, I3, Hin. simpl. split.
            + intros [H|[<-|[]]]; tauto.
            + intros [[Hw| ->] [Hf Hs]]; [left; tauto | right; left; reflexivity].
          - intros C. destruct (sd_winners st); discriminate. }
        (* a worse score *)
        unfold showdown_inv. cbn [sd_best_score sd_winners].
        split; [exact I1|]. split; [|split].
        -- intros i Hi Hfi. apply Hin in Hi. destruct Hi as [Hi| ->];
             [apply I2; assumption | lia].
        -- intros w. rewrite I3, Hin. split; [tauto|].
           intros [[Hw| ->] [Hf Hs]]; [tauto | congruence].
        -- intros Hw. destruct (I4 Hw) as [Eb _].
           specialize (Hscore x). lia.
Qed.

End LoopFacts.

(** ** One turn of the game loop *)

Section TurnFacts.

Import EngineCore Main Invariant Turn.

Variable treys_evaluate : list card -> option Z.
Variable env : Env.
Variable game_num : nat.

Lemma seats_lt (n : nat) (l : list nat) (i : nat) :
  seats n l -> In i l -> (i < n)%nat.
Proof.
  intros [_ H] Hi. rewrite Forall_forall in H. apply H, Hi.
Qed.

(** The loops of a turn from the state round 0 left: the sizes of the
    tables, the lists of seats, and where the chips are. *)
Lemma loops_chips (ms : MatchState) (community : list card) (r0 : Round0) :
  let n := List.length (r0_players r0) in
  seats n (r0_active_players_indices r0) ->
  let af := afford_loop r0 in
  let b1 := round1_loop treys_evaluate env game_num ms community r0 af in
  let post := post_fold af b1 in
  let b2 := round2_loop treys_evaluate env game_num ms community r0 b1 post in
  let b3 := round3_loop treys_evaluate env game_num community r0 b1 b2 post in
  let sd := showdown_loop treys_evaluate community r0 b3 in
  let total := chips (r0_players r0) + r0_pot r0 in
  (List.length (af_players af) = n /\ List.length (b_players b1) = n
   /\ List.length (b_players b2) = n /\ List.length (b_players b3) = n
   /\ List.length (sd_players sd) = n)
  /\ (seats n (af_round1_active_indices af) /\ seats n post
      /\ seats n (sd_winners sd))
  /\ chips (b_players b1) + b_pot b1 == total
  /\ chips (sd_players sd) + b_pot b3 == total.
Proof.
  intros n Hact af b1 post b2 b3 sd total.
  assert (Laf : List.length (af_players af) = n).
  { apply (fold_touch_wf af_players afford_step afforded afford_step_touch
             afforded_index (r0_active_players_indices r0)
             (mkAfford (r0_players r0) (r0_pot r0) [])). }
  assert (Lb1 : List.length (b_players b1) = n).
  { rewrite <- Laf. unfold b1, round1_loop. cbv zeta.
    apply (fold_touch_wf b_players _ acted_r1
             (round1_step_touch treys_evaluate env game_num _ _ _)
             acted_r1_index _
             (mkBetting (af_players af) (af_pot af) (zeros (players ms)))). }
  assert (Lb2 : List.length (b_players b2) = n).
  { rewrite <- Lb1. unfold b2, round2_loop. cbv zeta.
    apply (fold_touch_wf b_players _ acted_r2
             (round2_step_touch treys_evaluate env game_num _ _ _ _)
             acted_r2_index _
             (mkBetting (b_players b1) (b_pot b1) (zeros (players ms)))). }
  assert (Lb3 : List.length (b_players b3) = n).
  { rewrite <- Lb2. unfold b3, round3_loop. cbv zeta.
    apply (fold_touch_wf b_players _ acted_r3
             (round3_step_touch treys_evaluate env game_num _ _ _ _ _)
             acted_r3_index _ b2). }
  assert (Lsd : List.length (sd_players sd) = n).
  { rewrite <- Lb3. unfold sd, showdown_loop.
    apply (fold_touch_wf sd_players _ scored
             (showdown_step_touch treys_evaluate community)
             scored_index _ (mkShowdown (b_players b3) 7463 [] [])). }
  assert (S1 : seats n (af_round1_active_indices af)).
  { destruct (afford_loop_seats (r0_active_players_indices r0)
                (mkAfford (r0_players r0) (r0_pot r0) [])) as [Hnd Hin];
      [apply Hact|].
    eapply seats_incl; [exact Hnd | exact Hin | exact Hact]. }
  assert (S2 : seats n post) by (apply seats_filter; exact S1).
  assert (Sw : seats n (sd_winners sd)).
  { destruct (showdown_loop_seats treys_evaluate community
                (r0_active_players_indices r0)
                (mkShowdown (b_players b3) 7463 [] [])) as [Hnd Hin];
      [apply Hact|].
    eapply seats_incl; [exact Hnd | exact Hin | exact Hact]. }
  assert (Caf : chips (af_players af) + af_pot af == total).
  { apply (fold_chips af_players af_pot afford_step afford_step_chips
             (r0_active_players_indices r0)
             (mkAfford (r0_players r0) (r0_pot r0) [])).
    apply Hact. }
  assert (Cb1 : chips (b_players b1) + b_pot b1 == total).
  { rewrite <- Caf. unfold b1, round1_loop. cbv zeta.
    apply (fold_chips b_players b_pot _
             (round1_step_chips treys_evaluate env game_num _ _ _) _
             (mkBetting (af_players af) (af_pot af) (zeros (players ms)))).
    cbn [b_players]. rewrite Laf. apply S1. }
  assert (Cb2 : chips (b_players b2) + b_pot b2 == total).
  { rewrite <- Cb1. unfold b2, round2_loop. cbv zeta.
    apply (fold_chips b_players b_pot _
             (round2_step_chips treys_evaluate env game_num _ _ _ _) _
             (mkBetting (b_players b1) (b_pot b1) (zeros (players ms)))).
    cbn [b_players]. rewrite Lb1. apply S2. }
  assert (Cb3 : chips (b_players b3) + b_pot b3 == total).
  { rewrite <- Cb2. unfold b3, round3_loop. cbv zeta.
    apply (fold_chips b_players b_pot _
             (round3_step_chips treys_evaluate env game_num _ _ _ _ _) _ b2).
    rewrite Lb2. apply S2. }
  assert (Csd : chips (sd_players sd) + b_pot b3 == total).
  { rewrite <- Cb3.
    pose proof (fold_chips sd_players (fun _ => 0) _
                  (showdown_step_chips treys_evaluate community)
                  (r0_active_players_indices r0)
                  (mkShowdown (b_players b3) 7463 [] [])) as C.
    cbn [sd_players] in C. rewrite Lb3 in C. specialize (C (proj2 Hact)).
    fold (showdown_loop treys_evaluate community r0 b3) in C. fold sd in C.
    lra. }
  repeat split; try assumption; try apply S1; try apply S2; try apply Sw.
Qed.


(** The chips a turn takes from the stacks are in its pot; what it pays and
    shares comes out of the pot. *)
Lemma turn_chips (tr : HandTrace) :
  turn treys_evaluate env game_num tr ->
  chips (players (tr_after tr)) + unallocated tr
  == chips (players (tr_before tr))
  /\ 0 <= unallocated tr
  /\ (tr_outcome tr = ShowdownPaid -> unallocated tr == 0).
Proof.
  intros Ht.
  destruct (turn_facts treys_evaluate env game_num tr Ht)
    as [Hok [r0 [deck' [E0 [Ec St]]]]].
  destruct Ht as [Hwf _].
  destruct (buy_in_loop_deal _ _ _ _ E0) as [F2 [_ C0]].
  pose proof (Forall2_length F2) as L0.
  pose proof (ok_seats _ _ _ Hok) as Hact.
  pose proof (ok_pot _ _ _ Hok) as Hpot.
  pose proof (ok_outcome _ _ _ Hok) as Out.
  unfold stages in St. cbv zeta in St.
  destruct St as [_ [_ [S0 [Sact Sout]]]].
  rewrite Sact, L0 in Hact.
  destruct (loops_chips (tr_before tr) (tr_community_cards tr) r0 Hact)
    as [[Laf [Lb1 [Lb2 [Lb3 Lsd]]]] [[S1 [S2 Sw]] [Cb1 Csd]]].
  set (af := afford_loop r0) in *.
  set (b1 := round1_loop _ _ _ _ _ _ _) in *.
  set (post := post_fold af b1) in *.
  set (b2 := round2_loop _ _ _ _ _ _ _ _) in *.
  set (b3 := round3_loop _ _ _ _ _ _ _ _) in *.
  set (sd := showdown_loop _ _ _ _) in *.
  unfold unallocated, outcome_ok in *.
  destruct (tr_outcome tr) eqn:Eo.
  - (* halt *)
    destruct Out as [_ [_ [_ [Ep [Es Ea]]]]].
    rewrite Ea, Ep, Es, Sout, S0. simpl.
    rewrite Sout in Hpot. clear - C0 Hpot.
    split; [lra|]. split; [lra | discriminate].
  - (* early win *)
    destruct Out as [_ [w [Er2 [_ [Ep [Es _]]]]]].
    destruct Sout as [[_ [_ [Sb1 Sr2]]] [Spot Spl]].
    rewrite Sr2 in Er2. rewrite Er2 in Spl. cbn [nth] in Spl.
    assert (Hw : (w < List.length (b_players b1))%nat).
    { rewrite Lb1. apply (seats_lt _ post); [exact S2|].
      rewrite Er2. left. reflexivity. }
    rewrite Spl, Ep, Es, Sb1, Spot.
    rewrite chips_set_player by exact Hw. simpl.
    pose proof (Q.le_min_r
                  (4 * (BUY_IN + current_bet_r1 (player_at (b_players b1) w)))
                  (b_pot b1)) as Hmin.
    clearbody b1. clear - C0 Cb1 Hmin.
    split; [lra|]. split; [lra | discriminate].
  - (* nobody left after round 1 *)
    destruct Out as [_ [_ [Ep [Es [Epl _]]]]].
    destruct Sout as [[_ [_ [Sb1 _]]] Spot].
    rewrite Epl, Ep, Es, Sb1, Spot. simpl. rewrite Spot in Hpot.
    clearbody b1. clear - C0 Cb1 Hpot.
    split; [lra|]. split; [lra | discriminate].
  - (* no winner *)
    destruct Out as [_ [_ [_ [Ep [Es Ea]]]]].
    destruct Sout as [_ [_ [_ [Spot [Ssd _]]]]].
    rewrite Ea, Ep, Es, Ssd, Spot. simpl. rewrite Spot in Hpot.
    clearbody sd b3. clear - C0 Csd Hpot.
    split; [lra|]. split; [lra | discriminate].
  - (* showdown and payouts *)
    destruct Out as [_ [[Hr2 _] [Hw0 _]]].
    destruct Sout as [[_ [_ [_ Sr2]]]
                        [[_ [_ [Spot [_ [Swin _]]]]] [Sp [Ssh [Spl _]]]]].
    rewrite Swin in Hw0. rewrite Sr2 in Hr2.
    set (nw := List.length (sd_winners sd)) in *.
    assert (Hnw : (1 <= nw)%nat).
    { unfold nw. destruct (sd_winners sd); [congruence | simpl; lia]. }
    set (sm := b_pot b3 / Qnat nw).
    set (pay := payout_loop (tr_before tr) (b_pot b3) sd) in *.
    assert (Epay : pay
                   = fold_left (payout_step nw sm) (sd_winners sd)
                       (mkPayout (sd_players sd) (no_of_wins (tr_before tr))
                          0 []))
      by reflexivity.
    destruct (payout_loop_log nw sm (sd_players sd) (sd_winners sd)
                (mkPayout (sd_players sd) (no_of_wins (tr_before tr)) 0 []))
      as [Hlog [Htot _]]; [reflexivity|].
    rewrite <- Epay in Hlog, Htot. simpl in Hlog, Htot.
    assert (Hpaid : sumQ (amounts (pay_paid pay)) == pay_total_win pay).
    { rewrite Htot, Hlog. unfold amounts. rewrite map_map. simpl. ring. }
    assert (Hle : pay_total_win pay <= b_pot b3).
    { rewrite Htot.
      eapply Qle_trans;
        [apply Qplus_le_r,
           (sumQ_min_le (fun w => winning_cap (player_at (sd_players sd) w)))|].
      fold nw. unfold sm. field_simplify; [lra|].
      intros C. pose proof (Qnat_pos nw) as P.
      rewrite C in P. specialize (P ltac:(lia)). lra. }
    assert (Cpay : chips (pay_players pay) + - pay_total_win pay
                   == chips (sd_players sd) + - 0).
    { rewrite Epay.
      apply (fold_chips pay_players (fun st => - pay_total_win st) _
               (payout_step_chips nw sm) (sd_winners sd)
               (mkPayout (sd_players sd) (no_of_wins (tr_before tr)) 0 [])).
      cbn [pay_players]. rewrite Lsd. apply Sw. }
    assert (Lpay : List.length (pay_players pay) = List.length (r0_players r0)).
    { rewrite <- Lsd, Epay.
      apply (fold_touch_wf pay_players _ (paid sm) (payout_step_touch nw sm)
               (paid_index sm) _
               (mkPayout (sd_players sd) (no_of_wins (tr_before tr)) 0 [])). }
    rewrite Spl, Sp, Ssh, Spot, Hpaid.
    set (rem := b_pot b3 - pay_total_win pay) in *.
    set (share := rem / Qnat (List.length post)) in *.
    assert (Hshare : 0 < rem -> Qnat (List.length post) * share == rem).
    { intros _. unfold share. field.
      intros C. pose proof (Qnat_pos (List.length post)) as P.
      rewrite C in P. specialize (P ltac:(lia)). lra. }
    assert (Hrem : rem == b_pot b3 - pay_total_win pay) by reflexivity.
    destruct (Qltb 0 rem) eqn:Erem.
    + apply Qltb_lt in Erem. specialize (Hshare Erem).
      rewrite share_loop_chips by (rewrite Lpay; apply S2).
      unfold amounts. rewrite map_map. cbn [snd].
      rewrite sumQ_const, Hshare.
      clearbody share rem pay sd b3. clear - C0 Csd Cpay Hrem.
      split; [lra|]. split; [lra|]. intros _. lra.
    + apply Qltb_ge in Erem. simpl sumQ.
      clearbody share rem pay sd b3. clear - C0 Csd Cpay Hrem Erem Hle.
      split; [lra|]. split; [lra|]. intros _. lra.
Qed.


(** The credits to [no_of_wins] of a turn add up to one win when the turn
    has a winner, and to nothing otherwise. *)
Lemma turn_wins (tr : HandTrace) :
  turn treys_evaluate env game_num tr ->
  sumQ (no_of_wins (tr_after tr))
  == sumQ (no_of_wins (tr_before tr)) + win_credit tr.
Proof.
  intros Ht.
  destruct (turn_facts treys_evaluate env game_num tr Ht)
    as [Hok [r0 [deck' [E0 [Ec St]]]]].
  destruct Ht as [Hwf _].
  assert (Hp : played tr) by (split; assumption).
  pose proof Hwf as [Hwi [_ [Hwl _]]].
  pose proof (ok_outcome _ _ _ Hok) as Out.
  unfold stages in St. cbv zeta in St.
  destruct St as [_ [_ [S0 [Sact Sout]]]].
  unfold win_credit, outcome_ok in *.
  destruct (tr_outcome tr) eqn:Eo.
  - destruct Out as [_ [_ [_ [_ [_ Ea]]]]]. rewrite Ea. simpl. ring.
  - destruct Out as [[_ [_ [S1 [_ [_ Er2]]]]] [w [Ew [_ [_ [_ [_ [_ [Ewins _]]]]]]]]].
    assert (Hw : (w < List.length (players (tr_before tr)))%nat).
    { apply (seats_lt _ _ w S1).
      assert (Hin : In w (tr_round2_active_indices tr))
        by (rewrite Ew; left; reflexivity).
      rewrite Er2 in Hin. apply filter_In in Hin. apply Hin. }
    destruct (played_tables tr (tr_players_round1 tr) Hp) as [_ [W1 L1]].
    { unfold snapshots. simpl. tauto. }
    rewrite Ewins, (well_indexed_at _ w W1) by (rewrite L1; exact Hw).
    rewrite sumQ_list_update by (rewrite Hwl; exact Hw). ring.
  - destruct Out as [_ [_ [_ [_ [_ [Ewins _]]]]]]. rewrite Ewins. ring.
  - destruct Out as [_ [_ [_ [_ [_ Ea]]]]]. rewrite Ea. simpl. ring.
  - destruct Out as [_ [_ [Hw0 [Sw _]]]].
    destruct Sout as [_ [[_ [_ [_ [Ssd [Swin [_ Swins]]]]]] _]].
    destruct (played_tables tr (tr_players_showdown tr) Hp) as [_ [Wsd Lsd]].
    { unfold snapshots. simpl. tauto. }
    rewrite Ssd in Wsd, Lsd. rewrite Swin in Hw0, Sw.
    rewrite Swins. unfold payout_loop. cbv zeta.
    set (sd := showdown_loop _ _ _ _) in *. clearbody sd.
    rewrite payout_loop_wins.
    + cbn [pay_no_of_wins].
      assert (Hn : ~ Qnat (List.length (sd_winners sd)) == 0).
      { intros C. pose proof (Qnat_pos (List.length (sd_winners sd))) as P.
        rewrite C in P.
        destruct (sd_winners sd); [congruence|].
        specialize (P ltac:(simpl; lia)). lra. }
      field. exact Hn.
    + exact Wsd.
    + cbn [pay_no_of_wins pay_players]. rewrite Hwl, Lsd. reflexivity.
    + cbn [pay_players]. rewrite Lsd. apply Sw.
Qed.

(** A player of a well-indexed table sits at the seat of its index. *)
Lemma well_indexed_In (ps : list PlayerState) (p : PlayerState) :
  well_indexed ps -> In p ps ->
  (index p < List.length ps)%nat /\ player_at ps (index p) = p.
Proof.
  intros Hwi Hin.
  destruct (In_nth ps p (new_player "" O) Hin) as [k [Hk Ek]].
  assert (E : index p = k).
  { rewrite <- Ek. apply (well_indexed_at ps k Hwi Hk). }
  rewrite E. split; [exact Hk | exact Ek].
Qed.

(** The seats that buy in are those of the funded players. *)
Lemma active_funded (tr : HandTrace) (i : nat) :
  played tr ->
  In i (tr_active_players_indices tr) ->
  (i < List.length (players (tr_before tr)))%nat
  /\ funded (player_at (players (tr_before tr)) i) = true.
Proof.
  intros [Hwf Hok] Hi.
  rewrite (ok_active _ _ _ Hok) in Hi. apply in_map_iff in Hi.
  destruct Hi as [p [Ep Hp]]. apply filter_In in Hp. destruct Hp as [Hp Hf].
  destruct (well_indexed_In _ p (proj1 Hwf) Hp) as [Hlt Eat].
  rewrite Ep in *. rewrite Eat. split; assumption.
Qed.

(** The lists of seats of a turn, one inside the other. *)
Lemma turn_seats (tr : HandTrace) :
  played tr ->
  tr_outcome tr <> Halt ->
  incl (tr_round1_active_indices tr) (tr_active_players_indices tr)
  /\ incl (tr_round2_active_indices tr) (tr_round1_active_indices tr)
  /\ (forall i, In i (tr_round2_active_indices tr) ->
                has_folded (player_at (tr_players_round1 tr) i) = false)
  /\ (forall i, In i (tr_round1_active_indices tr) ->
                has_folded (player_at (tr_players_round1 tr) i) = false ->
                In i (tr_round2_active_indices tr)).
Proof.
  intros Hp Ho.
  destruct (played_not_halt tr Hp Ho) as [_ [_ [_ [Hincl [_ Er2]]]]].
  split; [exact Hincl|]. rewrite Er2. split; [|split].
  - intros i Hi. apply filter_In in Hi. apply Hi.
  - intros i Hi. apply filter_In in Hi. destruct Hi as [_ Hi].
    destruct (has_folded _); [discriminate | reflexivity].
  - intros i Hi Hf. apply filter_In. split; [exact Hi|]. rewrite Hf.
    reflexivity.
Qed.

(** A seat that did not buy in is left as round 0 left it. *)
Lemma turn_frame (tr : HandTrace) (i : nat) :
  played tr ->
  ~ In i (tr_active_players_indices tr) ->
  player_at (players (tr_after tr)) i = player_at (tr_players_round0 tr) i.
Proof.
  intros Hp Hi. pose proof Hp as [Hwf Hok].
  pose proof (ok_outcome _ _ _ Hok) as Out. unfold outcome_ok in Out.
  destruct (tr_outcome tr) eqn:Eo.
  { destruct Out as [_ [_ [_ [_ [_ Ea]]]]]. rewrite Ea. reflexivity. }
  all: assert (Ho : tr_outcome tr <> Halt) by (rewrite Eo; discriminate).
  all: destruct (turn_seats tr Hp Ho) as [I1 [I2 _]].
  all: assert (Hi1 : ~ In i (tr_round1_active_indices tr))
         by (intros C; apply Hi, I1, C).
  all: assert (Hi2 : ~ In i (tr_round2_active_indices tr))
         by (intros C; apply Hi1, I2, C).
  - destruct Out as [[_ [Maf [_ [_ [Mb1 _]]]]]
                       [w [Ew [_ [_ [_ [_ [Msh _]]]]]]]].
    rewrite (proj2 Msh), (proj2 Mb1), (proj2 Maf); try assumption;
      [reflexivity|].
    rewrite <- Ew. exact Hi2.
  - destruct Out as [[_ [Maf [_ [_ [Mb1 _]]]]] [_ [_ [_ [Epl _]]]]].
    rewrite Epl, (proj2 Mb1), (proj2 Maf); try assumption. reflexivity.
  - destruct Out as [[_ [Maf [_ [_ [Mb1 _]]]]]
                       [[_ [_ [Mb2 [Mb3 Msd]]]] [_ [_ [_ Ea]]]]].
    rewrite Ea. simpl.
    rewrite (proj2 Msd), (proj2 Mb3), (proj2 Mb2), (proj2 Mb1), (proj2 Maf);
      try assumption. reflexivity.
  - destruct Out as [[_ [Maf [_ [_ [Mb1 _]]]]]
                       [[_ [_ [Mb2 [Mb3 Msd]]]]
                          [_ [_ [Iw [[_ Mpay] [_ [_ [Hsh _]]]]]]]]].
    assert (Hiw : ~ In i (tr_winners tr)) by (intros C; apply Hi, Iw, C).
    assert (E : player_at (players (tr_after tr)) i
                = player_at (tr_players_paid tr) i).
    { cbv zeta in Hsh. destruct (Qltb 0 (tr_remaining_pot tr)).
      - destruct Hsh as [_ Msh]. apply (proj2 Msh). exact Hi2.
      - destruct Hsh as [_ Epl]. rewrite Epl. reflexivity. }
    rewrite E.
    rewrite (proj2 Mpay), (proj2 Msd), (proj2 Mb3), (proj2 Mb2), (proj2 Mb1),
      (proj2 Maf); try assumption. reflexivity.
Qed.


Lemma settled_fields (p p' : PlayerState) :
  settled p p' ->
  index p' = index p /\ has_folded p' = false
  /\ current_bet_r1 p' = 0 /\ current_bet_r2 p' = 0 /\ final_round_bet p' = 0
  /\ (funded p = true -> stack p' = stack p - BUY_IN
                         /\ is_lost_match p' = false
                         /\ List.length (hole_cards p') = 2%nat)
  /\ (funded p = false -> is_lost_match p' = true /\ hole_cards p' = []).
Proof.
  unfold settled, funded.
  destruct (is_lost_match p) eqn:El.
  { intros ->. simpl. rewrite El.
    repeat split; try reflexivity; intros; discriminate. }
  destruct (Qltb (stack p) BUY_IN).
  { intros ->. simpl.
    repeat split; try reflexivity; intros; discriminate. }
  intros [c1 [c2 ->]]. simpl. rewrite El.
  repeat split; try reflexivity; intros; discriminate.
Qed.

(** Round 0 of a turn, seat by seat. *)
Lemma turn_round0 (tr : HandTrace) :
  turn treys_evaluate env game_num tr ->
  Forall2 settled (players (tr_before tr)) (tr_players_round0 tr).
Proof.
  intros Ht.
  destruct (turn_facts treys_evaluate env game_num tr Ht)
    as [_ [r0 [deck' [E0 [_ St]]]]].
  destruct (buy_in_loop_deal _ _ _ _ E0) as [F2 _].
  destruct St as [_ [_ [S0 _]]]. rewrite S0. exact F2.
Qed.

(** A seat eliminated before the turn is not dealt in, and the turn only
    resets its per-game fields. *)
Lemma turn_frozen (tr : HandTrace) (i : nat) :
  turn treys_evaluate env game_num tr ->
  is_lost_match (player_at (players (tr_before tr)) i) = true ->
  ~ In i (tr_active_players_indices tr)
  /\ player_at (players (tr_after tr)) i
     = reset_round (player_at (players (tr_before tr)) i).
Proof.
  intros Ht Hl. pose proof (turn_round0 tr Ht) as F2.
  destruct (turn_facts treys_evaluate env game_num tr Ht) as [Hok _].
  destruct Ht as [Hwf _].
  assert (Hp : played tr) by (split; assumption).
  assert (Hi : (i < List.length (players (tr_before tr)))%nat).
  { destruct (Nat.lt_ge_cases i (List.length (players (tr_before tr))))
      as [G|G]; [exact G|].
    rewrite player_at_overflow in Hl by exact G. discriminate. }
  assert (Hact : ~ In i (tr_active_players_indices tr)).
  { intros C. destruct (active_funded tr i Hp C) as [_ Hf].
    unfold funded in Hf. rewrite Hl in Hf. discriminate. }
  split; [exact Hact|].
  rewrite (turn_frame tr i Hp Hact).
  pose proof (Forall2_player_at settled _ _ F2 i Hi) as Hs.
  unfold settled in Hs. rewrite Hl in Hs. exact Hs.
Qed.

(** Round 1, seat by seat: a seat that can afford the round holds at least
    100; it folds, and keeps its stack, or it bets between 100 and 300. *)
Lemma turn_round1 (tr : HandTrace) (i : nat) :
  turn treys_evaluate env game_num tr ->
  In i (tr_round1_active_indices tr) ->
  let p := player_at (tr_players_afford tr) i in
  let p' := player_at (tr_players_round1 tr) i in
  player_at (tr_players_round0 tr) i = p
  /\ 100 <= stack p
  /\ ((has_folded p' = true /\ current_bet_r1 p' = 0 /\ stack p' = stack p)
      \/ (has_folded p' = false
          /\ 100 <= current_bet_r1 p' /\ current_bet_r1 p' <= 300
          /\ current_bet_r1 p' <= stack p
          /\ stack p' = stack p - current_bet_r1 p')).
Proof.
  intros Ht Hi. pose proof (turn_round0 tr Ht) as F2.
  destruct (turn_facts treys_evaluate env game_num tr Ht)
    as [Hok [r0 [deck' [E0 [Ec St]]]]].
  destruct Ht as [Hwf _].
  assert (Hp : played tr) by (split; assumption).
  pose proof (ok_outcome _ _ _ Hok) as Out. unfold outcome_ok in Out.
  assert (Ho : tr_outcome tr <> Halt).
  { intros C. rewrite C in Out. destruct Out as [_ [E _]].
    rewrite E in Hi. destruct Hi. }
  destruct (played_not_halt tr Hp Ho) as [_ [Maf [S1 [I1 [Mb1 _]]]]].
  pose proof (ok_seats _ _ _ Hok) as Hact.
  unfold stages in St. cbv zeta in St.
  destruct St as [_ [_ [S0 [Sact Sout]]]].
  assert (Saf : tr_players_afford tr = af_players (afford_loop r0)
                /\ tr_round1_active_indices tr
                   = af_round1_active_indices (afford_loop r0)).
  { destruct (tr_outcome tr); try congruence;
      destruct Sout as [[A [B _]] _]; split; assumption. }
  destruct Saf as [Saf Sr1]. clear Sout.
  assert (Hst : 100 <= stack (player_at (tr_players_afford tr) i)).
  { rewrite Saf. rewrite Sr1 in Hi.
    apply (afford_loop_affordable (r0_active_players_indices r0)
             (mkAfford (r0_players r0) (r0_pot r0) [])).
    - simpl. rewrite <- Sact. apply Hact.
    - intros j [].
    - exact Hi. }
  assert (Hia : In i (tr_active_players_indices tr)) by (apply I1, Hi).
  destruct (active_funded tr i Hp Hia) as [Hlt Hf].
  pose proof (Forall2_player_at settled _ _ F2 i Hlt) as Hs.
  destruct (settled_fields _ _ Hs) as [_ [Hf0 [Hb0 _]]].
  assert (E0' : player_at (tr_players_afford tr) i
                = player_at (tr_players_round0 tr) i).
  { destruct (proj1 Maf i Hia) as [E|E]; [exact E|].
    rewrite E in Hst. simpl in Hst. exfalso. revert Hst. clear. lra. }
  cbv zeta. split; [symmetry; exact E0'|]. split; [exact Hst|].
  pose proof (proj1 Mb1 i Hi) as Hact1.
  set (p := player_at (tr_players_afford tr) i) in *.
  rewrite <- E0' in Hf0, Hb0.
  destruct Hact1 as [[wp ->] | [val [wp ->]]]; simpl.
  - left. repeat split; assumption.
  - right. split; [exact Hf0|].
    unfold r1_price.
    assert (G1 : 100 <= Qmax 100 (Qmin 300 val)) by apply Q.le_max_l.
    assert (G2 : Qmax 100 (Qmin 300 val) <= 300).
    { apply Q.max_lub; [discriminate | apply Q.le_min_l]. }
    split; [apply Q.min_glb; assumption|].
    split; [eapply Qle_trans; [apply Q.le_min_l | exact G2]|].
    split; [apply Q.le_min_r | reflexivity].
Qed.

(** Nobody folds after round 1. *)
Lemma turn_no_late_fold (tr : HandTrace) (i : nat) :
  played tr ->
  tr_outcome tr = NoWinner \/ tr_outcome tr = ShowdownPaid ->
  has_folded (player_at (tr_players_round3 tr) i)
  = has_folded (player_at (tr_players_round1 tr) i)
  /\ hole_cards (player_at (tr_players_round3 tr) i)
     = hole_cards (player_at (tr_players_round1 tr) i).
Proof.
  intros [Hwf Hok] Ho.
  pose proof (ok_outcome _ _ _ Hok) as Out. unfold outcome_ok in Out.
  assert (B : betting_ok (tr_before tr) tr).
  { destruct Ho as [E|E]; rewrite E in Out; apply Out. }
  destruct B as [_ [_ [Mb2 [Mb3 _]]]].
  destruct (in_dec Nat.eq_dec i (tr_round2_active_indices tr)) as [Hi|Hi].
  - destruct (proj1 Mb3 i Hi) as [v3 [w3 ->]].
    destruct (proj1 Mb2 i Hi) as [v2 [w2 ->]]. split; reflexivity.
  - rewrite (proj2 Mb3 i Hi), (proj2 Mb2 i Hi). split; reflexivity.
Qed.

(** The showdown has a winner, and the winners are the contenders with the
    lowest score. *)
Lemma turn_showdown (tr : HandTrace) :
  turn treys_evaluate env game_num tr ->
  tr_outcome tr = NoWinner \/ tr_outcome tr = ShowdownPaid ->
  tr_winners tr <> []
  /\ forall w,
       In w (tr_winners tr)
       <-> contender tr w
           /\ forall j, contender tr j ->
                (showdown_score treys_evaluate tr w
                 <= showdown_score treys_evaluate tr j)%Z.
Proof.
  intros Ht Ho.
  destruct (turn_facts treys_evaluate env game_num tr Ht)
    as [Hok [r0 [deck' [E0 [Ec St]]]]].
  destruct Ht as [Hwf _].
  assert (Hp : played tr) by (split; assumption).
  pose proof (ok_outcome _ _ _ Hok) as Out. unfold outcome_ok in Out.
  assert (B : betting_ok (tr_before tr) tr).
  { destruct Ho as [E|E]; rewrite E in Out; apply Out. }
  assert (Hnh : tr_outcome tr <> Halt) by (destruct Ho; congruence).
  destruct (turn_seats tr Hp Hnh) as [I1 [I2 [Hunf _]]].
  unfold stages in St. cbv zeta in St.
  destruct St as [_ [_ [S0 [Sact Sout]]]].
  set (b3 := round3_loop _ _ _ _ _ _ _ _) in *.
  assert (Ssd : tr_players_round3 tr = b_players b3
                /\ tr_winners tr
                   = sd_winners
                       (showdown_loop treys_evaluate (tr_community_cards tr)
                          r0 b3)).
  { destruct Ho as [E|E]; rewrite E in Sout.
    - destruct Sout as [_ [_ [A [_ [_ [C _]]]]]]. split; assumption.
    - destruct Sout as [_ [[_ [A [_ [_ [C _]]]]] _]]. split; assumption. }
  destruct Ssd as [S3 Sw]. clear Sout. clearbody b3.
  pose proof (showdown_loop_winners treys_evaluate (tr_community_cards tr)
                (b_players b3) (r0_active_players_indices r0)
                (mkShowdown (b_players b3) 7463 [] []) []) as Hinv.
  cbv zeta in Hinv.
  destruct Hinv as [J1 [J2 [J3 J4]]].
  { intros i. split; reflexivity. }
  { unfold showdown_inv. simpl. split; [lia|]. split; [intros ? []|].
    split; [tauto|]. intros _. split; [reflexivity | intros ? []]. }
  fold (showdown_loop treys_evaluate (tr_community_cards tr) r0 b3)
    in J1, J2, J3, J4.
  rewrite <- Sw in J3, J4. rewrite <- S3 in J2, J3, J4.
  rewrite <- Sact in J2, J3, J4. simpl in J2, J3, J4.
  (* a seat that went to round 2 did not fold *)
  assert (Hex : exists i, contender tr i).
  { destruct B as [Hlen _].
    assert (Hi : exists i, In i (tr_round2_active_indices tr)).
    { destruct (tr_round2_active_indices tr) as [|i rest];
        [simpl in Hlen; lia|]. exists i. left. reflexivity. }
    destruct Hi as [i Hi].
    exists i. split; [apply I1, I2, Hi|].
    rewrite (proj1 (turn_no_late_fold tr i Hp Ho)). apply Hunf, Hi. }
  assert (Hne : tr_winners tr <> []).
  { intros C. destruct Hex as [i [Hi Hf]].
    destruct (J4 C) as [_ Hall]. rewrite (Hall i Hi) in Hf. discriminate. }
  split; [exact Hne|].
  assert (Hbest : exists w0, In w0 (tr_winners tr)).
  { destruct (tr_winners tr) as [|w0 ?]; [congruence|].
    exists w0. left. reflexivity. }
  destruct Hbest as [w0 Hw0]. pose proof (proj1 (J3 w0) Hw0) as [Hw0a [Hw0f Hw0s]].
  intros w. rewrite J3. unfold contender, showdown_score. split.
  - intros [Hwa [Hwf' Hws]]. split; [split; assumption|].
    intros j [Hja Hjf]. rewrite Hws. apply J2; assumption.
  - intros [[Hwa Hwf'] Hmin]. split; [exact Hwa|]. split; [exact Hwf'|].
    specialize (Hmin w0 (conj Hw0a Hw0f)).
    specialize (J2 w Hwa Hwf'). lia.
Qed.

(** The branch [if not winners: continue] is never taken. *)
Lemma turn_has_winner (tr : HandTrace) :
  turn treys_evaluate env game_num tr -> tr_outcome tr <> NoWinner.
Proof.
  intros Ht C.
  destruct (turn_showdown tr Ht (or_introl C)) as [Hne _].
  destruct (turn_facts treys_evaluate env game_num tr Ht) as [Hok _].
  pose proof (ok_outcome _ _ _ Hok) as Out. unfold outcome_ok in Out.
  rewrite C in Out. destruct Out as [_ [_ [E _]]]. contradiction.
Qed.


(** A seat that folds in round 1 leaves the turn with its stack less the
    buy-in. *)
Lemma turn_fold_cost (tr : HandTrace) (i : nat) :
  turn treys_evaluate env game_num tr ->
  In i (tr_round1_active_indices tr) ->
  has_folded (player_at (tr_players_round1 tr) i) = true ->
  stack (player_at (players (tr_after tr)) i)
  = stack (player_at (players (tr_before tr)) i) - BUY_IN.
Proof.
  intros Ht Hi Hf. pose proof (turn_round0 tr Ht) as F2.
  destruct (turn_round1 tr i Ht Hi) as [E0 [_ Hact]].
  pose proof (turn_has_winner tr Ht) as Hnw.
  assert (Hsd : tr_outcome tr = ShowdownPaid ->
                ~ In i (tr_winners tr)).
  { intros Eo C.
    destruct (turn_showdown tr Ht (or_intror Eo)) as [_ Hw].
    apply Hw in C. destruct C as [[_ C] _].
    destruct (turn_facts treys_evaluate env game_num tr Ht) as [Hok _].
    destruct Ht as [Hwf _].
    rewrite (proj1 (turn_no_late_fold tr i (conj Hwf Hok) (or_intror Eo)))
      in C. congruence. }
  destruct (turn_facts treys_evaluate env game_num tr Ht) as [Hok _].
  destruct Ht as [Hwf _].
  assert (Hp : played tr) by (split; assumption).
  pose proof (ok_outcome _ _ _ Hok) as Out. unfold outcome_ok in Out.
  assert (Ho : tr_outcome tr <> Halt).
  { intros C. rewrite C in Out. destruct Out as [_ [E _]].
    rewrite E in Hi. destruct Hi. }
  destruct (turn_seats tr Hp Ho) as [I1 [I2 [Hunf _]]].
  assert (Hi2 : ~ In i (tr_round2_active_indices tr)).
  { intros C. rewrite (Hunf i C) in Hf. discriminate. }
  assert (Hia : In i (tr_active_players_indices tr)) by (apply I1, Hi).
  destruct (active_funded tr i Hp Hia) as [Hlt Hfund].
  pose proof (Forall2_player_at settled _ _ F2 i Hlt) as Hs.
  destruct (settled_fields _ _ Hs) as [_ [_ [_ [_ [_ [Hst _]]]]]].
  destruct (Hst Hfund) as [Est _].
  cbv zeta in Hact, E0.
  assert (E1 : stack (player_at (tr_players_round1 tr) i)
               = stack (player_at (players (tr_before tr)) i) - BUY_IN).
  { destruct Hact as [[_ [_ E]]|[C _]]; [|congruence].
    rewrite E, <- E0. exact Est. }
  rewrite <- E1.
  destruct (tr_outcome tr) eqn:Eo; try congruence.
  - destruct Out as [_ [w [Ew [_ [_ [_ [_ [Msh _]]]]]]]].
    rewrite (proj2 Msh); [reflexivity|]. rewrite <- Ew. exact Hi2.
  - destruct Out as [_ [_ [_ [_ [Epl _]]]]]. rewrite Epl. reflexivity.
  - destruct Out as [_ [[_ [_ [Mb2 [Mb3 Msd]]]]
                          [_ [_ [_ [[_ Mpay] [_ [_ [Hsh _]]]]]]]]].
    assert (E : player_at (players (tr_after tr)) i
                = player_at (tr_players_paid tr) i).
    { cbv zeta in Hsh. destruct (Qltb 0 (tr_remaining_pot tr)).
      - destruct Hsh as [_ Msh]. apply (proj2 Msh). exact Hi2.
      - destruct Hsh as [_ Epl]. rewrite Epl. reflexivity. }
    rewrite E, (proj2 Mpay) by (apply Hsd; reflexivity).
    rewrite <- (proj2 Mb2 i Hi2), <- (proj2 Mb3 i Hi2).
    destruct (proj1 Msd i Hia) as [->|[sc ->]]; reflexivity.
Qed.

Lemma create_deck_NoDup : NoDup create_deck.
Proof. apply distinct_NoDup. vm_compute. reflexivity. Qed.

(** The cards of a turn are different cards of the deck: two for every
    player who buys in, none for the others, and five on the board. *)
Lemma turn_deal (tr : HandTrace) :
  turn treys_evaluate env game_num tr ->
  NoDup (cards_dealt tr)
  /\ incl (cards_dealt tr) create_deck
  /\ List.length (tr_community_cards tr) = 5%nat
  /\ Forall2
       (fun p p' =>
          List.length (hole_cards p') = if funded p then 2%nat else 0%nat)
       (players (tr_before tr)) (tr_players_round0 tr).
Proof.
  intros Ht. pose proof (turn_round0 tr Ht) as F2.
  destruct (turn_facts treys_evaluate env game_num tr Ht)
    as [_ [r0 [deck' [E0 [Ec St]]]]].
  destruct (buy_in_loop_deal _ _ _ _ E0) as [_ [P _]].
  destruct (pop_n_perm _ _ _ _ Ec) as [Pc Lc].
  destruct St as [_ [_ [S0 _]]].
  assert (Pall : Permutation (cards_dealt tr ++ deck') create_deck).
  { unfold cards_dealt. rewrite S0, <- app_assoc.
    etransitivity; [|apply (shuffle_perm (deck_draws env game_num))].
    etransitivity; [|exact P].
    apply Permutation_app_head. exact Pc. }
  split; [|split; [|split]].
  - apply (NoDup_app_remove_r _ deck').
    apply (Permutation_NoDup (Permutation_sym Pall)), create_deck_NoDup.
  - intros c Hc. apply (Permutation_in _ Pall).
    apply in_or_app. left. exact Hc.
  - exact Lc.
  - eapply Forall2_impl; [|exact F2]. intros p p' Hs.
    destruct (settled_fields _ _ Hs) as [_ [_ [_ [_ [_ [Hy Hn]]]]]].
    destruct (funded p); [apply Hy; reflexivity|].
    destruct (Hn eq_refl) as [_ ->]. reflexivity.
Qed.

(** A turn that does not halt the match appends one entry to the history,
    which records its pot; a turn that halts it appends nothing. *)
Lemma turn_history (tr : HandTrace) :
  turn treys_evaluate env game_num tr ->
  match tr_outcome tr with
  | Halt => match_history (tr_after tr) = match_history (tr_before tr)
  | _ =>
      exists h,
        match_history (tr_after tr) = match_history (tr_before tr) ++ [h]
        /\ rh_pot_final h = tr_pot tr
  end.
Proof.
  intros Ht. pose proof (turn_has_winner tr Ht) as Hnw.
  destruct (turn_facts treys_evaluate env game_num tr Ht) as [Hok _].
  pose proof (ok_outcome _ _ _ Hok) as Out. unfold outcome_ok in Out.
  destruct (tr_outcome tr) eqn:Eo; try congruence.
  - destruct Out as [_ [_ [_ [_ [_ Ea]]]]]. rewrite Ea. reflexivity.
  - destruct Out as [_ [w [_ [_ [_ [_ [_ [_ [_ Eh]]]]]]]]].
    eexists. split; [exact Eh | reflexivity].
  - destruct Out as [_ [_ [_ [_ [_ [_ Eh]]]]]].
    eexists. split; [exact Eh | reflexivity].
  - destruct Out as [_ [_ [_ [_ [_ [_ [_ [_ [_ [h [Eh [_ Ep]]]]]]]]]]]].
    exists h. split; assumption.
Qed.

End TurnFacts.

(** ** The match *)

Section MatchFacts.

Import EngineCore Main Invariant Turn.

Variable treys_evaluate : list card -> option Z.
Variable env : Env.

(** What holds of every turn of a game holds of the turns of a chain. *)
Lemma turns_forall (P : HandTrace -> Prop) :
  (forall g tr, turn treys_evaluate env g tr -> P tr) ->
  forall (trs : list HandTrace) (first : nat),
    turns treys_evaluate env first trs -> Forall P trs.
Proof.
  intros HP. induction trs as [|tr rest IH]; intros first H; constructor.
  - apply (HP first). apply H.
  - apply (IH (S first)). apply H.
Qed.

(** A quantity no turn raises is not raised by the match. *)
Lemma chained_le (f : MatchState -> Q) (trs : list HandTrace) :
  forall ms ms' : MatchState,
    Forall (fun tr => f (tr_after tr) <= f (tr_before tr)) trs ->
    chained ms trs ms' ->
    f ms' <= f ms.
Proof.
  induction trs as [|tr rest IH]; intros ms ms' HF Hc; simpl in Hc.
  - subst ms'. apply Qle_refl.
  - inversion HF as [|? ? Htr Hrest]; subst.
    destruct Hc as [Eb Hc]. rewrite Eb in Htr.
    destruct (tr_outcome tr);
      try (eapply Qle_trans; [apply (IH _ _ Hrest Hc) | exact Htr]).
    destruct Hc as [_ ->]. exact Htr.
Qed.

(** What the turns add to a quantity, the match adds up. *)
Lemma chained_sum (f : MatchState -> Q) (d : HandTrace -> Q)
  (trs : list HandTrace) :
  forall ms ms' : MatchState,
    Forall (fun tr => f (tr_after tr) == f (tr_before tr) + d tr) trs ->
    chained ms trs ms' ->
    f ms' == f ms + sumQ (map d trs).
Proof.
  induction trs as [|tr rest IH]; intros ms ms' HF Hc; simpl in Hc.
  - subst ms'. simpl. ring.
  - inversion HF as [|? ? Htr Hrest]; subst.
    destruct Hc as [Eb Hc]. rewrite Eb in Htr.
    unfold sumQ in *. cbn [map fold_right].
    destruct (tr_outcome tr);
      try (rewrite (IH _ _ Hrest Hc), Htr; ring).
    destruct Hc as [-> ->]. rewrite Htr. simpl. ring.
Qed.

(** The turns from a position on are a chain to the same end. *)
Lemma chained_suffix (trs : list HandTrace) :
  forall (ms ms' : MatchState) (k : nat) (tr : HandTrace),
    chained ms trs ms' ->
    nth_error trs k = Some tr ->
    chained (tr_before tr) (skipn k trs) ms'.
Proof.
  induction trs as [|t rest IH]; intros ms ms' k tr Hc Hk.
  - destruct k; discriminate.
  - destruct k as [|k]; simpl in Hk.
    + inversion Hk; subst. simpl. destruct Hc as [_ Hc].
      split; [reflexivity | exact Hc].
    + simpl. destruct Hc as [_ Hc].
      destruct (tr_outcome t); try (apply (IH _ _ _ _ Hc Hk)).
      destruct Hc as [-> _]. destruct k; discriminate.
Qed.

(** The history grows by one entry with every turn that does not halt the
    match. *)
Lemma chained_history (trs : list HandTrace) :
  forall (first : nat) (ms ms' : MatchState),
    turns treys_evaluate env first trs ->
    chained ms trs ms' ->
    exists added,
      match_history ms' = match_history ms ++ added
      /\ forall k tr,
           nth_error trs k = Some tr ->
           (k <= List.length added)%nat
           /\ match_history (tr_before tr)
              = match_history ms ++ firstn k added.
Proof.
  induction trs as [|tr rest IH]; intros first ms ms' Ht Hc; simpl in Hc.
  - subst ms'. exists []. split; [symmetry; apply app_nil_r|].
    intros k tr Hk. destruct k; discriminate.
  - destruct Ht as [Htr Hrest]. destruct Hc as [Eb Hc].
    pose proof (turn_history treys_evaluate env first tr Htr) as Hh.
    assert (Hhalt : tr_outcome tr = Halt ->
              exists added,
                match_history ms' = match_history ms ++ added
                /\ forall k tr0,
                     nth_error (tr :: rest) k = Some tr0 ->
                     (k <= List.length added)%nat
                     /\ match_history (tr_before tr0)
                        = match_history ms ++ firstn k added).
    { intros Eo. rewrite Eo in Hh, Hc. destruct Hc as [-> ->].
      exists []. split; [rewrite Hh, Eb; symmetry; apply app_nil_r|].
      intros k tr0 Hk. destruct k as [|k]; [|destruct k; discriminate].
      injection Hk as <-. split; [simpl; lia|].
      rewrite Eb. symmetry. apply app_nil_r. }
    assert (Hgo : tr_outcome tr <> Halt ->
              chained (tr_after tr) rest ms'
              /\ exists h,
                   match_history (tr_after tr)
                   = match_history (tr_before tr) ++ [h]).
    { intros Eo. destruct (tr_outcome tr); try congruence;
        (split; [exact Hc|]); destruct Hh as [h [Eh _]]; exists h; exact Eh. }
    destruct (tr_outcome tr) eqn:Eo; [apply Hhalt; reflexivity| | | |].
    all: destruct Hgo as [Hc' [h Eh]]; [discriminate|].
    all: destruct (IH (S first) _ _ Hrest Hc') as [added [Ea Hk]].
    all: exists (h :: added).
    all: split; [rewrite Ea, Eh, Eb, <- app_assoc; reflexivity|].
    all: intros k tr0 Hk0; destruct k as [|k]; simpl in Hk0.
    all: try (injection Hk0 as <-; split; [simpl; lia|];
              rewrite Eb; symmetry; apply app_nil_r).
    all: destruct (Hk k tr0 Hk0) as [Hle Ehist].
    all: split; [simpl; lia|].
    all: rewrite Ehist, Eh, Eb, <- app_assoc; reflexivity.
Qed.

(** A seat eliminated when a chain of turns starts is eliminated, with the
    same stack, when it ends. *)
Lemma chained_frozen (i : nat) (trs : list HandTrace) :
  forall (first : nat) (ms ms' : MatchState),
    turns treys_evaluate env first trs ->
    chained ms trs ms' ->
    is_lost_match (player_at (players ms) i) = true ->
    is_lost_match (player_at (players ms') i) = true
    /\ stack (player_at (players ms') i) = stack (player_at (players ms) i).
Proof.
  induction trs as [|tr rest IH]; intros first ms ms' Ht Hc Hl; simpl in Hc.
  - subst ms'. split; [exact Hl | reflexivity].
  - destruct Ht as [Htr Hrest]. destruct Hc as [Eb Hc].
    rewrite <- Eb in Hl.
    destruct (turn_frozen treys_evaluate env first tr i Htr Hl) as [_ Ef].
    assert (Hl' : is_lost_match (player_at (players (tr_after tr)) i) = true)
      by (rewrite Ef; exact Hl).
    assert (Hs' : stack (player_at (players (tr_after tr)) i)
                  = stack (player_at (players ms) i))
      by (rewrite Ef, <- Eb; reflexivity).
    destruct (tr_outcome tr);
      try (destruct (IH (S first) _ _ Hrest Hc Hl') as [G1 G2];
           split; [exact G1 | rewrite G2; exact Hs']).
    destruct Hc as [_ ->]. split; assumption.
Qed.

Lemma turns_suffix (trs : list HandTrace) :
  forall (first k : nat),
    turns treys_evaluate env first trs ->
    turns treys_evaluate env (first + k) (skipn k trs).
Proof.
  induction trs as [|tr rest IH]; intros first k Ht.
  - destruct k; exact I.
  - destruct k as [|k]; simpl.
    + rewrite Nat.add_0_r. exact Ht.
    + replace (first + S k)%nat with (S first + k)%nat by lia.
      apply IH. apply Ht.
Qed.

(** X4.  Round 1 of every turn: a seat in [round1_active_indices] holds at
    least 100 when the bets start; either it folds, bets nothing and keeps
    its stack, or it does not fold and its bet, taken from its stack, lies
    between 100 and 300. *)
Theorem round1_bets_within_100_and_300 :
  exists ms trs,
    play_match treys_evaluate env = Some (ms, trs)
    /\ Forall
         (fun tr =>
            forall i, In i (tr_round1_active_indices tr) ->
              let p := player_at (tr_players_afford tr) i in
              let p' := player_at (tr_players_round1 tr) i in
              100 <= stack p
              /\ ((has_folded p' = true
                   /\ current_bet_r1 p' == 0 /\ stack p' == stack p)
                  \/ (has_folded p' = false
                      /\ 100 <= current_bet_r1 p' /\ current_bet_r1 p' <= 300
                      /\ current_bet_r1 p' <= stack p
                      /\ stack p' == stack p - current_bet_r1 p')))
         trs.
Proof.
  destruct (play_match_turns treys_evaluate env) as [ms [trs [E [_ [T _]]]]].
  exists ms, trs. split; [exact E|].
  eapply turns_forall; [|exact T]. intros g tr Ht. cbv beta. intros i Hi.
  destruct (turn_round1 treys_evaluate env g tr i Ht Hi) as [_ [H1 H2]].
  cbv zeta in *. split; [exact H1|].
  destruct H2 as [[A [B C]]|[A [B [C [D F]]]]]; [left|right].
  - rewrite B, C. repeat split; try assumption; reflexivity.
  - rewrite F. repeat split; try assumption; reflexivity.
Qed.

(** X7.  The entries of [no_of_wins] add up to the number of games won: a turn
    with a winner (a sole survivor of round 1, or a showdown) adds one win
    in all, split evenly between tied winners, and any other turn adds
    nothing. *)
Theorem wins_add_up_to_games_won :
  exists ms trs,
    play_match treys_evaluate env = Some (ms, trs)
    /\ Forall
         (fun tr =>
            sumQ (no_of_wins (tr_after tr))
            == sumQ (no_of_wins (tr_before tr)) + win_credit tr)
         trs
    /\ sumQ (no_of_wins ms) == sumQ (map win_credit trs).
Proof.
  destruct (play_match_turns treys_evaluate env) as [ms [trs [E [_ [T C]]]]].
  exists ms, trs. split; [exact E|].
  assert (F : Forall
                (fun tr =>
                   sumQ (no_of_wins (tr_after tr))
                   == sumQ (no_of_wins (tr_before tr)) + win_credit tr) trs).
  { apply (turns_forall _ (turn_wins treys_evaluate env) trs 1%nat T). }
  split; [exact F|].
  rewrite (chained_sum (fun ms => sumQ (no_of_wins ms)) win_credit trs
             initial_match ms F C).
  simpl. ring.
Qed.

(** X8.  No turn creates chips.  The stacks after a turn and the part of its pot
    the turn gave to nobody add up to the stacks before it; a turn that ends
    in a showdown gives its whole pot away, so it keeps the total of the
    stacks; and the stacks at the end of the match add up to at most the
    five starting stacks. *)
Theorem chips_are_never_created :
  exists ms trs,
    play_match treys_evaluate env = Some (ms, trs)
    /\ Forall
         (fun tr =>
            chips (players (tr_after tr)) + unallocated tr
            == chips (players (tr_before tr))
            /\ 0 <= unallocated tr
            /\ (tr_outcome tr = ShowdownPaid ->
                chips (players (tr_after tr))
                == chips (players (tr_before tr))))
         trs
    /\ chips (players ms)
       <= Qnat (List.length PLAYER_NAMES) * STARTING_STACK.
Proof.
  destruct (play_match_turns treys_evaluate env) as [ms [trs [E [_ [T C]]]]].
  exists ms, trs. split; [exact E|].
  assert (F : Forall
                (fun tr =>
                   chips (players (tr_after tr)) + unallocated tr
                   == chips (players (tr_before tr))
                   /\ 0 <= unallocated tr
                   /\ (tr_outcome tr = ShowdownPaid -> unallocated tr == 0))
                trs).
  { apply (turns_forall _ (turn_chips treys_evaluate env) trs 1%nat T). }
  split.
  - eapply Forall_impl; [|exact F]. intros tr [H1 [H2 H3]].
    split; [exact H1|]. split; [exact H2|]. intros Eo.
    specialize (H3 Eo). rewrite <- H1, H3. ring.
  - apply (Qle_trans _ (chips (players initial_match)));
      [|vm_compute; discriminate].
    apply (chained_le (fun ms => chips (players ms)) trs initial_match ms);
      [|exact C].
    eapply Forall_impl; [|exact F]. intros tr [H1 [H2 _]].
    simpl. rewrite <- H1. clear - H2. lra.
Qed.

(** X9.  A seat that is eliminated when a turn starts is not dealt in; the turn
    resets its per-game fields and leaves the rest, and from then to the end
    of the match the seat stays eliminated with the stack it has. *)
Theorem eliminated_seat_is_frozen :
  exists ms trs,
    play_match treys_evaluate env = Some (ms, trs)
    /\ forall k tr i,
         nth_error trs k = Some tr ->
         is_lost_match (player_at (players (tr_before tr)) i) = true ->
         ~ In i (tr_active_players_indices tr)
         /\ player_at (players (tr_after tr)) i
            = reset_round (player_at (players (tr_before tr)) i)
         /\ is_lost_match (player_at (players ms) i) = true
         /\ stack (player_at (players ms) i)
            = stack (player_at (players (tr_before tr)) i).
Proof.
  destruct (play_match_turns treys_evaluate env) as [ms [trs [E [_ [T C]]]]].
  exists ms, trs. split; [exact E|].
  intros k tr i Hk Hl.
  pose proof (turns_suffix trs 1 k T) as Ts.
  pose proof (chained_suffix trs _ _ k tr C Hk) as Cs.
  assert (Et : exists rest, skipn k trs = tr :: rest).
  { clear - Hk. revert k Hk.
    induction trs as [|t rest IH]; intros [|k] Hk; simpl in *;
      try discriminate.
    - inversion Hk; subst. eexists. reflexivity.
    - apply IH. exact Hk. }
  destruct Et as [rest Et]. rewrite Et in Ts, Cs.
  destruct (turn_frozen treys_evaluate env _ tr i (proj1 Ts) Hl) as [H1 H2].
  destruct (chained_frozen i _ _ _ _ Ts Cs Hl) as [H3 H4].
  repeat split; assumption.
Qed.

(** X10.  The branch [if not winners: continue] is dead code: no turn ends
    there, a turn that reaches the showdown always has a winner. *)
Theorem showdown_always_has_a_winner :
  exists ms trs,
    play_match treys_evaluate env = Some (ms, trs)
    /\ Forall (fun tr => tr_outcome tr <> NoWinner) trs.
Proof.
  destruct (play_match_turns treys_evaluate env) as [ms [trs [E [_ [T _]]]]].
  exists ms, trs. split; [exact E|].
  apply (turns_forall _ (turn_has_winner treys_evaluate env) trs 1%nat T).
Qed.

(** X11.  The winners of a showdown are the seats that bought in and did not
    fold whose seven cards get the lowest score among those seats. *)
Theorem winners_hold_the_lowest_score :
  exists ms trs,
    play_match treys_evaluate env = Some (ms, trs)
    /\ Forall
         (fun tr =>
            tr_outcome tr = ShowdownPaid ->
            forall w,
              In w (tr_winners tr)
              <-> contender tr w
                  /\ forall j, contender tr j ->
                       (showdown_score treys_evaluate tr w
                        <= showdown_score treys_evaluate tr j)%Z)
         trs.
Proof.
  destruct (play_match_turns treys_evaluate env) as [ms [trs [E [_ [T _]]]]].
  exists ms, trs. split; [exact E|].
  eapply turns_forall; [|exact T]. intros g tr Ht. cbv beta. intros Eo.
  apply (turn_showdown treys_evaluate env g tr Ht (or_intror Eo)).
Qed.

(** X6.  Folding costs the buy-in and nothing else: a seat that folds in round 1
    ends the turn with the stack it had before the turn less 100. *)
Theorem folding_costs_the_buy_in :
  exists ms trs,
    play_match treys_evaluate env = Some (ms, trs)
    /\ Forall
         (fun tr =>
            forall i,
              In i (tr_round1_active_indices tr) ->
              has_folded (player_at (tr_players_round1 tr) i) = true ->
              stack (player_at (players (tr_after tr)) i)
              == stack (player_at (players (tr_before tr)) i) - BUY_IN)
         trs.
Proof.
  destruct (play_match_turns treys_evaluate env) as [ms [trs [E [_ [T _]]]]].
  exists ms, trs. split; [exact E|].
  eapply turns_forall; [|exact T]. intros g tr Ht. cbv beta. intros i Hi Hf.
  rewrite (turn_fold_cost treys_evaluate env g tr i Ht Hi Hf). reflexivity.
Qed.

(** X13.  The cards dealt in a turn, hole cards and board together, are
    different cards of the 52-card deck: two hole cards for every player who
    buys in, none for a player who does not, and five community cards. *)
Theorem dealt_cards_are_distinct :
  exists ms trs,
    play_match treys_evaluate env = Some (ms, trs)
    /\ Forall
         (fun tr =>
            NoDup (cards_dealt tr)
            /\ incl (cards_dealt tr) create_deck
            /\ List.length (tr_community_cards tr) = 5%nat
            /\ Forall2
                 (fun p p' =>
                    List.length (hole_cards p')
                    = if funded p then 2%nat else 0%nat)
                 (players (tr_before tr)) (tr_players_round0 tr))
         trs.
Proof.
  destruct (play_match_turns treys_evaluate env) as [ms [trs [E [_ [T _]]]]].
  exists ms, trs. split; [exact E|].
  apply (turns_forall _ (turn_deal treys_evaluate env) trs 1%nat T).
Qed.

(** X14.  When the turn for game number [k + 1] starts, [match_history] holds
    [k] entries, one for each game before; they are the first [k] entries of
    the history at the end of the match: an entry is appended once and never
    changed. *)
Theorem history_holds_the_games_played :
  exists ms trs,
    play_match treys_evaluate env = Some (ms, trs)
    /\ forall k tr,
         nth_error trs k = Some tr ->
         List.length (match_history (tr_before tr)) = k
         /\ match_history (tr_before tr) = firstn k (match_history ms).
Proof.
  destruct (play_match_turns treys_evaluate env) as [ms [trs [E [_ [T C]]]]].
  exists ms, trs. split; [exact E|].
  destruct (chained_history trs 1 initial_match ms T C) as [added [Ea Hk]].
  simpl in Ea. intros k tr Hn. destruct (Hk k tr Hn) as [Hle Eh].
  simpl in Eh. rewrite Eh, Ea. split; [|reflexivity].
  rewrite length_firstn. lia.
Qed.

End MatchFacts.

(** ** What the history records *)

Section HistoryFacts.

Import EngineCore Main Invariant Turn.

Variable treys_evaluate : list card -> option Z.
Variable env : Env.
Variable game_num : nat.

Lemma dict_set_fresh (d : list (nat * PlayerLog)) (k : nat) (v : PlayerLog) :
  ~ In k (map fst d) -> dict_set d k v = d ++ [(k, v)].
Proof.
  induction d as [|[k' v'] d IH]; simpl; intros H; [reflexivity|].
  destruct (Nat.eqb_spec k' k) as [E|E]; [exfalso; apply H; left; exact E|].
  rewrite IH by (intros C; apply H; right; exact C). reflexivity.
Qed.

(** The dictionary of an entry written before round 2: one value a player,
    in seat order. *)
Lemma truncated_history_players (ps : list PlayerState) :
  forall d : list (nat * PlayerLog),
    NoDup (map fst d ++ map index ps) ->
    fold_left
      (fun d p =>
         dict_set d (index p)
           (mkPlayerLog (hole_cards p) 7463 (has_folded p) 0
              (round_equities p) (stack p)))
      ps d
    = d ++ map (fun p => (index p, truncated_log p)) ps.
Proof.
  induction ps as [|p ps IH]; intros d Hnd; simpl.
  - symmetry. apply app_nil_r.
  - simpl in Hnd. rewrite dict_set_fresh.
    + rewrite IH.
      * rewrite <- app_assoc. reflexivity.
      * rewrite map_app, <- app_assoc. exact Hnd.
    + apply NoDup_remove_2 in Hnd. intros C. apply Hnd.
      apply in_or_app. left. exact C.
Qed.

(** The dictionary of the entry of a showdown: one value for every seat
    that bought in, in seat order, from the fields the player has when the
    showdown starts. *)
Lemma showdown_loop_history community (ps0 : list PlayerState)
  (l : list nat) :
  let log i :=
    let p := player_at ps0 i in
    mkPlayerLog (hole_cards p)
      (if has_folded p then 0%Z
       else evaluate_hand treys_evaluate (hole_cards p) community)
      (has_folded p) (final_round_bet p) (round_equities p) (stack p) in
  forall st : Showdown,
    (forall i, with_hand_score (player_at (sd_players st) i) 0
               = with_hand_score (player_at ps0 i) 0) ->
    (forall i, In i l -> index (player_at ps0 i) = i) ->
    NoDup (map fst (sd_round_history st) ++ l) ->
    sd_round_history (fold_left (showdown_step treys_evaluate community) l st)
    = sd_round_history st ++ map (fun i => (i, log i)) l.
Proof.
  intros log. induction l as [|x l IH]; intros st Hframe Hidx Hnd; simpl.
  - symmetry. apply app_nil_r.
  - pose proof (Hframe x) as Ex.
    assert (Ef : forall q q' : PlayerState,
              with_hand_score q 0 = with_hand_score q' 0 ->
              index q = index q' /\ hole_cards q = hole_cards q'
              /\ has_folded q = has_folded q'
              /\ final_round_bet q = final_round_bet q'
              /\ round_equities q = round_equities q' /\ stack q = stack q').
    { intros q q' E.
      pose proof (f_equal index E). pose proof (f_equal hole_cards E).
      pose proof (f_equal has_folded E). pose proof (f_equal final_round_bet E).
      pose proof (f_equal round_equities E). pose proof (f_equal stack E).
      simpl in *. repeat split; assumption. }
    destruct (Ef _ _ Ex) as [E1 [E2 [E3 [E4 [E5 E6]]]]].
    assert (Hhist : sd_round_history
                      (showdown_step treys_evaluate community st x)
                    = sd_round_history st ++ [(x, log x)]).
    { unfold showdown_step. rewrite E1, E2, E3, E4, E5, E6.
      rewrite (Hidx x) by (left; reflexivity).
      assert (Hx : ~ In x (map fst (sd_round_history st))).
      { apply NoDup_remove_2 in Hnd. intros C. apply Hnd.
        apply in_or_app. left. exact C. }
      unfold log. cbv zeta.
      destruct (has_folded (player_at ps0 x)); cbn [negb].
      - cbn [sd_round_history]. apply dict_set_fresh. exact Hx.
      - cbn [with_hand_score hole_cards final_round_bet round_equities stack
               index].
        rewrite ?E1, ?E2, ?E4, ?E5, ?E6.
        rewrite ?(Hidx x) by (left; reflexivity).
        destruct (_ <? _)%Z; [|destruct (_ =? _)%Z];
          cbn [sd_round_history]; apply dict_set_fresh; exact Hx. }
    rewrite IH.
    + rewrite Hhist, <- app_assoc. reflexivity.
    + intros i.
      destruct (showdown_step_touch treys_evaluate community st x)
        as [p' [Ep HR]].
      rewrite Ep, <- (Hframe i).
      apply (player_at_set_field (fun p => with_hand_score p 0)).
      destruct HR as [->|[s ->]]; reflexivity.
    + intros i Hi. apply Hidx. right. exact Hi.
    + rewrite Hhist, map_app, <- app_assoc. exact Hnd.
Qed.

(** The entry a turn appends to the history. *)
Lemma turn_history_entry (tr : HandTrace) :
  turn treys_evaluate env game_num tr ->
  match tr_outcome tr with
  | Halt | NoWinner =>
      match_history (tr_after tr) = match_history (tr_before tr)
  | EarlyWin | NoRound2 =>
      match_history (tr_after tr)
      = match_history (tr_before tr)
        ++ [mkRoundHistory
              (map (fun p => (index p, truncated_log p))
                 (players (tr_after tr)))
              (firstn 3 (tr_community_cards tr)) (tr_pot tr)]
  | ShowdownPaid =>
      match_history (tr_after tr)
      = match_history (tr_before tr)
        ++ [mkRoundHistory
              (map (fun i => (i, showdown_log treys_evaluate tr i))
                 (tr_active_players_indices tr))
              (tr_community_cards tr) (tr_pot tr)]
  end.
Proof.
  intros Ht.
  destruct (turn_facts treys_evaluate env game_num tr Ht)
    as [Hok [r0 [deck' [E0 [Ec St]]]]].
  destruct Ht as [Hwf _].
  assert (Hp : played tr) by (split; assumption).
  pose proof (ok_outcome _ _ _ Hok) as Out. unfold outcome_ok in Out.
  pose proof (ok_community _ _ _ Hok) as Hcom.
  pose proof (ok_seats _ _ _ Hok) as Hact.
  assert (Hslice : py_slice (tr_community_cards tr) 0 3
                   = firstn 3 (tr_community_cards tr)).
  { apply (py_slice_prefix (tr_community_cards tr) 3). rewrite Hcom. lia. }
  assert (Htrunc : truncated_history (players (tr_after tr))
                     (tr_community_cards tr) (tr_pot tr)
                   = mkRoundHistory
                       (map (fun p => (index p, truncated_log p))
                          (players (tr_after tr)))
                       (firstn 3 (tr_community_cards tr)) (tr_pot tr)).
  { unfold truncated_history. rewrite Hslice. f_equal.
    rewrite truncated_history_players; [reflexivity|]. simpl.
    destruct (played_tables tr (players (tr_after tr)) Hp) as [_ [W _]].
    { unfold snapshots. simpl. tauto. }
    rewrite W. apply seq_NoDup. }
  unfold stages in St. cbv zeta in St.
  destruct St as [_ [_ [_ [Sact Sout]]]].
  destruct (tr_outcome tr) eqn:Eo.
  - destruct Out as [_ [_ [_ [_ [_ Ea]]]]]. rewrite Ea. reflexivity.
  - destruct Out as [_ [w [_ [_ [_ [_ [_ [_ [_ Eh]]]]]]]]].
    rewrite Eh, Htrunc. reflexivity.
  - destruct Out as [_ [_ [_ [_ [_ [_ Eh]]]]]].
    rewrite Eh, Htrunc. reflexivity.
  - destruct Out as [_ [_ [_ [_ [_ Ea]]]]]. rewrite Ea. reflexivity.
  - destruct Sout as [_ [[_ [S3 [Spot _]]] [_ [_ [_ Eh]]]]].
    rewrite Eh. f_equal. f_equal. f_equal; [|symmetry; exact Spot].
    set (b3 := round3_loop _ _ _ _ _ _ _ _) in *. clearbody b3.
    unfold showdown_loop.
    rewrite (showdown_loop_history (tr_community_cards tr) (b_players b3)).
    + cbn [sd_round_history app]. rewrite Sact.
      apply map_ext. intros i. unfold showdown_log, showdown_score.
      rewrite S3. reflexivity.
    + intros i. reflexivity.
    + intros i Hi. rewrite <- S3.
      destruct (played_tables tr (tr_players_round3 tr) Hp) as [_ [W L]].
      { unfold snapshots. simpl. tauto. }
      apply well_indexed_at; [exact W|]. rewrite L.
      apply (seats_lt _ _ i Hact). rewrite Sact. exact Hi.
    + cbn [sd_round_history map app]. rewrite <- Sact. apply Hact.
Qed.

End HistoryFacts.

(** X15.  The entry a turn appends to [match_history].  A turn that ends before
    round 2 logs every seat of the table, eliminated or not, with the score
    7463, a final bet of 0 and the stack after the turn, next to the three
    cards of the flop.  A showdown logs the seats that bought in only, each
    with its hole cards, its score (0 if it folded), its river bet, its
    equities and the stack it had before the payouts, next to the five
    community cards.  Both record the pot; a turn that halts the match logs
    nothing. *)
Theorem history_entry_of_a_turn
  (treys_evaluate : list card -> option Z) (env : Main.Env) :
  exists ms trs,
    Main.play_match treys_evaluate env = Some (ms, trs)
    /\ Forall
         (fun tr =>
            match Main.tr_outcome tr with
            | Main.Halt | Main.NoWinner =>
                Main.match_history (Main.tr_after tr)
                = Main.match_history (Main.tr_before tr)
            | Main.EarlyWin | Main.NoRound2 =>
                Main.match_history (Main.tr_after tr)
                = Main.match_history (Main.tr_before tr)
                  ++ [Main.mkRoundHistory
                        (map (fun p =>
                                (EngineCore.index p, Turn.truncated_log p))
                           (Main.players (Main.tr_after tr)))
                        (firstn 3 (Main.tr_community_cards tr))
                        (Main.tr_pot tr)]
            | Main.ShowdownPaid =>
                Main.match_history (Main.tr_after tr)
                = Main.match_history (Main.tr_before tr)
                  ++ [Main.mkRoundHistory
                        (map (fun i =>
                                (i, Turn.showdown_log treys_evaluate tr i))
                           (Main.tr_active_players_indices tr))
                        (Main.tr_community_cards tr) (Main.tr_pot tr)]
            end)
         trs.
Proof.
  destruct (play_match_turns treys_evaluate env) as [ms [trs [E [_ [T _]]]]].
  exists ms, trs. split; [exact E|].
  apply (turns_forall treys_evaluate env _
           (turn_history_entry treys_evaluate env) trs 1%nat T).
Qed.

(** ** The scores of a showdown under the contract of [treys] *)

Section RealScores.

Import EngineCore Main Invariant Turn.

Variable treys_evaluate : list card -> option Z.
Hypothesis treys_ok : treys_contract treys_evaluate.
Variable env : Env.
Variable game_num : nat.

(** A choice of [k] elements keeps their order and their number. *)
Lemma combinations_spec {A : Type} (l : list A) :
  forall (k : nat) (combo : list A),
    In combo (combinations l k) ->
    List.length combo = k /\ incl combo l /\ (NoDup l -> NoDup combo).
Proof.
  induction l as [|x xs IH]; intros [|k] combo H; simpl in H.
  - destruct H as [<-|[]]. split; [reflexivity|].
    split; [apply incl_refl | intros; constructor].
  - destruct H.
  - destruct H as [<-|[]]. split; [reflexivity|].
    split; [intros ? [] | intros; constructor].
  - apply in_app_or in H. destruct H as [H|H].
    + apply in_map_iff in H. destruct H as [c [<- Hc]].
      destruct (IH k c Hc) as [L [I N]]. split; [simpl; rewrite L; reflexivity|].
      split.
      * intros y [<-|Hy]; [left; reflexivity | right; apply I, Hy].
      * intros Hnd. inversion Hnd as [|? ? Hx Hxs]; subst.
        constructor; [|apply N, Hxs]. intros C. apply Hx, I, C.
    + destruct (IH (S k) combo H) as [L [I N]]. split; [exact L|]. split.
      * intros y Hy. right. apply I, Hy.
      * intros Hnd. inversion Hnd; subst. apply N. assumption.
Qed.

(** Different cards of the deck, five or more, get the score of a hand. *)
Lemma evaluate_best_hand_range (cards : list card) :
  (5 <= List.length cards)%nat ->
  NoDup cards ->
  incl cards get_clean_deck ->
  (1 <= evaluate_best_hand treys_evaluate cards < SENTINEL)%Z.
Proof.
  intros Hlen Hnd Hincl.
  pose proof (evaluate_best_hand_real treys_evaluate treys_ok cards Hlen Hnd
                Hincl) as Hlt.
  split; [|exact Hlt].
  destruct (fold_best_step_min treys_evaluate (combinations cards 5) SENTINEL)
    as [_ [E|[combo [Hin Es]]]].
  - unfold evaluate_best_hand in Hlt. lia.
  - destruct (combinations_spec cards 5 combo Hin) as [L [I N]].
    destruct (treys_ok combo L (N Hnd)) as [s [Es' Hs]].
    + intros c Hc. apply Hincl, I, Hc.
    + unfold evaluate_best_hand. rewrite Es in Es'.
      injection Es' as ->. lia.
Qed.

Lemma create_deck_in_clean_deck : incl create_deck get_clean_deck.
Proof.
  intros c Hc. apply mem_true_iff.
  assert (H : forallb (fun c => mem c get_clean_deck) create_deck = true)
    by (vm_compute; reflexivity).
  rewrite forallb_forall in H. apply H, Hc.
Qed.

Lemma NoDup_flat_map_app {A : Type} (f : A -> list card) (ps : list A)
  (p : A) (c : list card) :
  In p ps -> NoDup (flat_map f ps ++ c) -> NoDup (f p ++ c).
Proof.
  intros Hin Hnd. destruct (in_split p ps Hin) as [pre [post E]].
  rewrite E, flat_map_app in Hnd. cbn [flat_map] in Hnd.
  rewrite <- !app_assoc in Hnd. apply NoDup_app_remove_l in Hnd.
  apply (NoDup_app_remove_r _ (flat_map f post)).
  eapply Permutation_NoDup; [|exact Hnd].
  rewrite <- app_assoc. apply Permutation_app_head, Permutation_app_comm.
Qed.

(** The hole cards of a seat are those round 0 dealt to it, whatever the
    turn did since. *)
Lemma turn_hole_cards (tr : HandTrace) (i : nat) :
  played tr ->
  tr_outcome tr = NoWinner \/ tr_outcome tr = ShowdownPaid ->
  hole_cards (player_at (tr_players_round3 tr) i)
  = hole_cards (player_at (tr_players_round0 tr) i).
Proof.
  intros Hp Ho. rewrite (proj2 (turn_no_late_fold tr i Hp Ho)).
  assert (Hnh : tr_outcome tr <> Halt) by (destruct Ho; congruence).
  destruct (played_not_halt tr Hp Hnh) as [_ [Maf [_ [_ [Mb1 _]]]]].
  assert (E1 : hole_cards (player_at (tr_players_round1 tr) i)
               = hole_cards (player_at (tr_players_afford tr) i)).
  { destruct (in_dec Nat.eq_dec i (tr_round1_active_indices tr)) as [Hi|Hi].
    - destruct (proj1 Mb1 i Hi) as [[wp ->] | [val [wp ->]]]; reflexivity.
    - rewrite (proj2 Mb1 i Hi). reflexivity. }
  rewrite E1.
  destruct (in_dec Nat.eq_dec i (tr_active_players_indices tr)) as [Hi|Hi].
  - destruct (proj1 Maf i Hi) as [->| ->]; reflexivity.
  - rewrite (proj2 Maf i Hi). reflexivity.
Qed.

Lemma turn_real_scores (tr : HandTrace) (i : nat) :
  turn treys_evaluate env game_num tr ->
  tr_outcome tr = ShowdownPaid ->
  In i (tr_active_players_indices tr) ->
  (1 <= showdown_score treys_evaluate tr i < SENTINEL)%Z.
Proof.
  intros Ht Eo Hi.
  destruct (turn_deal treys_evaluate env game_num tr Ht)
    as [Hnd [Hincl [Hcom F2]]].
  pose proof (turn_round0 treys_evaluate env game_num tr Ht) as Fs.
  destruct (turn_facts treys_evaluate env game_num tr Ht) as [Hok _].
  destruct Ht as [Hwf _].
  assert (Hp : played tr) by (split; assumption).
  destruct (active_funded tr i Hp Hi) as [Hlt Hf].
  pose proof (Forall2_player_at settled _ _ Fs i Hlt) as Hs.
  destruct (settled_fields _ _ Hs) as [_ [_ [_ [_ [_ [Hy _]]]]]].
  destruct (Hy Hf) as [_ [_ Hlen]].
  unfold showdown_score, evaluate_hand.
  rewrite (turn_hole_cards tr i Hp (or_intror Eo)).
  assert (Hin : In (player_at (tr_players_round0 tr) i)
                  (tr_players_round0 tr)).
  { apply nth_In. rewrite <- (Forall2_length Fs). exact Hlt. }
  apply evaluate_best_hand_range.
  - rewrite length_app, Hlen, Hcom. lia.
  - apply (NoDup_flat_map_app hole_cards (tr_players_round0 tr)); assumption.
  - intros c Hc. apply create_deck_in_clean_deck, Hincl.
    unfold cards_dealt. apply in_app_or in Hc. apply in_or_app.
    destruct Hc as [Hc|Hc]; [left|right; exact Hc].
    apply in_flat_map. eexists. split; [exact Hin | exact Hc].
Qed.

End RealScores.

(** *** The scores of the showdown *)

Section ShowdownScores.

Import EngineCore Main Invariant Turn.

Variable treys_evaluate : list card -> option Z.
Variable env : Env.
Variable game_num : nat.

Lemma showdown_step_scores community (st : Showdown) (idx : nat) :
  exists p',
    sd_players (showdown_step treys_evaluate community st idx)
    = set_player (sd_players st) idx p'
    /\ showdown_scored treys_evaluate community (player_at (sd_players st) idx) p'.
Proof.
  unfold showdown_step, showdown_scored.
  destruct (has_folded (player_at (sd_players st) idx)); simpl.
  - eexists. split; [symmetry; apply set_player_same | reflexivity].
  - set (s := evaluate_hand _ _ _).
    exists (with_hand_score (player_at (sd_players st) idx) s).
    split; [|reflexivity].
    destruct (s <? sd_best_score st)%Z; [reflexivity|].
    destruct (s =? sd_best_score st)%Z; reflexivity.
Qed.

(** The players after the showdown of a turn, seat by seat. *)
Lemma turn_showdown_players (tr : HandTrace) (i : nat) :
  turn treys_evaluate env game_num tr ->
  tr_outcome tr = ShowdownPaid ->
  In i (tr_active_players_indices tr) ->
  showdown_scored treys_evaluate (tr_community_cards tr)
    (player_at (tr_players_round3 tr) i)
    (player_at (tr_players_showdown tr) i).
Proof.
  intros Ht Eo Hi.
  destruct (turn_facts treys_evaluate env game_num tr Ht)
    as [Hok [r0 [deck' [_ [_ St]]]]].
  destruct Ht as [Hwf _].
  assert (Hp : played tr) by (split; assumption).
  pose proof (ok_seats _ _ _ Hok) as Hact.
  destruct (played_tables tr (tr_players_round3 tr) Hp) as [_ [_ L]].
  { unfold snapshots. simpl. tauto. }
  unfold stages in St. cbv zeta in St.
  destruct St as [_ [_ [_ [Sact Sout]]]]. rewrite Eo in Sout.
  destruct Sout as [_ [[_ [S3 [_ [Ssd _]]]] _]].
  set (b3 := round3_loop _ _ _ _ _ _ _ _) in *. clearbody b3.
  rewrite Ssd, S3. unfold showdown_loop.
  destruct (fold_touch sd_players
              (showdown_step treys_evaluate (tr_community_cards tr))
              (showdown_scored treys_evaluate (tr_community_cards tr))
              (showdown_step_scores (tr_community_cards tr))
              (r0_active_players_indices r0)
              (mkShowdown (b_players b3) 7463 [] [])) as [_ [Hin _]].
  - cbn [sd_players]. rewrite <- S3, L, <- Sact. exact Hact.
  - apply (Hin i). rewrite <- Sact. exact Hi.
Qed.

(** No turn touches [hand_score] between the reset of round 0 and the
    showdown. *)
Lemma turn_unscored (tr : HandTrace) (i : nat) :
  turn treys_evaluate env game_num tr ->
  tr_outcome tr = ShowdownPaid ->
  In i (tr_active_players_indices tr) ->
  hand_score (player_at (tr_players_round3 tr) i) = 0%Z.
Proof.
  intros Ht Eo Hi.
  pose proof (turn_round0 treys_evaluate env game_num tr Ht) as Fs.
  destruct (turn_facts treys_evaluate env game_num tr Ht) as [Hok _].
  destruct Ht as [Hwf _].
  assert (Hp : played tr) by (split; assumption).
  destruct (active_funded tr i Hp Hi) as [Hlt _].
  pose proof (Forall2_player_at settled _ _ Fs i Hlt) as Hs.
  assert (E0 : hand_score (player_at (tr_players_round0 tr) i) = 0%Z).
  { revert Hs. unfold settled.
    destruct (is_lost_match _); [intros ->; reflexivity|].
    destruct (Qltb _ _); [intros ->; reflexivity|].
    intros [c1 [c2 ->]]. reflexivity. }
  pose proof (ok_outcome _ _ _ Hok) as Out. unfold outcome_ok in Out.
  rewrite Eo in Out.
  destruct Out as [[_ [Maf [_ [_ [Mb1 _]]]]] [[_ [_ [Mb2 [Mb3 _]]]] _]].
  assert (E3 : hand_score (player_at (tr_players_round3 tr) i)
               = hand_score (player_at (tr_players_round2 tr) i)).
  { destruct (in_dec Nat.eq_dec i (tr_round2_active_indices tr)) as [H|H].
    - destruct (proj1 Mb3 i H) as [val [wp ->]]. reflexivity.
    - rewrite (proj2 Mb3 i H). reflexivity. }
  assert (E2 : hand_score (player_at (tr_players_round2 tr) i)
               = hand_score (player_at (tr_players_round1 tr) i)).
  { destruct (in_dec Nat.eq_dec i (tr_round2_active_indices tr)) as [H|H].
    - destruct (proj1 Mb2 i H) as [val [wp ->]]. reflexivity.
    - rewrite (proj2 Mb2 i H). reflexivity. }
  assert (E1 : hand_score (player_at (tr_players_round1 tr) i)
               = hand_score (player_at (tr_players_afford tr) i)).
  { destruct (in_dec Nat.eq_dec i (tr_round1_active_indices tr)) as [H|H].
    - destruct (proj1 Mb1 i H) as [[wp ->] | [val [wp ->]]]; reflexivity.
    - rewrite (proj2 Mb1 i H). reflexivity. }
  rewrite E3, E2, E1, <- E0.
  destruct (proj1 Maf i Hi) as [->| ->]; reflexivity.
Qed.

End ShowdownScores.

(** X12.  What [hand_score] holds after a showdown, for every seat that
    bought in.  A seat that folded is not evaluated and keeps the 0 of the
    reset.  A seat that did not fold holds the score of its two hole cards
    with the five community cards; with an evaluator that scores every five
    different cards of the deck between 1 and 7462 this score is between 1
    and 7462, the seven cards being different cards of the deck, so the
    sentinel 7463 is never the score of a seat at the showdown. *)
Theorem showdown_scores_are_hand_scores
  (treys_evaluate : list card -> option Z) (env : Main.Env)
  (treys_ok : EngineCore.treys_contract treys_evaluate) :
  exists ms trs,
    Main.play_match treys_evaluate env = Some (ms, trs)
    /\ Forall
         (fun tr =>
            Main.tr_outcome tr = Main.ShowdownPaid ->
            forall i,
              In i (Main.tr_active_players_indices tr) ->
              (EngineCore.has_folded
                 (Main.player_at (Main.tr_players_round3 tr) i) = true ->
               EngineCore.hand_score
                 (Main.player_at (Main.tr_players_showdown tr) i) = 0%Z)
              /\ (EngineCore.has_folded
                    (Main.player_at (Main.tr_players_round3 tr) i) = false ->
                  EngineCore.hand_score
                    (Main.player_at (Main.tr_players_showdown tr) i)
                  = EngineCore.evaluate_hand treys_evaluate
                      (EngineCore.hole_cards
                         (Main.player_at (Main.tr_players_round3 tr) i))
                      (Main.tr_community_cards tr)
                  /\ (1 <= EngineCore.hand_score
                             (Main.player_at (Main.tr_players_showdown tr) i)
                      < EngineCore.SENTINEL)%Z))
         trs.
Proof.
  destruct (play_match_turns treys_evaluate env) as [ms [trs [E [_ [T _]]]]].
  exists ms, trs. split; [exact E|].
  eapply turns_forall; [|exact T]. intros g tr Ht. cbv beta. intros Eo i Hi.
  pose proof (turn_showdown_players treys_evaluate env g tr i Ht Eo Hi) as S.
  unfold Turn.showdown_scored in S. split; intros Hf; rewrite Hf in S.
  - rewrite S. apply (turn_unscored treys_evaluate env g tr i Ht Eo Hi).
  - rewrite S. cbn [EngineCore.hand_score Main.with_hand_score].
    split; [reflexivity|].
    apply (turn_real_scores treys_evaluate treys_ok env g tr i Ht Eo Hi).
Qed.

(** ** Who sits out, and when the match stops *)

Section SittingOut.

Import EngineCore Main Invariant Turn.

Variable treys_evaluate : list card -> option Z.
Variable env : Env.

Lemma afford_loop_mono (l : list nat) :
  forall (st : Afford) (i : nat),
    In i (af_round1_active_indices st) ->
    In i (af_round1_active_indices (fold_left afford_step l st)).
Proof.
  induction l as [|x l IH]; intros st i Hi; simpl; [exact Hi|].
  apply IH. unfold afford_step.
  destruct (Qltb (stack (player_at (af_players st) x)) 100); simpl;
    [exact Hi | apply in_or_app; left; exact Hi].
Qed.

(** A seat the affordability loop leaves out of round 1 held less than
    100: its stack went to the pot and it is eliminated. *)
Lemma afford_loop_out (l : list nat) :
  forall st : Afford,
    NoDup l ->
    Forall (fun i => (i < List.length (af_players st))%nat) l ->
    forall i,
      In i l ->
      ~ In i (af_round1_active_indices (fold_left afford_step l st)) ->
      stack (player_at (af_players st) i) < 100
      /\ player_at (af_players (fold_left afford_step l st)) i
         = eliminate (player_at (af_players st) i).
Proof.
  induction l as [|x l IH]; intros st Hnd Hl i Hi Hout; [destruct Hi|].
  inversion Hnd as [|? ? Hx Hnd']; subst.
  inversion Hl as [|? ? Hxl Hl']; subst.
  simpl in Hout |- *.
  assert (Hlen : List.length (af_players (afford_step st x))
                 = List.length (af_players st)).
  { destruct (afford_step_touch st x) as [p' [Ep _]]. rewrite Ep.
    apply set_player_length. }
  assert (Hl1 : Forall
                  (fun i => (i < List.length
                                   (af_players (afford_step st x)))%nat) l)
    by (rewrite Hlen; exact Hl').
  destruct (fold_touch af_players afford_step afforded afford_step_touch l
              (afford_step st x) (conj Hnd' Hl1)) as [_ [_ Hframe]].
  destruct Hi as [<-|Hi].
  - rewrite (Hframe x Hx).
    unfold afford_step in Hout |- *.
    destruct (Qltb (stack (player_at (af_players st) x)) 100) eqn:E.
    + cbn [af_players]. rewrite player_at_set_same by exact Hxl.
      split; [apply Qltb_lt; exact E | reflexivity].
    + exfalso. apply Hout. apply afford_loop_mono. cbn [af_round1_active_indices].
      apply in_or_app. right. left. reflexivity.
  - assert (Hne : x <> i) by (intros ->; contradiction).
    destruct (IH (afford_step st x) Hnd' Hl1 i Hi Hout) as [G1 G2].
    assert (E : player_at (af_players (afford_step st x)) i
                = player_at (af_players st) i).
    { destruct (afford_step_touch st x) as [p' [Ep _]]. rewrite Ep.
      apply player_at_set_other. exact Hne. }
    rewrite E in G1, G2. split; assumption.
Qed.

Lemma turn_sitting_out (g : nat) (tr : HandTrace) (i : nat) :
  turn treys_evaluate env g tr ->
  tr_outcome tr <> Halt ->
  In i (tr_active_players_indices tr) ->
  ~ In i (tr_round1_active_indices tr) ->
  stack (player_at (tr_players_round0 tr) i) < 100
  /\ player_at (tr_players_afford tr) i
     = eliminate (player_at (tr_players_round0 tr) i).
Proof.
  intros Ht Ho Hi Hout.
  destruct (turn_facts treys_evaluate env g tr Ht)
    as [Hok [r0 [deck' [E0 [Ec St]]]]].
  destruct Ht as [Hwf _].
  assert (Hp : played tr) by (split; assumption).
  pose proof (ok_seats _ _ _ Hok) as Hact.
  destruct (played_tables tr (tr_players_round0 tr) Hp) as [_ [_ L0]].
  { unfold snapshots. simpl. tauto. }
  unfold stages in St. cbv zeta in St.
  destruct St as [_ [_ [S0 [Sact Sout]]]].
  assert (Saf : tr_players_afford tr = af_players (afford_loop r0)
                /\ tr_round1_active_indices tr
                   = af_round1_active_indices (afford_loop r0)).
  { destruct (tr_outcome tr); try congruence;
      destruct Sout as [[A [B _]] _]; split; assumption. }
  destruct Saf as [Saf Sr1]. clear Sout.
  rewrite Saf, S0. rewrite Sr1 in Hout. rewrite Sact in Hi, Hact.
  rewrite S0 in L0.
  apply (afford_loop_out (r0_active_players_indices r0)
           (mkAfford (r0_players r0) (r0_pot r0) [])).
  - apply Hact.
  - cbn [af_players]. rewrite L0. apply Hact.
  - exact Hi.
  - exact Hout.
Qed.

(** The game loop runs a turn for every game, up to the first that halts. *)
Lemma game_loop_length (games : list nat) :
  forall (ms ms' : MatchState) (trs : list HandTrace),
    game_loop treys_evaluate env games ms = Some (ms', trs) ->
    (List.length trs <= List.length games)%nat
    /\ (Forall (fun tr => tr_outcome tr <> Halt) trs ->
        List.length trs = List.length games).
Proof.
  induction games as [|g rest IH]; intros ms ms' trs H; cbn [game_loop] in H.
  - injection H as <- <-. split; [simpl; lia | reflexivity].
  - destruct (play_hand treys_evaluate env g ms) as [[ms1 tr]|];
      [|discriminate].
    destruct (tr_outcome tr) eqn:Eo.
    { injection H as <- <-. split; [simpl; lia|].
      intros F. inversion F; subst. congruence. }
    all: destruct (game_loop treys_evaluate env rest ms1) as [[ms2 trs']|]
           eqn:E; [|discriminate].
    all: injection H as <- <-.
    all: destruct (IH _ _ _ E) as [L1 L2].
    all: split; [simpl; lia|].
    all: intros F; inversion F; subst; simpl; rewrite L2 by assumption;
         reflexivity.
Qed.

Lemma game_loop_turns_length (games first : nat) (ms : MatchState) :
  wf_match ms ->
  exists ms' trs,
    game_loop treys_evaluate env (seq first games) ms = Some (ms', trs)
    /\ Forall played trs
    /\ chained ms trs ms'
    /\ (List.length trs <= games)%nat
    /\ (Forall (fun tr => tr_outcome tr <> Halt) trs ->
        List.length trs = games).
Proof.
  intros Hwf.
  destruct (game_loop_turns treys_evaluate env games first ms Hwf)
    as [ms' [trs [E [F [_ C]]]]].
  exists ms', trs. split; [exact E|]. split; [exact F|]. split; [exact C|].
  destruct (game_loop_length _ _ _ _ E) as [L1 L2].
  rewrite length_seq in L1, L2. split; assumption.
Qed.

(** X5.  A seat that bought in and holds less than 100 after the buy-in is left
    out of round 1: the engine adds what it holds to the pot, sets its stack
    to 0 and marks it eliminated.  (The seat stays in
    [active_players_indices].) *)
Theorem short_stack_forfeits_before_round1 :
  exists ms trs,
    play_match treys_evaluate env = Some (ms, trs)
    /\ Forall
         (fun tr =>
            tr_outcome tr <> Halt ->
            forall i,
              In i (tr_active_players_indices tr) ->
              ~ In i (tr_round1_active_indices tr) ->
              stack (player_at (tr_players_round0 tr) i) < 100
              /\ player_at (tr_players_afford tr) i
                 = eliminate (player_at (tr_players_round0 tr) i))
         trs.
Proof.
  destruct (play_match_turns treys_evaluate env) as [ms [trs [E [_ [T _]]]]].
  exists ms, trs. split; [exact E|].
  eapply turns_forall; [|exact T]. intros g tr Ht. cbv beta. intros Ho i Hi Hout.
  apply (turn_sitting_out g tr i Ht Ho Hi Hout).
Qed.

(** X16.  The match runs one turn a game, for at most [NUM_GAMES] games.  A turn
    halts the match exactly when fewer than two players bought in, and is
    then the last one; without such a turn all [NUM_GAMES] games are played. *)
Theorem match_stops_when_too_few_buy_in :
  exists ms trs,
    play_match treys_evaluate env = Some (ms, trs)
    /\ (List.length trs <= NUM_GAMES)%nat
    /\ (forall k tr,
          nth_error trs k = Some tr ->
          (tr_outcome tr = Halt
           <-> (List.length (tr_active_players_indices tr) < 2)%nat)
          /\ (tr_outcome tr = Halt -> S k = List.length trs))
    /\ (Forall (fun tr => tr_outcome tr <> Halt) trs ->
        List.length trs = NUM_GAMES).
Proof.
  destruct (game_loop_turns_length NUM_GAMES 1 initial_match initial_match_wf)
    as [ms [trs [E [F [C [L1 L2]]]]]].
  exists ms, trs. split; [exact E|].
  split; [exact L1|]. split; [|exact L2].
  intros k tr Hk.
  assert (Hp : played tr).
  { rewrite Forall_forall in F. apply F. eapply nth_error_In. exact Hk. }
  split.
  - destruct Hp as [Hwf Hok].
    pose proof (ok_outcome _ _ _ Hok) as Out. unfold outcome_ok in Out.
    destruct (tr_outcome tr) eqn:Eo.
    + split; [intros _; apply Out | reflexivity].
    + split; [discriminate|]. destruct Out as [[G _] _]. lia.
    + split; [discriminate|]. destruct Out as [[G _] _]. lia.
    + split; [discriminate|]. destruct Out as [[G _] _]. lia.
    + split; [discriminate|]. destruct Out as [[G _] _]. lia.
  - intros Eo. apply (chained_halt_last trs _ _ k tr C Hk Eo).
Qed.

End SittingOut.

(** * The example strategies *)

Section DummyFacts.

Import EngineCore Main Invariant DummyStrategies.

Lemma equity_round1_legal (win_prob : Q) :
  win_prob <= 1 -> legal_round1 (equity_round1 win_prob).
Proof.
  intros H. unfold equity_round1, legal_round1.
  destruct (Qltb win_prob (1 # 10)) eqn:E; [left; reflexivity|].
  apply Qltb_ge in E. right. simpl. split; [reflexivity|]. split; lra.
Qed.

(** The clamps of the engine leave a legal amount as it is: only the cap at
    the stack applies. *)
Lemma legal_round1_price (val : Q) (p : PlayerState) :
  100 <= val -> val <= 300 -> r1_price val p == Qmin val (stack p).
Proof.
  intros H1 H2. unfold r1_price.
  rewrite (Q.min_r 300 val) by exact H2.
  rewrite (Q.max_r 100 val) by exact H1. reflexivity.
Qed.

Lemma legal_round2_price (val : Q) (p : PlayerState) :
  legal_round2 (current_bet_r1 p) val -> r2_price val p == Qmin val (stack p).
Proof.
  intros [H1 H2]. unfold r2_price.
  rewrite (Q.min_r _ val) by exact H2.
  rewrite (Q.max_r _ val) by exact H1. reflexivity.
Qed.

Lemma legal_round3_price (val : Q) (p : PlayerState) :
  legal_round3 (current_bet_r2 p) val -> r3_price val p == Qmin val (stack p).
Proof.
  intros [H1 H2]. unfold r3_price.
  rewrite (Q.min_r _ val) by exact H2.
  rewrite (Q.max_r _ val) by exact H1. reflexivity.
Qed.

Lemma clamp_legal (lo hi val : Q) :
  lo <= hi -> lo <= Qmax lo (Qmin hi val) /\ Qmax lo (Qmin hi val) <= hi.
Proof.
  intros H. split; [apply Q.le_max_l|].
  apply Q.max_lub; [exact H | apply Q.le_min_l].
Qed.

(** *** The looseness model of [DummyStrategy5] *)

Import DummyStrategy5.

Lemma model_set_rates (d : list (nat * Profile)) (k : nat) (v : Profile) :
  Forall (fun e => rate (snd e)) d -> rate v ->
  Forall (fun e => rate (snd e)) (model_set d k v).
Proof.
  intros Hd Hv. induction Hd as [|[k' v'] d Hx Hd IH]; simpl.
  - constructor; [exact Hv | constructor].
  - destruct (Nat.eqb k' k); constructor; assumption.
Qed.

Lemma model_get_rate (d : list (nat * Profile)) (k : nat) (v : Profile) :
  Forall (fun e => rate (snd e)) d -> model_get d k = Some v -> rate v.
Proof.
  intros Hd. induction Hd as [|[k' v'] d Hx Hd IH]; simpl; [discriminate|].
  destruct (Nat.eqb k' k); [|exact IH].
  intros E. injection E as <-. exact Hx.
Qed.

Lemma observe_rates (my : Z) (model : list (nat * Profile))
  (item : nat * PlayerLog) :
  Forall (fun e => rate (snd e)) model ->
  Forall (fun e => rate (snd e)) (observe my model item).
Proof.
  intros H. unfold observe. destruct item as [pid pdata].
  destruct (negb _); [|exact H].
  apply model_set_rates; [exact H|].
  assert (Hp : rate match model_get model pid with
                    | Some profile => profile
                    | None => mkProfile 0 0
                    end).
  { destruct (model_get model pid) as [pr|] eqn:E.
    - apply (model_get_rate model pid pr H E).
    - unfold rate. simpl. lia. }
  unfold rate in *. destruct (negb (log_folded pdata)); simpl; lia.
Qed.

Lemma looseness_totals_bounds (model : list (nat * Profile)) :
  Forall (fun e => rate (snd e)) model ->
  let '(total, count) := looseness_totals model in
  (0 <= count)%Z /\ 0 <= total /\ total <= inject_Z count.
Proof.
  intros H. unfold looseness_totals.
  assert (G : forall (acc : Q * Z),
            (0 <= snd acc)%Z /\ 0 <= fst acc /\ fst acc <= inject_Z (snd acc) ->
            let r :=
              fold_left
                (fun '(total_looseness, total_players) '(_, profile) =>
                   if (games_seen profile >? 0)%Z
                   then (total_looseness
                         + inject_Z (games_played profile)
                           / inject_Z (games_seen profile),
                         (total_players + 1)%Z)
                   else (total_looseness, total_players))
                model acc in
            (0 <= snd r)%Z /\ 0 <= fst r /\ fst r <= inject_Z (snd r)).
  { induction H as [|[k pr] d Hx Hd IH]; intros [t c] Hacc; simpl; [exact Hacc|].
    apply IH. simpl in Hacc. destruct Hacc as [A1 [A2 A3]].
    unfold rate in Hx. simpl in Hx.
    destruct (Z.gtb_spec (games_seen pr) 0) as [Hs|Hs]; simpl;
      [|repeat split; assumption].
    assert (Hq : 0 < inject_Z (games_seen pr)).
    { change 0 with (inject_Z 0). rewrite <- Zlt_Qlt. lia. }
    assert (R1 : 0 <= inject_Z (games_played pr) / inject_Z (games_seen pr)).
    { apply Qle_shift_div_l; [exact Hq|]. rewrite Qmult_0_l.
      change 0 with (inject_Z 0). rewrite <- Zle_Qle. lia. }
    assert (R2 : inject_Z (games_played pr) / inject_Z (games_seen pr) <= 1).
    { apply Qle_shift_div_r; [exact Hq|]. rewrite Qmult_1_l.
      rewrite <- Zle_Qle. lia. }
    split; [lia|]. split; [lra|].
    rewrite inject_Z_plus. change (inject_Z 1) with 1. lra. }
  specialize (G (0, 0%Z)). simpl in G.
  destruct (fold_left _ model (0, 0%Z)) as [t c]. apply G.
  split; [lia|]. split; apply Qle_refl.
Qed.

End DummyFacts.

(** X17.  The first-round answers of the five dummy strategies are legal as they
    are returned: for a win probability of at most 1, each strategy folds
    with the amount 0 or plays an amount between 100 and 300, whatever its
    state, the cards, the stacks and the pot; so the engine changes the
    amount only where the stack is smaller. *)
Theorem dummy_round1_answers_are_legal
  (hole comm : list card) (stacks : list Q) (pot win_prob : Q)
  (equity_at_most_1 : win_prob <= 1) :
  (forall self,
      DummyStrategies.legal_round1
        (DummyStrategies.DummyStrategy1.round1 self hole comm stacks pot
           win_prob))
  /\ (forall self,
        DummyStrategies.legal_round1
          (DummyStrategies.DummyStrategy2.round1 self hole comm stacks pot
             win_prob))
  /\ (forall self,
        DummyStrategies.legal_round1
          (fst (DummyStrategies.DummyStrategy3.round1 self hole comm stacks pot
                  win_prob)))
  /\ (forall self answer,
        DummyStrategies.DummyStrategy4.round1 self hole comm stacks pot
          win_prob = Some answer ->
        DummyStrategies.legal_round1 answer)
  /\ (forall self,
        DummyStrategies.legal_round1
          (DummyStrategies.DummyStrategy5.round1 self hole comm stacks pot
             win_prob))
  /\ (forall val p,
        100 <= val -> val <= 300 ->
        Invariant.r1_price val p == Qmin val (EngineCore.stack p)).
Proof.
  split; [intros self; apply equity_round1_legal; assumption|].
  split; [intros self; apply equity_round1_legal; assumption|].
  split; [intros self; apply equity_round1_legal; assumption|].
  split; [|split; [|apply legal_round1_price]].
  - intros self answer. unfold DummyStrategies.DummyStrategy4.round1.
    destruct (DummyStrategies.list_get stacks _) as [my_stack|];
      [|discriminate].
    unfold DummyStrategies.legal_round1.
    destruct (Qltb win_prob _); [intros E; injection E as <-; left; reflexivity|].
    intros E. injection E as <-. right. simpl. split; [reflexivity|].
    destruct (Qltb (3 # 5) win_prob); [split; discriminate|].
    destruct (Qltb my_stack 1000); split; discriminate.
  - intros self. unfold DummyStrategies.DummyStrategy5.round1.
    unfold DummyStrategies.legal_round1. cbv zeta.
    destruct (Qltb win_prob _); [left; reflexivity|].
    right. simpl. split; [reflexivity|].
    destruct (Qltb (1 # 4) _); split; discriminate.
Qed.

(** X18.  The second-round answers of the five dummy strategies are legal as they
    are returned: with the strategy's own round-1 bet in [r1_bets], not
    negative, and a win probability between 0 and 1, each strategy returns an
    amount between 0.5 and 1.5 times that bet, whatever its state; so the
    engine changes the amount only where the stack is smaller. *)
Theorem dummy_round2_answers_are_legal
  (hole comm : list card) (r1_bets stacks : list Q) (pot win_prob : Q)
  (equity_at_least_0 : 0 <= win_prob) (equity_at_most_1 : win_prob <= 1) :
  (forall self base,
      DummyStrategies.bets_get r1_bets
        (DummyStrategies.DummyStrategy1.my_index self) = Some base ->
      0 <= base ->
      exists val,
        DummyStrategies.DummyStrategy1.round2 self hole comm r1_bets stacks pot
          win_prob = Some val
        /\ DummyStrategies.legal_round2 base val)
  /\ (forall self base,
        DummyStrategies.bets_get r1_bets
          (DummyStrategies.DummyStrategy2.my_index self) = Some base ->
        0 <= base ->
        exists val,
          DummyStrategies.DummyStrategy2.round2 self hole comm r1_bets stacks
            pot win_prob = Some val
          /\ DummyStrategies.legal_round2 base val)
  /\ (forall self base,
        DummyStrategies.bets_get r1_bets
          (DummyStrategies.DummyStrategy3.my_index self) = Some base ->
        0 <= base ->
        exists val self',
          DummyStrategies.DummyStrategy3.round2 self hole comm r1_bets stacks
            pot win_prob = Some (val, self')
          /\ DummyStrategies.legal_round2 base val)
  /\ (forall self base,
        DummyStrategies.bets_get r1_bets
          (DummyStrategies.DummyStrategy4.my_index self) = Some base ->
        0 <= base ->
        exists val,
          DummyStrategies.DummyStrategy4.round2 self hole comm r1_bets stacks
            pot win_prob = Some val
          /\ DummyStrategies.legal_round2 base val)
  /\ (forall self base,
        DummyStrategies.bets_get r1_bets
          (DummyStrategies.DummyStrategy5.my_index self) = Some base ->
        0 <= base ->
        exists val,
          DummyStrategies.DummyStrategy5.round2 self hole comm r1_bets stacks
            pot win_prob = Some val
          /\ DummyStrategies.legal_round2 base val)
  /\ (forall val p,
        DummyStrategies.legal_round2 (EngineCore.current_bet_r1 p) val ->
        Invariant.r2_price val p == Qmin val (EngineCore.stack p)).
Proof.
  unfold DummyStrategies.legal_round2.
  split; [|split; [|split; [|split; [|split]]]].
  - intros self base E Hb. unfold DummyStrategies.DummyStrategy1.round2.
    rewrite E. eexists. split; [reflexivity|]. split; nra.
  - intros self base E Hb. unfold DummyStrategies.DummyStrategy2.round2.
    rewrite E. eexists. split; [reflexivity|]. cbv zeta.
    destruct (_ && _); split; lra.
  - intros self base E Hb. unfold DummyStrategies.DummyStrategy3.round2.
    rewrite E. destruct (DummyStrategies.DummyStrategy3.prev_winprob_r1 self)
      as [old|].
    + eexists. eexists. split; [reflexivity|]. cbv zeta.
      destruct (Qltb old win_prob); split; lra.
    + eexists. eexists. split; [reflexivity|]. split; lra.
  - intros self base E Hb. unfold DummyStrategies.DummyStrategy4.round2.
    rewrite E. eexists. split; [reflexivity|]. cbv zeta.
    destruct (_ && _); [split; lra|].
    destruct (Qltb (2 # 5) win_prob); split; lra.
  - intros self base E Hb. unfold DummyStrategies.DummyStrategy5.round2.
    rewrite E. eexists. split; [reflexivity|].
    apply clamp_legal. lra.
  - intros val p H. apply legal_round2_price. exact H.
Qed.

(** X19.  The third-round answers of the five dummy strategies are legal as they
    are returned: with the strategy's own round-2 bet in [r2_bets], not
    negative, and a win probability between 0 and 1, each strategy returns an
    amount between 0.75 and 1.25 times that bet, whatever its state; so the
    engine changes the amount only where the stack is smaller. *)
Theorem dummy_round3_answers_are_legal
  (hole comm : list card) (r1_bets r2_bets stacks : list Q) (pot win_prob : Q)
  (equity_at_least_0 : 0 <= win_prob) (equity_at_most_1 : win_prob <= 1) :
  (forall self base,
      DummyStrategies.bets_get r2_bets
        (DummyStrategies.DummyStrategy1.my_index self) = Some base ->
      0 <= base ->
      exists val,
        DummyStrategies.DummyStrategy1.round3 self hole comm r1_bets r2_bets
          stacks pot win_prob = Some val
        /\ DummyStrategies.legal_round3 base val)
  /\ (forall self base,
        DummyStrategies.bets_get r2_bets
          (DummyStrategies.DummyStrategy2.my_index self) = Some base ->
        0 <= base ->
        exists val,
          DummyStrategies.DummyStrategy2.round3 self hole comm r1_bets r2_bets
            stacks pot win_prob = Some val
          /\ DummyStrategies.legal_round3 base val)
  /\ (forall self base,
        DummyStrategies.bets_get r2_bets
          (DummyStrategies.DummyStrategy3.my_index self) = Some base ->
        0 <= base ->
        exists val,
          DummyStrategies.DummyStrategy3.round3 self hole comm r1_bets r2_bets
            stacks pot win_prob = Some val
          /\ DummyStrategies.legal_round3 base val)
  /\ (forall self base,
        DummyStrategies.bets_get r2_bets
          (DummyStrategies.DummyStrategy4.my_index self) = Some base ->
        0 <= base ->
        exists val,
          DummyStrategies.DummyStrategy4.round3 self hole comm r1_bets r2_bets
            stacks pot win_prob = Some val
          /\ DummyStrategies.legal_round3 base val)
  /\ (forall self base,
        DummyStrategies.bets_get r2_bets
          (DummyStrategies.DummyStrategy5.my_index self) = Some base ->
        0 <= base ->
        exists val,
          DummyStrategies.DummyStrategy5.round3 self hole comm r1_bets r2_bets
            stacks pot win_prob = Some val
          /\ DummyStrategies.legal_round3 base val)
  /\ (forall val p,
        DummyStrategies.legal_round3 (EngineCore.current_bet_r2 p) val ->
        Invariant.r3_price val p == Qmin val (EngineCore.stack p)).
Proof.
  unfold DummyStrategies.legal_round3.
  split; [|split; [|split; [|split; [|split]]]].
  - intros self base E Hb. unfold DummyStrategies.DummyStrategy1.round3.
    rewrite E. eexists. split; [reflexivity|]. split; nra.
  - intros self base E Hb. unfold DummyStrategies.DummyStrategy2.round3.
    rewrite E. eexists. split; [reflexivity|]. cbv zeta.
    destruct (_ && _); split; lra.
  - intros self base E Hb. unfold DummyStrategies.DummyStrategy3.round3.
    rewrite E. destruct (DummyStrategies.DummyStrategy3.prev_winprob_r2 self)
      as [old|].
    + eexists. split; [reflexivity|]. cbv zeta.
      destruct (_ && _); split; lra.
    + eexists. split; [reflexivity|]. split; lra.
  - intros self base E Hb. unfold DummyStrategies.DummyStrategy4.round3.
    rewrite E. eexists. split; [reflexivity|]. cbv zeta.
    destruct (Qltb (7 # 10) win_prob); split; lra.
  - intros self base E Hb. unfold DummyStrategies.DummyStrategy5.round3.
    rewrite E. eexists. split; [reflexivity|].
    apply clamp_legal. lra.
  - intros val p H. apply legal_round3_price. exact H.
Qed.

(** X20.  The looseness model of [DummyStrategy5] holds rates: when every profile
    counts at most as many games played as games seen, [initialize_game]
    leaves it so, and [get_avg_opp_looseness] lies between 0 and 1. *)
Theorem dummy5_looseness_is_a_rate
  (self : DummyStrategies.DummyStrategy5.State)
  (match_history : list Main.RoundHistory) (current_game_num : nat)
  (sound : DummyStrategies.DummyStrategy5.rates self) :
  (forall self',
      DummyStrategies.DummyStrategy5.initialize_game self match_history
        current_game_num = Some self' ->
      DummyStrategies.DummyStrategy5.rates self')
  /\ 0 <= DummyStrategies.DummyStrategy5.get_avg_opp_looseness self
  /\ DummyStrategies.DummyStrategy5.get_avg_opp_looseness self <= 1.
Proof.
  unfold DummyStrategies.DummyStrategy5.rates in *. split.
  - intros self'. unfold DummyStrategies.DummyStrategy5.initialize_game.
    destruct (Nat.eqb current_game_num 1).
    + set (model1 := fold_left _ (seq 0 5) _).
      assert (H1 : Forall
                     (fun e => DummyStrategies.DummyStrategy5.rate (snd e))
                     model1).
      { apply (fold_left_inv
                 (fun model =>
                    Forall
                      (fun e => DummyStrategies.DummyStrategy5.rate (snd e))
                      model));
          [|exact sound].
        intros model i H. destruct (negb _); [|exact H].
        apply model_set_rates; [exact H|].
        unfold DummyStrategies.DummyStrategy5.rate. simpl. lia. }
      clearbody model1. intros E. injection E as <-. exact H1.
    + destruct (rev match_history) as [|last_game rest]; [discriminate|].
      set (model1 := fold_left _ _ _).
      assert (H1 : Forall
                     (fun e => DummyStrategies.DummyStrategy5.rate (snd e))
                     model1).
      { apply (fold_left_inv
                 (fun model =>
                    Forall
                      (fun e => DummyStrategies.DummyStrategy5.rate (snd e))
                      model));
          [|exact sound].
        intros model item H. apply observe_rates. exact H. }
      clearbody model1. intros E. injection E as <-. exact H1.
  - unfold DummyStrategies.DummyStrategy5.get_avg_opp_looseness.
    pose proof (looseness_totals_bounds
                  (DummyStrategies.DummyStrategy5.looseness_model self) sound)
      as B.
    destruct (DummyStrategies.DummyStrategy5.looseness_totals _) as [t c].
    destruct B as [B1 [B2 B3]].
    destruct (Z.gtb_spec c 0) as [Hc|Hc]; [|split; discriminate].
    assert (Hq : 0 < inject_Z c).
    { change 0 with (inject_Z 0). rewrite <- Zlt_Qlt. lia. }
    split.
    + apply Qle_shift_div_l; [exact Hq | lra].
    + apply Qle_shift_div_r; [exact Hq | lra].
Qed.

(** X21.  The call [initialize_game(match_history, game_num)] the engine makes at
    the start of every game returns normally for [DummyStrategy5], whatever
    its state: from game 2 on the history is not empty, so
    [match_history[-1]] exists. *)
Theorem dummy5_initialize_game_never_raises
  (treys_evaluate : list card -> option Z) (env : Main.Env) :
  exists ms trs,
    Main.play_match treys_evaluate env = Some (ms, trs)
    /\ forall k tr self,
         nth_error trs k = Some tr ->
         exists self',
           DummyStrategies.DummyStrategy5.initialize_game self
             (Main.match_history (Main.tr_before tr)) (S k) = Some self'.
Proof.
  destruct (play_match_turns treys_evaluate env) as [ms [trs [E [_ [T C]]]]].
  exists ms, trs. split; [exact E|].
  destruct (chained_history treys_evaluate env trs 1 Main.initial_match ms T C)
    as [added [Ea Hk]].
  intros k tr self Hn. destruct (Hk k tr Hn) as [Hle Eh]. simpl in Eh.
  unfold DummyStrategies.DummyStrategy5.initialize_game.
  destruct k as [|k]; [eexists; reflexivity|].
  cbn [Nat.eqb].
  assert (Hlen : List.length (Main.match_history (Main.tr_before tr)) = S k)
    by (rewrite Eh, length_firstn; lia).
  rewrite <- length_rev in Hlen.
  destruct (rev (Main.match_history (Main.tr_before tr)));
    [discriminate | eexists; reflexivity].
Qed.

(** * The properties with hypotheses, at concrete inputs *)

(** Twenty-four players on a flop: no trial can be dealt. *)
Lemma equity_is_zero_with_24_players :
  EngineCore.calculate_multiplayer_equity Category.category_evaluate
    (fun _ => []) ["Ah"; "Kd"] ["2c"; "7d"; "9s"] 24 500 == 0.
Proof.
  apply (equity_is_zero_beyond_the_deck Category.category_evaluate
           (fun _ => []) ["Ah"; "Kd"] ["2c"; "7d"; "9s"] 24 500).
  - reflexivity.
  - simpl. lia.
  - apply distinct_NoDup. reflexivity.
  - intros c Hc. apply mem_true_iff.
    simpl in Hc.
    repeat (destruct Hc as [<-|Hc]; [reflexivity|]). destruct Hc.
  - lia.
Defined.

(** The showdowns of a match scored by the evaluator of categories. *)
Lemma showdown_scores_with_category_evaluate :
  EngineCore.treys_contract Category.category_evaluate
  /\ exists ms trs,
       Main.play_match Category.category_evaluate
         Scenario.eliminated_winner_env = Some (ms, trs)
       /\ Forall
            (fun tr =>
               Main.tr_outcome tr = Main.ShowdownPaid ->
               forall i,
                 In i (Main.tr_active_players_indices tr) ->
                 (EngineCore.has_folded
                    (Main.player_at (Main.tr_players_round3 tr) i) = true ->
                  EngineCore.hand_score
                    (Main.player_at (Main.tr_players_showdown tr) i) = 0%Z)
                 /\ (EngineCore.has_folded
                       (Main.player_at (Main.tr_players_round3 tr) i)
                     = false ->
                     EngineCore.hand_score
                       (Main.player_at (Main.tr_players_showdown tr) i)
                     = EngineCore.evaluate_hand Category.category_evaluate
                         (EngineCore.hole_cards
                            (Main.player_at (Main.tr_players_round3 tr) i))
                         (Main.tr_community_cards tr)
                     /\ (1 <= EngineCore.hand_score
                                (Main.player_at
                                   (Main.tr_players_showdown tr) i)
                         < EngineCore.SENTINEL)%Z))
            trs.
Proof.
  split; [exact category_evaluate_contract|].
  exact (showdown_scores_are_hand_scores Category.category_evaluate
           Scenario.eliminated_winner_env category_evaluate_contract).
Defined.

(** The five strategies at an even chance, the fourth with a stack of
    10000 at seat 3; [DummyStrategy1] plays 200. *)
Lemma dummy_round1_answers_at_even_chance :
  DummyStrategies.DummyStrategy1.round1
    (DummyStrategies.DummyStrategy1.mkState 4) ["Ah"; "Kd"]
    ["2c"; "7d"; "9s"] [9900; 9900; 9900; 9900; 9900] 500 (1 # 2)
  = ("play", 100 + (1 # 2) * 200)
  /\ DummyStrategies.legal_round1
       (DummyStrategies.DummyStrategy1.round1
          (DummyStrategies.DummyStrategy1.mkState 4) ["Ah"; "Kd"]
          ["2c"; "7d"; "9s"] [9900; 9900; 9900; 9900; 9900] 500 (1 # 2)).
Proof.
  split; [reflexivity|].
  apply (dummy_round1_answers_are_legal ["Ah"; "Kd"] ["2c"; "7d"; "9s"]
           [9900; 9900; 9900; 9900; 9900] 500 (1 # 2)).
  unfold Qle. simpl. lia.
Defined.

(** [DummyStrategy2] at seat 1 after a round-1 bet of 200, with a higher
    bet at the table: it returns the lowest legal amount. *)
Lemma dummy_round2_answers_after_a_bet_of_200 :
  exists val,
    DummyStrategies.DummyStrategy2.round2
      (DummyStrategies.DummyStrategy2.mkState 1) ["Ah"; "Kd"]
      ["2c"; "7d"; "9s"; "Qh"] [300; 200; 0; 0; 0]
      [9900; 9900; 9900; 9900; 9900] 1000 (4 # 5) = Some val
    /\ DummyStrategies.legal_round2 200 val.
Proof.
  apply (dummy_round2_answers_are_legal ["Ah"; "Kd"] ["2c"; "7d"; "9s"; "Qh"]
           [300; 200; 0; 0; 0] [9900; 9900; 9900; 9900; 9900] 1000 (4 # 5)).
  - unfold Qle. simpl. lia.
  - unfold Qle. simpl. lia.
  - reflexivity.
  - unfold Qle. simpl. lia.
Defined.

(** [DummyStrategy4] at seat 3 after a round-2 bet of 150, with a strong
    hand. *)
Lemma dummy_round3_answers_after_a_bet_of_150 :
  exists val,
    DummyStrategies.DummyStrategy4.round3
      (DummyStrategies.DummyStrategy4.mkState 3) ["Ah"; "Kd"]
      ["2c"; "7d"; "9s"; "Qh"; "Ac"] [0; 0; 0; 200; 100] [0; 0; 0; 150; 50]
      [9900; 9900; 9900; 9900; 9900] 1000 (4 # 5) = Some val
    /\ DummyStrategies.legal_round3 150 val.
Proof.
  apply (dummy_round3_answers_are_legal ["Ah"; "Kd"]
           ["2c"; "7d"; "9s"; "Qh"; "Ac"] [0; 0; 0; 200; 100]
           [0; 0; 0; 150; 50] [9900; 9900; 9900; 9900; 9900] 1000 (4 # 5)).
  - unfold Qle. simpl. lia.
  - unfold Qle. simpl. lia.
  - reflexivity.
  - unfold Qle. simpl. lia.
Defined.

(** [DummyStrategy5] at the fourth game, after a showdown: the model is
    updated from the last entry of the history and holds rates before and
    after; the average looseness is (1/2 + 0 + 1) / 3 before and
    (2/3 + 0 + 1) / 3 after, over the three seats seen. *)
Lemma dummy5_looseness_after_a_showdown :
  DummyStrategies.DummyStrategy5.rates
    DummyStrategies.Looseness.after_three_games
  /\ ((forall self',
         DummyStrategies.DummyStrategy5.initialize_game
           DummyStrategies.Looseness.after_three_games
           [DummyStrategies.Looseness.showdown_entry] 4 = Some self' ->
         DummyStrategies.DummyStrategy5.rates self')
      /\ 0 <= DummyStrategies.DummyStrategy5.get_avg_opp_looseness
                DummyStrategies.Looseness.after_three_games
      /\ DummyStrategies.DummyStrategy5.get_avg_opp_looseness
           DummyStrategies.Looseness.after_three_games <= 1)
  /\ DummyStrategies.DummyStrategy5.initialize_game
       DummyStrategies.Looseness.after_three_games
       [DummyStrategies.Looseness.showdown_entry] 4
     = Some DummyStrategies.Looseness.after_four_games
  /\ DummyStrategies.DummyStrategy5.get_avg_opp_looseness
       DummyStrategies.Looseness.after_three_games == 1 # 2
  /\ DummyStrategies.DummyStrategy5.get_avg_opp_looseness
       DummyStrategies.Looseness.after_four_games == 5 # 9.
Proof.
  assert (R : DummyStrategies.DummyStrategy5.rates
                DummyStrategies.Looseness.after_three_games).
  { unfold DummyStrategies.DummyStrategy5.rates,
      DummyStrategies.DummyStrategy5.rate.
    repeat constructor; simpl; lia. }
  split; [exact R|]. split.
  - exact (dummy5_looseness_is_a_rate
             DummyStrategies.Looseness.after_three_games
             [DummyStrategies.Looseness.showdown_entry] 4 R).
  - split; [reflexivity|]. split; vm_compute; reflexivity.
Defined.
